(** * The Jack compiler of [11/JackCompiler.py]: tokenizer, symbol table,
      code generator and recursive-descent parser, embedded in Rocq.

    Conventions of the embedding.
    - Source text is a [string] of 8-bit characters.  The classifiers
      [isspace], [isdigit], [isalpha] and [isalnum] are Python's [str]
      methods on the ASCII range (code points below 128).  Python's
      [str.isdigit], [str.isalpha] and [str.isalnum] are also true of
      characters outside ASCII (the superscript two, accented letters),
      which the model takes for stray characters: the model is that of the
      tokenizer on ASCII text, and a statement whose truth of the code
      rests on the class of a character carries the hypothesis that the
      character, or the text, is ASCII.
    - Python integers are [N] where the code only counts up from 0, and [Z]
      for the cursor of the parser, which the code decrements.
    - The cursor [self.pos] of the tokenizer is represented by the unread
      suffix [self.code[self.pos:]].
    - A Python exception is the outcome [Err]; loops and recursion are driven
      by a fuel argument, and running out of fuel is the separate outcome
      [Timeout] (Python's recursion limit is not modelled).  The compiler is
      proved to return or raise on every source once the fuel is large
      enough, and more fuel does not change its result ([compile_total],
      [compile_fuel_mono]).
    - Token objects are distinct: the in-place update of a token in
      [compile_term] changes one position of the token list. *)

From stdpp Require Import base option list strings gmap pretty sorting.
From Stdlib Require Import ZArith NArith Ascii String Lia.

Local Open Scope string_scope.
Local Open Scope list_scope.

(** ** Tokens *)

Inductive TokenType :=
  KEYWORD | SYMBOL | IDENTIFIER | INT_CONST | STRING_CONST | EOF.

#[global] Instance TokenType_eq_dec : EqDecision TokenType.
Proof. solve_decision. Defined.

Record Token := mkToken {
  tok_type : TokenType;
  tok_value : string;
  tok_line : N
}.

#[global] Instance Token_eq_dec : EqDecision Token.
Proof. solve_decision. Defined.

(** ** Tokenizer *)

Module Tokenizer.

Definition KEYWORDS : list string :=
  [ "class"; "constructor"; "function"; "method"; "field"; "static";
    "var"; "int"; "char"; "boolean"; "void"; "true"; "false"; "null";
    "this"; "let"; "do"; "if"; "else"; "while"; "return" ].

Definition SYMBOLS : list ascii :=
  list_ascii_of_string "{}()[].,;=+-*/<>&|~".

Definition ord (c : ascii) : N := N_of_ascii c.

(** [str.isspace] on ASCII: TAB, LF, VT, FF, CR, the four separators
    FS, GS, RS, US and the space. *)
Definition isspace (c : ascii) : bool :=
  let n := ord c in
  ((9 <=? n) && (n <=? 13) || (28 <=? n) && (n <=? 32))%N.

Definition isdigit (c : ascii) : bool :=
  let n := ord c in ((48 <=? n) && (n <=? 57))%N.

Definition isalpha (c : ascii) : bool :=
  let n := ord c in
  ((65 <=? n) && (n <=? 90) || (97 <=? n) && (n <=? 122))%N.

Definition isalnum (c : ascii) : bool := isalpha c || isdigit c.

Definition is_ascii (c : ascii) : bool := (ord c <? 128)%N.

Definition in_SYMBOLS (c : ascii) : bool := existsb (Ascii.eqb c) SYMBOLS.

Definition in_KEYWORDS (s : string) : bool := existsb (String.eqb s) KEYWORDS.

Definition newline : ascii := "010"%char.
Definition dquote : ascii := "034"%char.

(** The scanner: [rest] is [self.code[self.pos:]]. *)
Record t := mk {
  rest : string;
  line : N;
  tokens : list Token
}.

Definition init (code : string) : t :=
  {| rest := code; line := 1; tokens := [] |}.

(** [s[0:k]] and [s[k:]] for the maximal [k] such that [p] holds of the
    first [k] characters: the loops [while pos < len and p(code[pos])]. *)
Fixpoint span (p : ascii -> bool) (s : string) : string * string :=
  match s with
  | EmptyString => (EmptyString, EmptyString)
  | String c r =>
      if p c then let '(a, b) := span p r in (String c a, b)
      else (EmptyString, s)
  end.

(** The inner loop of a block comment, entered after the opening two
    characters.  It runs while two characters are left, so the last
    character of an unterminated comment is not consumed. *)
Fixpoint skip_block_comment (s : string) (ln : N) : string * N :=
  match s with
  | String c1 ((String c2 r) as s') =>
      if Ascii.eqb c1 "*" && Ascii.eqb c2 "/" then (r, ln)
      else skip_block_comment s' (if Ascii.eqb c1 newline then ln + 1 else ln)%N
  | _ => (s, ln)
  end.

Fixpoint _skip_whitespace_and_comments (fuel : nat) (tk : t) : option t :=
  match fuel with
  | O => None
  | S fuel =>
      match rest tk with
      | EmptyString => Some tk
      | String c r =>
          if isspace c then
            _skip_whitespace_and_comments fuel
              {| rest := r;
                 line := (if Ascii.eqb c newline then line tk + 1 else line tk)%N;
                 tokens := tokens tk |}
          else
            match r with
            | String c2 r2 =>
                if Ascii.eqb c "/" && Ascii.eqb c2 "/" then
                  _skip_whitespace_and_comments fuel
                    {| rest := snd (span (fun x => negb (Ascii.eqb x newline)) (rest tk));
                       line := line tk; tokens := tokens tk |}
                else if Ascii.eqb c "/" && Ascii.eqb c2 "*" then
                  let '(s', ln') := skip_block_comment r2 (line tk) in
                  _skip_whitespace_and_comments fuel
                    {| rest := s'; line := ln'; tokens := tokens tk |}
                else Some tk
            | EmptyString => Some tk
            end
      end
  end.

Definition append (tk : t) (ty : TokenType) (v : string) (r : string) : t :=
  {| rest := r; line := line tk;
     tokens := tokens tk ++ [mkToken ty v (line tk)] |}.

(** Entered at an opening double quote. *)
Definition _read_string (tk : t) : t :=
  match rest tk with
  | String _ r =>
      let '(value, r') := span (fun x => negb (Ascii.eqb x dquote)) r in
      append tk STRING_CONST value
        (match r' with String _ r'' => r'' | EmptyString => EmptyString end)
  | EmptyString => tk
  end.

Definition _read_number (tk : t) : t :=
  let '(value, r) := span isdigit (rest tk) in
  append tk INT_CONST value r.

Definition _read_identifier (tk : t) : t :=
  let '(value, r) :=
    span (fun x => isalnum x || Ascii.eqb x "_") (rest tk) in
  if in_KEYWORDS value then append tk KEYWORD value r
  else append tk IDENTIFIER value r.

Fixpoint tokenize_loop (fuel : nat) (tk : t) : option t :=
  match fuel with
  | O => None
  | S fuel =>
      match rest tk with
      | EmptyString => Some tk
      | _ =>
          match _skip_whitespace_and_comments (S (String.length (rest tk))) tk with
          | None => None
          | Some tk =>
              match rest tk with
              | EmptyString => Some tk
              | String c r =>
                  if Ascii.eqb c dquote then tokenize_loop fuel (_read_string tk)
                  else if isdigit c then tokenize_loop fuel (_read_number tk)
                  else if isalpha c || Ascii.eqb c "_" then
                    tokenize_loop fuel (_read_identifier tk)
                  else if in_SYMBOLS c then
                    tokenize_loop fuel (append tk SYMBOL (String c EmptyString) r)
                  else
                    tokenize_loop fuel
                      {| rest := r; line := line tk; tokens := tokens tk |}
              end
          end
      end
  end.

Definition tokenize (code : string) : option (list Token) :=
  match tokenize_loop (S (String.length code)) (init code) with
  | Some tk => Some (tokens tk ++ [mkToken EOF "" (line tk)])
  | None => None
  end.

End Tokenizer.

(** ** Symbol table *)

Inductive SymbolKind := STATIC | FIELD | ARG | VAR.

#[global] Instance SymbolKind_eq_dec : EqDecision SymbolKind.
Proof. solve_decision. Defined.

Record Symbol := mkSymbol {
  sym_name : string;
  sym_type : string;
  sym_kind : SymbolKind;
  sym_index : N
}.

#[global] Instance Symbol_eq_dec : EqDecision Symbol.
Proof. solve_decision. Defined.

Module SymbolTable.

Record t := mk {
  class_symbols : gmap string Symbol;
  subroutine_symbols : gmap string Symbol;
  static_count : N;
  field_count : N;
  arg_count : N;
  var_count : N
}.

Definition init : t :=
  {| class_symbols := ∅; subroutine_symbols := ∅;
     static_count := 0; field_count := 0; arg_count := 0; var_count := 0 |}.

Definition start_subroutine (s : t) : t :=
  {| class_symbols := class_symbols s; subroutine_symbols := ∅;
     static_count := static_count s; field_count := field_count s;
     arg_count := 0; var_count := 0 |}.

(** Increments the counter of [kind] and returns its former value. *)
Definition _get_count (kind : SymbolKind) (s : t) : N * t :=
  match kind with
  | STATIC =>
      (static_count s,
       {| class_symbols := class_symbols s;
          subroutine_symbols := subroutine_symbols s;
          static_count := static_count s + 1; field_count := field_count s;
          arg_count := arg_count s; var_count := var_count s |})
  | FIELD =>
      (field_count s,
       {| class_symbols := class_symbols s;
          subroutine_symbols := subroutine_symbols s;
          static_count := static_count s; field_count := field_count s + 1;
          arg_count := arg_count s; var_count := var_count s |})
  | ARG =>
      (arg_count s,
       {| class_symbols := class_symbols s;
          subroutine_symbols := subroutine_symbols s;
          static_count := static_count s; field_count := field_count s;
          arg_count := arg_count s + 1; var_count := var_count s |})
  | VAR =>
      (var_count s,
       {| class_symbols := class_symbols s;
          subroutine_symbols := subroutine_symbols s;
          static_count := static_count s; field_count := field_count s;
          arg_count := arg_count s; var_count := var_count s + 1 |})
  end%N.

(** The assignment [d[name] = symbol] of a Python dict: it binds [name],
    whether or not it was bound before. *)
Definition define (name type : string) (kind : SymbolKind) (s : t) : t :=
  let '(idx, s) := _get_count kind s in
  let symbol := mkSymbol name type kind idx in
  match kind with
  | STATIC | FIELD =>
      {| class_symbols := <[name := symbol]> (class_symbols s);
         subroutine_symbols := subroutine_symbols s;
         static_count := static_count s; field_count := field_count s;
         arg_count := arg_count s; var_count := var_count s |}
  | ARG | VAR =>
      {| class_symbols := class_symbols s;
         subroutine_symbols := <[name := symbol]> (subroutine_symbols s);
         static_count := static_count s; field_count := field_count s;
         arg_count := arg_count s; var_count := var_count s |}
  end.

Definition lookup (name : string) (s : t) : option Symbol :=
  match subroutine_symbols s !! name with
  | Some sym => Some sym
  | None => class_symbols s !! name
  end.

(** [sum(1 for s in d.values() if s.kind == kind)]. *)
Definition count_kind (kind : SymbolKind) (d : gmap string Symbol) : N :=
  N.of_nat (List.length (filter (λ s : Symbol, sym_kind s = kind)
                           ((map_to_list d).*2))).

End SymbolTable.

(** ** Code generator *)

Module CodeGenerator.

Record t := mk {
  class_name : string;
  output : list string;
  label_counter : N
}.

Definition init (class_name : string) : t :=
  {| class_name := class_name; output := []; label_counter := 0 |}.

Definition write (cmd : string) (g : t) : t :=
  {| class_name := class_name g; output := output g ++ [cmd];
     label_counter := label_counter g |}.

Definition push_cmd (segment : string) (index : N) : string :=
  "push " +:+ segment +:+ " " +:+ pretty index.

Definition pop_cmd (segment : string) (index : N) : string :=
  "pop " +:+ segment +:+ " " +:+ pretty index.

(** [op_map.get(op, op)]. *)
Definition arithmetic_cmd (op : string) : string :=
  if String.eqb op "+" then "add"
  else if String.eqb op "-" then "sub"
  else if String.eqb op "*" then "call Math.multiply 2"
  else if String.eqb op "/" then "call Math.divide 2"
  else if String.eqb op "&" then "and"
  else if String.eqb op "|" then "or"
  else if String.eqb op "<" then "lt"
  else if String.eqb op ">" then "gt"
  else if String.eqb op "=" then "eq"
  else if String.eqb op "~" then "not"
  else if String.eqb op "-neg" then "neg"
  else op.

Definition call_cmd (name : string) (nargs : N) : string :=
  "call " +:+ name +:+ " " +:+ pretty nargs.

Definition function_cmd (name : string) (nlocals : N) : string :=
  "function " +:+ name +:+ " " +:+ pretty nlocals.

Definition label_cmd (label : string) : string := "label " +:+ label.
Definition goto_cmd (label : string) : string := "goto " +:+ label.
Definition if_cmd (label : string) : string := "if-goto " +:+ label.

Definition write_push (segment : string) (index : N) := write (push_cmd segment index).
Definition write_pop (segment : string) (index : N) := write (pop_cmd segment index).
Definition write_arithmetic (op : string) := write (arithmetic_cmd op).
Definition write_call (name : string) (nargs : N) := write (call_cmd name nargs).
Definition write_function (name : string) (nlocals : N) :=
  write (function_cmd name nlocals).
Definition write_return := write "return".
Definition write_label (label : string) := write (label_cmd label).
Definition write_goto (label : string) := write (goto_cmd label).
Definition write_if (label : string) := write (if_cmd label).

Definition make_label (prefix : string) (n : N) : string :=
  prefix +:+ "_" +:+ pretty n.

Definition get_unique_label (prefix : string) (g : t) : string * t :=
  (make_label prefix (label_counter g),
   {| class_name := class_name g; output := output g;
      label_counter := label_counter g + 1 |}).

(** ['\n'.join(self.output)]. *)
Definition get_code (g : t) : string :=
  String.concat (String Tokenizer.newline EmptyString) (output g).

End CodeGenerator.

(** ** Outcomes *)

Inductive exn :=
  SyntaxError | ValueError | AttributeError | IndexError | FileNotFoundError.

Inductive result (A : Type) :=
  | Ok (a : A)
  | Err (e : exn)
  | Timeout.

Arguments Ok {A} a.
Arguments Err {A} e.
Arguments Timeout {A}.

(** ** Parser and code generation *)

Module Parser.

Record t := mk {
  tokens : list Token;
  pos : Z;
  current_token : Token;
  symbol_table : SymbolTable.t;
  code_gen : option CodeGenerator.t;
  class_name : string;
  subroutine_name : string
}.

Definition init (tokens : list Token) : t :=
  {| tokens := tokens; pos := 0;
     current_token :=
       match tokens with tok :: _ => tok | [] => mkToken EOF "" 0 end;
     symbol_table := SymbolTable.init; code_gen := None;
     class_name := ""; subroutine_name := "" |}.

Definition set_cursor (p : Z) (tok : Token) (st : t) : t :=
  {| tokens := tokens st; pos := p; current_token := tok;
     symbol_table := symbol_table st; code_gen := code_gen st;
     class_name := class_name st; subroutine_name := subroutine_name st |}.

Definition set_tokens (l : list Token) (st : t) : t :=
  {| tokens := l; pos := pos st; current_token := current_token st;
     symbol_table := symbol_table st; code_gen := code_gen st;
     class_name := class_name st; subroutine_name := subroutine_name st |}.

Definition set_symbol_table (s : SymbolTable.t) (st : t) : t :=
  {| tokens := tokens st; pos := pos st; current_token := current_token st;
     symbol_table := s; code_gen := code_gen st;
     class_name := class_name st; subroutine_name := subroutine_name st |}.

Definition set_code_gen (g : option CodeGenerator.t) (st : t) : t :=
  {| tokens := tokens st; pos := pos st; current_token := current_token st;
     symbol_table := symbol_table st; code_gen := g;
     class_name := class_name st; subroutine_name := subroutine_name st |}.

Definition set_class_name (n : string) (st : t) : t :=
  {| tokens := tokens st; pos := pos st; current_token := current_token st;
     symbol_table := symbol_table st; code_gen := code_gen st;
     class_name := n; subroutine_name := subroutine_name st |}.

Definition set_subroutine_name (n : string) (st : t) : t :=
  {| tokens := tokens st; pos := pos st; current_token := current_token st;
     symbol_table := symbol_table st; code_gen := code_gen st;
     class_name := class_name st; subroutine_name := n |}.

(** The methods of the parser are computations over its state that may
    raise or run out of fuel. *)
Definition M (A : Type) : Type := t -> result (A * t).

Definition ret {A} (a : A) : M A := fun st => Ok (a, st).

Definition bind {A B} (m : M A) (k : A -> M B) : M B :=
  fun st =>
    match m st with
    | Ok (a, st') => k a st'
    | Err e => Err e
    | Timeout => Timeout
    end.

Definition raise {A} (e : exn) : M A := fun _ => Err e.
Definition timeout {A} : M A := fun _ => Timeout.
Definition gets {A} (f : t -> A) : M A := fun st => Ok (f st, st).
Definition modify (f : t -> t) : M unit := fun st => Ok (tt, f st).

Declare Scope jack_scope.
Delimit Scope jack_scope with jack.
Notation "x <- y ;; z" := (bind y (fun x => z))
  (at level 20, y at level 99, z at level 200, only parsing) : jack_scope.
Notation "y ;; z" := (bind y (fun _ => z))
  (at level 100, z at level 200, only parsing, right associativity) : jack_scope.
Local Open Scope jack_scope.

(** [l[i]] of a Python list: a negative index counts from the end. *)
Definition py_norm (len : nat) (i : Z) : option nat :=
  if (0 <=? i)%Z then
    if (i <? Z.of_nat len)%Z then Some (Z.to_nat i) else None
  else
    if (- Z.of_nat len <=? i)%Z then Some (Z.to_nat (Z.of_nat len + i)) else None.

Definition py_index {A} (l : list A) (i : Z) : option A :=
  match py_norm (List.length l) i with
  | Some n => l !! n
  | None => None
  end.

Definition advance : M unit := fun st =>
  if (pos st <? Z.of_nat (List.length (tokens st)) - 1)%Z then
    match py_index (tokens st) (pos st + 1) with
    | Some tok => Ok (tt, set_cursor (pos st + 1) tok st)
    | None => Err IndexError
    end
  else Ok (tt, st).

Definition peek (st : t) : Token :=
  if (pos st + 1 <? Z.of_nat (List.length (tokens st)))%Z then
    default (mkToken EOF "" 0) (py_index (tokens st) (pos st + 1))
  else mkToken EOF "" 0.

Definition truthy (s : string) : bool := negb (String.eqb s "").

(** [expect] takes a variable number of arguments: those that are a
    [TokenType] are [types], and the string argument, when there is one,
    is [value]. *)
Definition expect (types : list TokenType) (value : option string) : M Token :=
  fun st =>
    match types with
    | [] => Err ValueError
    | _ =>
        if negb (bool_decide (tok_type (current_token st) ∈ types)) then
          Err SyntaxError
        else
          match value with
          | Some v =>
              if truthy v && negb (String.eqb (tok_value (current_token st)) v)
              then Err SyntaxError
              else (advance ;; ret (current_token st)) st
          | None => (advance ;; ret (current_token st)) st
          end
    end.

Definition match_ (values : list string) : M bool :=
  gets (fun st => existsb (String.eqb (tok_value (current_token st))) values).

Definition current_value : M string :=
  gets (fun st => tok_value (current_token st)).

Definition current_type : M TokenType :=
  gets (fun st => tok_type (current_token st)).

(** A call [self.code_gen.f(...)]: an [AttributeError] while [code_gen] is
    [None]. *)
Definition emit (f : CodeGenerator.t -> CodeGenerator.t) : M unit := fun st =>
  match code_gen st with
  | Some g => Ok (tt, set_code_gen (Some (f g)) st)
  | None => Err AttributeError
  end.

Definition get_unique_label (prefix : string) : M string := fun st =>
  match code_gen st with
  | Some g =>
      let '(label, g') := CodeGenerator.get_unique_label prefix g in
      Ok (label, set_code_gen (Some g') st)
  | None => Err AttributeError
  end.

Definition define (name type : string) (kind : SymbolKind) : M unit :=
  modify (fun st =>
    set_symbol_table (SymbolTable.define name type kind (symbol_table st)) st).

Definition lookup (name : string) : M (option Symbol) :=
  gets (fun st => SymbolTable.lookup name (symbol_table st)).

Definition _segment_for (kind : SymbolKind) : string :=
  match kind with
  | FIELD => "this"
  | STATIC => "static"
  | ARG => "argument"
  | VAR => "local"
  end.

(** [write_push(self._segment_for(symbol.kind), symbol.index)], where
    [symbol] is the result of a lookup: an [AttributeError] on [None]. *)
Definition push_symbol (symbol : option Symbol) : M unit :=
  match symbol with
  | Some sym =>
      emit (CodeGenerator.write_push (_segment_for (sym_kind sym)) (sym_index sym))
  | None => raise AttributeError
  end.

Definition pop_symbol (symbol : option Symbol) : M unit :=
  match symbol with
  | Some sym =>
      emit (CodeGenerator.write_pop (_segment_for (sym_kind sym)) (sym_index sym))
  | None => raise AttributeError
  end.

(** The attribute access [self.code_gen.f], which is evaluated before
    the arguments of the call. *)
Definition code_gen_method : M unit := fun st =>
  match code_gen st with
  | Some _ => Ok (tt, st)
  | None => Err AttributeError
  end.

(** [int(s)] on a non-empty run of ASCII decimal digits, the lexemes that
    [Tokenizer._read_number] produces on ASCII text.  Outside these the
    model is not that of Python: [int] also reads a sign, blanks around the
    number, underscores between digits and decimal digits outside ASCII,
    where the model has a [ValueError], and it raises a [ValueError] on more
    than [max_str_digits] digits, where the model has the value.  A
    statement on the result of [int] is about digit runs within the limit. *)
Definition max_str_digits : nat := 4300.

Fixpoint int_digits (s : string) (acc : N) : option N :=
  match s with
  | EmptyString => Some acc
  | String c r =>
      if Tokenizer.isdigit c
      then int_digits r (10 * acc + (Tokenizer.ord c - 48))%N
      else None
  end.

Definition int (s : string) : option N :=
  match s with
  | EmptyString => None
  | _ => int_digits s 0
  end.

(** [for char in string_val: push constant ord(char); call String.appendChar 2]. *)
Fixpoint write_chars (s : string) : M unit :=
  match s with
  | EmptyString => ret tt
  | String c r =>
      emit (CodeGenerator.write_push "constant" (Tokenizer.ord c)) ;;
      emit (CodeGenerator.write_call "String.appendChar" 2) ;;
      write_chars r
  end.

(** The three assignments of [compile_term] that step back onto the
    identifier: the token object at the new position is updated in place,
    in the list as well as in [current_token]. *)
Definition step_back (ident : string) : M unit := fun st =>
  let p := (pos st - 1)%Z in
  match py_norm (List.length (tokens st)) p with
  | Some i =>
      match tokens st !! i with
      | Some tok =>
          let tok' := mkToken IDENTIFIER ident (tok_line tok) in
          Ok (tt, set_cursor p tok' (set_tokens (<[i := tok']> (tokens st)) st))
      | None => Err IndexError
      end
  | None => Err IndexError
  end.

Definition binary_ops : list string :=
  ["+"; "-"; "*"; "/"; "&"; "|"; "<"; ">"; "="].

Fixpoint compile_expression (fuel : nat) : M unit :=
  match fuel with
  | O => timeout
  | S fuel =>
      compile_term fuel ;;
      compile_expression_loop fuel
  end

with compile_expression_loop (fuel : nat) : M unit :=
  match fuel with
  | O => timeout
  | S fuel =>
      b <- match_ binary_ops ;;
      if b : bool then
        op <- current_value ;;
        advance ;;
        compile_term fuel ;;
        emit (CodeGenerator.write_arithmetic op) ;;
        compile_expression_loop fuel
      else ret tt
  end

with compile_term (fuel : nat) : M unit :=
  match fuel with
  | O => timeout
  | S fuel =>
      ty <- current_type ;;
      if decide (ty = INT_CONST) then
        v <- current_value ;;
        code_gen_method ;;
        match int v with
        | Some n =>
            emit (CodeGenerator.write_push "constant" n) ;;
            advance
        | None => raise ValueError
        end
      else if decide (ty = STRING_CONST) then
        string_val <- current_value ;;
        emit (CodeGenerator.write_push "constant"
                (N.of_nat (String.length string_val))) ;;
        emit (CodeGenerator.write_call "String.new" 1) ;;
        write_chars string_val ;;
        advance
      else
        b <- match_ ["true"; "false"; "null"; "this"] ;;
        if b : bool then
          keyword <- current_value ;;
          (if String.eqb keyword "true" then
             emit (CodeGenerator.write_push "constant" 1) ;;
             emit (CodeGenerator.write_arithmetic "~")
           else if existsb (String.eqb keyword) ["false"; "null"] then
             emit (CodeGenerator.write_push "constant" 0)
           else if String.eqb keyword "this" then
             emit (CodeGenerator.write_push "pointer" 0)
           else ret tt) ;;
          advance
        else
          b <- match_ ["-"; "~"] ;;
          if b : bool then
            op <- current_value ;;
            advance ;;
            compile_term fuel ;;
            emit (CodeGenerator.write_arithmetic
                    (if String.eqb op "-" then "-neg" else "~"))
          else if decide (ty = IDENTIFIER) then
            ident <- current_value ;;
            advance ;;
            b <- match_ ["["] ;;
            if b : bool then
              symbol <- lookup ident ;;
              advance ;;
              compile_expression fuel ;;
              expect [SYMBOL] (Some "]") ;;
              push_symbol symbol ;;
              emit (CodeGenerator.write_arithmetic "+") ;;
              emit (CodeGenerator.write_pop "pointer" 1) ;;
              emit (CodeGenerator.write_push "that" 0)
            else
              b <- match_ ["("; "."] ;;
              if b : bool then
                step_back ident ;;
                compile_subroutine_call fuel
              else
                symbol <- lookup ident ;;
                push_symbol symbol
          else
            b <- match_ ["("] ;;
            if b : bool then
              advance ;;
              compile_expression fuel ;;
              expect [SYMBOL] (Some ")") ;;
              ret tt
            else ret tt
  end

with compile_subroutine_call (fuel : nat) : M unit :=
  match fuel with
  | O => timeout
  | S fuel =>
      tok <- expect [IDENTIFIER] None ;;
      let name := tok_value tok in
      b <- match_ ["."] ;;
      callee <-
        (if b : bool then
           advance ;;
           mtok <- expect [IDENTIFIER] None ;;
           let method := tok_value mtok in
           symbol <- lookup name ;;
           match symbol with
           | Some sym =>
               emit (CodeGenerator.write_push (_segment_for (sym_kind sym))
                       (sym_index sym)) ;;
               ret (sym_type sym +:+ "." +:+ method, 1%N)
           | None => ret (name +:+ "." +:+ method, 0%N)
           end
         else
           emit (CodeGenerator.write_push "pointer" 0) ;;
           cn <- gets class_name ;;
           ret (cn +:+ "." +:+ name, 1%N)) ;;
      expect [SYMBOL] (Some "(") ;;
      n <- compile_expression_list fuel ;;
      expect [SYMBOL] (Some ")") ;;
      emit (CodeGenerator.write_call (fst callee) (snd callee + n))
  end

with compile_expression_list (fuel : nat) : M N :=
  match fuel with
  | O => timeout
  | S fuel =>
      b <- match_ [")"] ;;
      if b : bool then ret 0%N
      else
        compile_expression fuel ;;
        compile_expression_list_loop fuel 1
  end

with compile_expression_list_loop (fuel : nat) (count : N) : M N :=
  match fuel with
  | O => timeout
  | S fuel =>
      b <- match_ [","] ;;
      if b : bool then
        advance ;;
        compile_expression fuel ;;
        compile_expression_list_loop fuel (count + 1)
      else ret count
  end.

Definition compile_let (fuel : nat) : M unit :=
  expect [KEYWORD] (Some "let") ;;
  tok <- expect [IDENTIFIER] None ;;
  let var_name := tok_value tok in
  symbol <- lookup var_name ;;
  b <- match_ ["["] ;;
  if b : bool then
    advance ;;
    compile_expression fuel ;;
    expect [SYMBOL] (Some "]") ;;
    push_symbol symbol ;;
    emit (CodeGenerator.write_arithmetic "+") ;;
    expect [SYMBOL] (Some "=") ;;
    compile_expression fuel ;;
    expect [SYMBOL] (Some ";") ;;
    emit (CodeGenerator.write_pop "temp" 0) ;;
    emit (CodeGenerator.write_pop "pointer" 1) ;;
    emit (CodeGenerator.write_push "temp" 0) ;;
    emit (CodeGenerator.write_pop "that" 0)
  else
    expect [SYMBOL] (Some "=") ;;
    compile_expression fuel ;;
    expect [SYMBOL] (Some ";") ;;
    pop_symbol symbol.

Definition compile_do (fuel : nat) : M unit :=
  expect [KEYWORD] (Some "do") ;;
  compile_subroutine_call fuel ;;
  emit (CodeGenerator.write_pop "temp" 0) ;;
  expect [SYMBOL] (Some ";") ;;
  ret tt.

Definition compile_return (fuel : nat) : M unit :=
  expect [KEYWORD] (Some "return") ;;
  b <- match_ [";"] ;;
  (if negb b then compile_expression fuel
   else emit (CodeGenerator.write_push "constant" 0)) ;;
  expect [SYMBOL] (Some ";") ;;
  emit CodeGenerator.write_return.

Fixpoint compile_statements (fuel : nat) : M unit :=
  match fuel with
  | O => timeout
  | S fuel =>
      b <- match_ ["let"; "if"; "while"; "do"; "return"] ;;
      if b : bool then
        v <- current_value ;;
        (if String.eqb v "let" then compile_let fuel
         else if String.eqb v "if" then compile_if fuel
         else if String.eqb v "while" then compile_while fuel
         else if String.eqb v "do" then compile_do fuel
         else if String.eqb v "return" then compile_return fuel
         else ret tt) ;;
        compile_statements fuel
      else ret tt
  end

with compile_if (fuel : nat) : M unit :=
  match fuel with
  | O => timeout
  | S fuel =>
      expect [KEYWORD] (Some "if") ;;
      expect [SYMBOL] (Some "(") ;;
      compile_expression fuel ;;
      expect [SYMBOL] (Some ")") ;;
      label_false <- get_unique_label "IF_FALSE" ;;
      label_end <- get_unique_label "IF_END" ;;
      emit (CodeGenerator.write_arithmetic "~") ;;
      emit (CodeGenerator.write_if label_false) ;;
      expect [SYMBOL] (Some "{") ;;
      compile_statements fuel ;;
      expect [SYMBOL] (Some "}") ;;
      emit (CodeGenerator.write_goto label_end) ;;
      emit (CodeGenerator.write_label label_false) ;;
      b <- match_ ["else"] ;;
      (if b : bool then
         advance ;;
         expect [SYMBOL] (Some "{") ;;
         compile_statements fuel ;;
         expect [SYMBOL] (Some "}") ;;
         ret tt
       else ret tt) ;;
      emit (CodeGenerator.write_label label_end)
  end

with compile_while (fuel : nat) : M unit :=
  match fuel with
  | O => timeout
  | S fuel =>
      expect [KEYWORD] (Some "while") ;;
      expect [SYMBOL] (Some "(") ;;
      label_loop <- get_unique_label "WHILE_LOOP" ;;
      label_end <- get_unique_label "WHILE_END" ;;
      emit (CodeGenerator.write_label label_loop) ;;
      compile_expression fuel ;;
      expect [SYMBOL] (Some ")") ;;
      emit (CodeGenerator.write_arithmetic "~") ;;
      emit (CodeGenerator.write_if label_end) ;;
      expect [SYMBOL] (Some "{") ;;
      compile_statements fuel ;;
      expect [SYMBOL] (Some "}") ;;
      emit (CodeGenerator.write_goto label_loop) ;;
      emit (CodeGenerator.write_label label_end)
  end.

(** The loop [while True: ...] of [compile_class_var_dec] and of
    [compile_var_dec], which differ in the kind they define only. *)
Fixpoint define_names_loop (fuel : nat) (var_type : string) (kind : SymbolKind)
  : M unit :=
  match fuel with
  | O => timeout
  | S fuel =>
      tok <- expect [IDENTIFIER] None ;;
      define (tok_value tok) var_type kind ;;
      b <- match_ [","] ;;
      if negb b then ret tt
      else advance ;; define_names_loop fuel var_type kind
  end.

Definition compile_class_var_dec (fuel : nat) : M unit :=
  b <- match_ ["static"] ;;
  let kind := if b : bool then STATIC else FIELD in
  advance ;;
  var_type <- current_value ;;
  advance ;;
  define_names_loop fuel var_type kind ;;
  expect [SYMBOL] (Some ";") ;;
  ret tt.

Fixpoint parameter_loop (fuel : nat) : M unit :=
  match fuel with
  | O => timeout
  | S fuel =>
      param_type <- current_value ;;
      advance ;;
      tok <- expect [IDENTIFIER] None ;;
      define (tok_value tok) param_type ARG ;;
      b <- match_ [","] ;;
      if negb b then ret tt
      else advance ;; parameter_loop fuel
  end.

Definition compile_parameter_list (fuel : nat) : M unit :=
  b <- match_ [")"] ;;
  if negb b then parameter_loop fuel else ret tt.

Definition compile_var_dec (fuel : nat) : M unit :=
  expect [KEYWORD] (Some "var") ;;
  var_type <- current_value ;;
  advance ;;
  define_names_loop fuel var_type VAR ;;
  expect [SYMBOL] (Some ";") ;;
  ret tt.

(** [while self.match('var'): self.compile_var_dec()]. *)
Fixpoint var_decs (fuel : nat) : M unit :=
  match fuel with
  | O => timeout
  | S fuel =>
      b <- match_ ["var"] ;;
      if b : bool then compile_var_dec fuel ;; var_decs fuel
      else ret tt
  end.

(** The part of [compile_subroutine_dec] up to the call of
    [start_subroutine]; it returns the local [subroutine_type]. *)
Definition subroutine_header : M string :=
  subroutine_type <- current_value ;;
  advance ;;
  return_type <- current_value ;;
  advance ;;
  tok <- expect [IDENTIFIER] None ;;
  modify (set_subroutine_name (tok_value tok)) ;;
  expect [SYMBOL] (Some "(") ;;
  ret subroutine_type.

(** [start_subroutine] and, in a method, the definition of [this]. *)
Definition enter_subroutine (subroutine_type : string) : M unit :=
  modify (fun st =>
    set_symbol_table (SymbolTable.start_subroutine (symbol_table st)) st) ;;
  if String.eqb subroutine_type "method" then
    cn <- gets class_name ;;
    define "this" cn ARG
  else ret tt.

(** The parameters and the [var] declarations. *)
Definition subroutine_decls (fuel : nat) : M unit :=
  compile_parameter_list fuel ;;
  expect [SYMBOL] (Some ")") ;;
  expect [SYMBOL] (Some "{") ;;
  var_decs fuel.

(** The [function] line and the prologue of the subroutine.  Line 325 of
    the source assigns 0 to [nlocals] ([hasattr] of an [int] is false) and
    the next statement overwrites it. *)
Definition subroutine_entry (subroutine_type : string) : M unit :=
  cn <- gets class_name ;;
  sn <- gets subroutine_name ;;
  let func_name := cn +:+ "." +:+ sn in
  nlocals <- gets (fun st =>
    SymbolTable.count_kind VAR (SymbolTable.subroutine_symbols (symbol_table st))) ;;
  emit (CodeGenerator.write_function func_name nlocals) ;;
  if String.eqb subroutine_type "method" then
    emit (CodeGenerator.write_push "argument" 0) ;;
    emit (CodeGenerator.write_pop "pointer" 0)
  else if String.eqb subroutine_type "constructor" then
    nfields <- gets (fun st =>
      SymbolTable.count_kind FIELD (SymbolTable.class_symbols (symbol_table st))) ;;
    emit (CodeGenerator.write_push "constant" nfields) ;;
    emit (CodeGenerator.write_call "Memory.alloc" 1) ;;
    emit (CodeGenerator.write_pop "pointer" 0)
  else ret tt.

Definition compile_subroutine_dec (fuel : nat) : M unit :=
  subroutine_type <- subroutine_header ;;
  enter_subroutine subroutine_type ;;
  subroutine_decls fuel ;;
  subroutine_entry subroutine_type ;;
  compile_statements fuel ;;
  expect [SYMBOL] (Some "}") ;;
  ret tt.

(** [while self.match('static', 'field'): self.compile_class_var_dec()]. *)
Fixpoint class_var_decs (fuel : nat) : M unit :=
  match fuel with
  | O => timeout
  | S fuel =>
      b <- match_ ["static"; "field"] ;;
      if b : bool then compile_class_var_dec fuel ;; class_var_decs fuel
      else ret tt
  end.

(** [while self.match('constructor', 'function', 'method'):
    self.compile_subroutine_dec()]. *)
Fixpoint subroutine_decs (fuel : nat) : M unit :=
  match fuel with
  | O => timeout
  | S fuel =>
      b <- match_ ["constructor"; "function"; "method"] ;;
      if b : bool then compile_subroutine_dec fuel ;; subroutine_decs fuel
      else ret tt
  end.

Definition compile_class (fuel : nat) : M unit :=
  expect [KEYWORD] (Some "class") ;;
  tok <- expect [IDENTIFIER] None ;;
  modify (set_class_name (tok_value tok)) ;;
  expect [SYMBOL] (Some "{") ;;
  cn <- gets class_name ;;
  modify (set_code_gen (Some (CodeGenerator.init cn))) ;;
  class_var_decs fuel ;;
  subroutine_decs fuel ;;
  expect [SYMBOL] (Some "}") ;;
  ret tt.

Definition parse (fuel : nat) : M string :=
  compile_class fuel ;;
  g <- gets code_gen ;;
  match g with
  | Some g => ret (CodeGenerator.get_code g)
  | None => raise AttributeError
  end.

End Parser.

(** ** The driver *)

(** The files, by path, and the lines printed on the standard output. *)
Record World := mkWorld {
  files : gmap string string;
  stdout : list string
}.

(** [compile_file(input_file, output_file)]: the output file is opened
    and written after [parser.parse()] has returned. *)
Definition compile_file (fuel : nat) (input_file output_file : string)
    (w : World) : World * result unit :=
  match files w !! input_file with
  | None => (w, Err FileNotFoundError)
  | Some code =>
      match Tokenizer.tokenize code with
      | None => (w, Timeout)
      | Some tokens =>
          match Parser.parse fuel (Parser.init tokens) with
          | Ok (vm_code, _) =>
              ({| files := <[output_file := vm_code]> (files w);
                  stdout := stdout w ++
                    ["Compiled " +:+ input_file +:+ " -> " +:+ output_file] |},
               Ok tt)
          | Err e => (w, Err e)
          | Timeout => (w, Timeout)
          end
      end
  end.

(** The compiler on a source text: tokenizer, then parser. *)
Definition compile (fuel : nat) (code : string) : result (list string) :=
  match Tokenizer.tokenize code with
  | None => Timeout
  | Some tokens =>
      match Parser.compile_class fuel (Parser.init tokens) with
      | Ok (_, st) =>
          match Parser.code_gen st with
          | Some g => Ok (CodeGenerator.output g)
          | None => Err AttributeError
          end
      | Err e => Err e
      | Timeout => Timeout
      end
  end.

(** * Properties *)

(** ** The tokenizer terminates and raises nothing *)

Module TokenizerFacts.
Import Tokenizer.

Fixpoint all (p : ascii -> bool) (s : string) : bool :=
  match s with
  | EmptyString => true
  | String c r => p c && all p r
  end.

(** The first character of [s], if there is one, satisfies [p]. *)
Definition head_is (p : ascii -> bool) (s : string) : bool :=
  match s with
  | EmptyString => false
  | String c _ => p c
  end.


Lemma span_length p s : String.length (span p s).2 <= String.length s.
Proof.
  induction s as [|c r IH]; cbn; [lia|].
  destruct (p c); [|cbn; lia]. destruct (span p r) as [a b]. cbn in *. lia.
Qed.

Lemma span_head_length p c r :
  p c = true -> String.length (span p (String c r)).2 <= String.length r.
Proof.
  intros H. cbn. rewrite H. pose proof (span_length p r) as Hl.
  destruct (span p r) as [a b]. exact Hl.
Qed.

Lemma span_all p ds r :
  all p ds = true -> head_is p r = false -> span p (ds +:+ r) = (ds, r).
Proof.
  intros Hds Hr. induction ds as [|c ds IH].
  - change (EmptyString +:+ r) with r.
    destruct r as [|c r]; [reflexivity|]. cbn in Hr. cbn. by rewrite Hr.
  - change (String c ds +:+ r) with (String c (ds +:+ r)).
    cbn in Hds. apply andb_true_iff in Hds as [Hc Hds].
    cbn [span]. by rewrite Hc, IH.
Qed.

Lemma skip_block_comment_eq c1 c2 r ln :
  skip_block_comment (String c1 (String c2 r)) ln =
  if Ascii.eqb c1 "*" && Ascii.eqb c2 "/" then (r, ln)
  else skip_block_comment (String c2 r)
         (if Ascii.eqb c1 newline then ln + 1 else ln)%N.
Proof. reflexivity. Qed.

Lemma skip_block_comment_length s ln :
  String.length (skip_block_comment s ln).1 <= String.length s.
Proof.
  revert ln. induction s as [|c1 s IH]; intros ln; [cbn; lia|].
  destruct s as [|c2 r]; [cbn; lia|].
  rewrite skip_block_comment_eq. destruct (_ && _); [cbn; lia|].
  specialize (IH (if Ascii.eqb c1 newline then ln + 1 else ln)%N).
  cbn [String.length] in *. lia.
Qed.

Lemma skip_total fuel tk :
  String.length (rest tk) < fuel ->
  exists tk', _skip_whitespace_and_comments fuel tk = Some tk' /\
              String.length (rest tk') <= String.length (rest tk) /\
              tokens tk' = tokens tk.
Proof.
  revert tk. induction fuel as [|fuel IH]; intros tk Hlen; [lia|].
  cbn [_skip_whitespace_and_comments].
  destruct (rest tk) as [|c r] eqn:Hrest; [exists tk; by rewrite Hrest|].
  cbn [String.length] in Hlen.
  destruct (isspace c).
  { edestruct IH as (tk' & -> & Hl & Ht); [|exists tk'; split; [done|]].
    - cbn. lia.
    - cbn in *. split; [lia | done]. }
  destruct r as [|c2 r2]; [exists tk; by rewrite Hrest|].
  destruct (Ascii.eqb c "/" && Ascii.eqb c2 "/") eqn:Hline.
  { apply andb_true_iff in Hline as [Hc _]. apply Ascii.eqb_eq in Hc as ->.
    pose proof (span_head_length (fun x => negb (Ascii.eqb x newline)) "/"
                  (String c2 r2) eq_refl) as Hs.
    edestruct IH as (tk' & -> & Hl & Ht); [|exists tk'; split; [done|]].
    - cbn [rest]. cbn [String.length] in *. lia.
    - cbn [rest tokens] in *. cbn [String.length] in *. split; [lia | done]. }
  destruct (Ascii.eqb c "/" && Ascii.eqb c2 "*").
  { pose proof (skip_block_comment_length r2 (line tk)) as Hs.
    destruct (skip_block_comment r2 (line tk)) as [s' ln'].
    edestruct IH as (tk' & -> & Hl & Ht); [|exists tk'; split; [done|]].
    - cbn in *. lia.
    - cbn in *. split; [lia | done]. }
  exists tk. by rewrite Hrest.
Qed.

Lemma tokenize_loop_total fuel tk :
  String.length (rest tk) < fuel ->
  exists tk' l, tokenize_loop fuel tk = Some tk' /\ tokens tk' = tokens tk ++ l.
Proof.
  revert tk. induction fuel as [|fuel IH]; intros tk Hlen; [lia|].
  cbn [tokenize_loop].
  destruct (rest tk) as [|c0 r0] eqn:Hrest.
  { exists tk, []. by rewrite app_nil_r. }
  rewrite <- Hrest in *.
  destruct (skip_total (S (String.length (rest tk))) tk) as (tk1 & -> & Hl & Ht);
    [lia|].
  destruct (rest tk1) as [|c r] eqn:Hrest1.
  { exists tk1, []. by rewrite app_nil_r, Ht. }
  cbn [String.length] in Hl.
  assert (Hstep : forall tk2 l2,
    String.length (rest tk2) <= String.length r ->
    tokens tk2 = tokens tk1 ++ l2 ->
    exists tk' l, tokenize_loop fuel tk2 = Some tk' /\ tokens tk' = tokens tk ++ l).
  { intros tk2 l2 H2 Ht2. destruct (IH tk2) as (tk' & l & -> & Ht'); [lia|].
    exists tk', (l2 ++ l). split; [done|]. by rewrite Ht', Ht2, Ht, app_assoc. }
  destruct (Ascii.eqb c dquote).
  { unfold _read_string. rewrite Hrest1.
    pose proof (span_length (fun x => negb (Ascii.eqb x dquote)) r) as Hs.
    destruct (span _ r) as [value r'].
    eapply Hstep; [|reflexivity]. cbn in *. destruct r'; cbn in *; lia. }
  destruct (isdigit c) eqn:Hd.
  { unfold _read_number. rewrite Hrest1.
    pose proof (span_head_length isdigit c r Hd) as Hs.
    destruct (span _ _) as [value r']. eapply Hstep; [|reflexivity]. exact Hs. }
  destruct (isalpha c || Ascii.eqb c "_") eqn:Ha.
  { unfold _read_identifier. rewrite Hrest1.
    assert (Hp : (fun x => isalnum x || Ascii.eqb x "_") c = true).
    { cbn. unfold isalnum. apply orb_true_iff in Ha as [->| ->]; [done|].
      by rewrite orb_true_r. }
    pose proof (span_head_length _ c r Hp) as Hs.
    destruct (span _ _) as [value r'].
    destruct (in_KEYWORDS value); (eapply Hstep; [|reflexivity]); exact Hs. }
  destruct (in_SYMBOLS c).
  { eapply Hstep; [|reflexivity]. cbn. lia. }
  eapply (Hstep _ []); [cbn; lia | cbn; by rewrite app_nil_r].
Qed.

Lemma tokenize_total code : exists toks, Tokenizer.tokenize code = Some toks.
Proof.
  unfold Tokenizer.tokenize.
  destruct (tokenize_loop_total (S (String.length code)) (init code))
    as (tk & l & -> & _); [cbn; lia|]. eauto.
Qed.

(** The iteration of the scanner at a character that opens neither white
    space nor a comment: nothing is skipped. *)
Lemma skip_nothing fuel tk c r :
  rest tk = String c r -> isspace c = false -> c <> "/"%char ->
  _skip_whitespace_and_comments (S fuel) tk = Some tk.
Proof.
  intros Hrest Hs Hc. cbn [_skip_whitespace_and_comments]. rewrite Hrest, Hs.
  destruct r as [|c2 r2]; [done|].
  apply Ascii.eqb_neq in Hc. by rewrite Hc.
Qed.

End TokenizerFacts.

(** ** The parser monad *)

Module ParserFacts.
Import Parser.
Local Open Scope jack_scope.

(** The emitted lines and the label counter of a parser state. *)
Definition out (st : t) : list string :=
  match code_gen st with
  | Some g => CodeGenerator.output g
  | None => []
  end.

Definition ctr (st : t) : N :=
  match code_gen st with
  | Some g => CodeGenerator.label_counter g
  | None => 0
  end.

Lemma bind_Ok {A B} (m : M A) (k : A -> M B) st b st2 :
  bind m k st = Ok (b, st2) ->
  exists a st1, m st = Ok (a, st1) /\ k a st1 = Ok (b, st2).
Proof.
  unfold bind. destruct (m st) as [[a st1]| |]; try discriminate.
  intros H. eauto.
Qed.

Lemma bind_Ok_intro {A B} (m : M A) (k : A -> M B) st a st1 r :
  m st = Ok (a, st1) -> k a st1 = r -> bind m k st = r.
Proof. unfold bind. intros -> H. exact H. Qed.

Lemma ret_Ok {A} (a b : A) st st' : ret a st = Ok (b, st') -> b = a /\ st' = st.
Proof. unfold ret. intros H. injection H as -> ->. auto. Qed.

Lemma gets_Ok {A} (f : t -> A) a st st' :
  gets f st = Ok (a, st') -> a = f st /\ st' = st.
Proof. unfold gets. intros H. injection H as <- <-. auto. Qed.

(** What a computation leaves of the code generator: [quiet] computations
    touch neither the code generator nor the class name. *)
Definition quiet {A} (m : M A) : Prop :=
  forall st a st', m st = Ok (a, st') ->
    code_gen st' = code_gen st /\ class_name st' = class_name st.

Lemma quiet_ret {A} (a : A) : quiet (ret a).
Proof. intros st b st' H. apply ret_Ok in H as [_ ->]. auto. Qed.

Lemma quiet_gets {A} (f : t -> A) : quiet (gets f).
Proof. intros st b st' H. apply gets_Ok in H as [_ ->]. auto. Qed.

Lemma quiet_raise {A} e : quiet (@raise A e).
Proof. intros st b st' H. discriminate. Qed.

Lemma quiet_timeout {A} : quiet (@timeout A).
Proof. intros st b st' H. discriminate. Qed.

Lemma quiet_bind {A B} (m : M A) (k : A -> M B) :
  quiet m -> (forall a, quiet (k a)) -> quiet (bind m k).
Proof.
  intros Hm Hk st b st2 H. apply bind_Ok in H as (a & st1 & H1 & H2).
  apply Hm in H1 as [H1 H1']. apply Hk in H2 as [H2 H2']. split; congruence.
Qed.

Lemma quiet_advance : quiet advance.
Proof.
  intros st [] st'. unfold advance.
  destruct (_ <? _)%Z; [destruct (py_index _ _)|]; intros H; try discriminate;
    injection H as <-; auto.
Qed.

Lemma quiet_expect types value : quiet (expect types value).
Proof.
  intros st tok st'. unfold expect.
  destruct types as [|ty types]; [discriminate|].
  destruct (negb _); [discriminate|].
  assert (Hq : quiet (advance ;; ret (current_token st))).
  { apply quiet_bind; [apply quiet_advance | intros; apply quiet_ret]. }
  destruct value as [v|]; [destruct (_ && _); [discriminate|] |]; apply Hq.
Qed.

Lemma quiet_match_ values : quiet (match_ values).
Proof. apply quiet_gets. Qed.

Lemma quiet_current_value : quiet current_value.
Proof. apply quiet_gets. Qed.

Lemma quiet_current_type : quiet current_type.
Proof. apply quiet_gets. Qed.

Lemma quiet_lookup name : quiet (lookup name).
Proof. apply quiet_gets. Qed.

Lemma quiet_define name type kind : quiet (define name type kind).
Proof. intros st [] st' H. injection H as <-. auto. Qed.

Lemma quiet_code_gen_method : quiet code_gen_method.
Proof.
  intros st [] st'. unfold code_gen_method.
  destruct (code_gen st) eqn:E; [|discriminate]. intros H. by injection H as <-.
Qed.

Lemma quiet_step_back ident : quiet (step_back ident).
Proof.
  intros st [] st'. unfold step_back.
  destruct (py_norm _ _); [|discriminate].
  destruct (_ !! _); [|discriminate]. intros H. injection H as <-. auto.
Qed.

Lemma quiet_out {A} (m : M A) st a st' :
  quiet m -> m st = Ok (a, st') ->
  out st' = out st /\ ctr st' = ctr st /\ class_name st' = class_name st.
Proof. intros Hq H. apply Hq in H as [Hg Hc]. unfold out, ctr. by rewrite Hg. Qed.

Lemma emit_Ok f st u st' :
  emit f st = Ok (u, st') ->
  exists g, code_gen st = Some g /\ st' = set_code_gen (Some (f g)) st.
Proof.
  unfold emit. destruct (code_gen st) as [g|]; [|discriminate].
  intros H. injection H as _ <-. eauto.
Qed.

Lemma emit_write_out cmd st u st' :
  emit (CodeGenerator.write cmd) st = Ok (u, st') ->
  out st' = out st ++ [cmd] /\ ctr st' = ctr st /\ class_name st' = class_name st.
Proof.
  intros H. apply emit_Ok in H as (g & Hg & ->). unfold out, ctr. rewrite Hg. auto.
Qed.

Lemma get_unique_label_Ok prefix st label st' :
  get_unique_label prefix st = Ok (label, st') ->
  label = CodeGenerator.make_label prefix (ctr st) /\
  out st' = out st /\ ctr st' = (ctr st + 1)%N /\ class_name st' = class_name st.
Proof.
  unfold get_unique_label, out, ctr. destruct (code_gen st) as [g|]; [|discriminate].
  cbn. intros H. injection H as <- <-. auto.
Qed.

(** ** Labels of the emitted code *)

Fixpoint strip_prefix (p s : string) : option string :=
  match p with
  | EmptyString => Some s
  | String a p' =>
      match s with
      | String b s' => if Ascii.eqb a b then strip_prefix p' s' else None
      | EmptyString => None
      end
  end.

(** The label that a line of VM code declares, if it is a [label] line. *)
Definition label_of (line : string) : option string := strip_prefix "label " line.

Definition labels_of (l : list string) : list string := omap label_of l.

(** The label that a line of VM code jumps to, if it is a [goto] or an
    [if-goto] line. *)
Definition target_of (line : string) : option string :=
  match strip_prefix "goto " line with
  | Some label => Some label
  | None => strip_prefix "if-goto " line
  end.

Definition targets_of (l : list string) : list string := omap target_of l.

Definition label_prefixes : list string :=
  ["IF_FALSE"; "IF_END"; "WHILE_LOOP"; "WHILE_END"].

Definition render (pn : string * N) : string :=
  CodeGenerator.make_label pn.1 pn.2.

(** The labels declared in [l] are [ids], pairs of a prefix and a number. *)
Definition declares (l : list string) (ids : list (string * N)) : Prop :=
  labels_of l = render <$> ids /\
  Forall (fun pn => pn.1 ∈ label_prefixes) ids.

(** The labels declared in [l] carry distinct numbers, all of which
    satisfy [P]. *)
Definition fresh_on (P : N -> Prop) (l : list string) : Prop :=
  exists ids, declares l ids /\ NoDup (ids.*2) /\ Forall (fun pn => P pn.2) ids.

(** The labels declared in [l] carry distinct numbers, all in [[a, b)]. *)
Definition fresh_labels (a b : N) (l : list string) : Prop :=
  fresh_on (fun n => (a <= n < b)%N) l.

(** The targets of the jumps in [l] are labels of the compiler, with
    numbers that satisfy [R]. *)
Definition mentions (R : N -> Prop) (l : list string) : Prop :=
  Forall (fun target : string => exists (p : string) (n : N),
            target = CodeGenerator.make_label p n /\
            p ∈ label_prefixes /\ R n)
    (targets_of l).

Lemma mentions_nil R : mentions R [].
Proof. constructor. Qed.

Lemma mentions_app R l1 l2 :
  mentions R l1 -> mentions R l2 -> mentions R (l1 ++ l2).
Proof.
  unfold mentions, targets_of. rewrite omap_app. intros H1 H2.
  by apply Forall_app.
Qed.

Lemma mentions_mono (R S : N -> Prop) l :
  (forall n, R n -> S n) -> mentions R l -> mentions S l.
Proof.
  intros HRS H. eapply Forall_impl; [exact H|].
  intros target (p & n & -> & Hp & Hn). exists p, n. auto.
Qed.

Lemma mentions_cons_plain R cmd l :
  target_of cmd = None -> mentions R l -> mentions R (cmd :: l).
Proof.
  intros Hc Hl. unfold mentions, targets_of. cbn [omap list_omap].
  by rewrite Hc.
Qed.

Lemma mentions_cons_goto R p n l :
  p ∈ label_prefixes -> R n -> mentions R l ->
  mentions R (CodeGenerator.goto_cmd (CodeGenerator.make_label p n) :: l).
Proof.
  intros Hp Hn Hl. unfold mentions, targets_of. cbn [omap list_omap].
  change (target_of (CodeGenerator.goto_cmd (CodeGenerator.make_label p n)))
    with (Some (CodeGenerator.make_label p n)).
  constructor; [by exists p, n | exact Hl].
Qed.

Lemma mentions_cons_if R p n l :
  p ∈ label_prefixes -> R n -> mentions R l ->
  mentions R (CodeGenerator.if_cmd (CodeGenerator.make_label p n) :: l).
Proof.
  intros Hp Hn Hl. unfold mentions, targets_of. cbn [omap list_omap].
  change (target_of (CodeGenerator.if_cmd (CodeGenerator.make_label p n)))
    with (Some (CodeGenerator.make_label p n)).
  constructor; [by exists p, n | exact Hl].
Qed.

Lemma labels_of_app l1 l2 : labels_of (l1 ++ l2) = labels_of l1 ++ labels_of l2.
Proof. apply omap_app. Qed.

Lemma declares_nil : declares [] [].
Proof. split; [reflexivity | constructor]. Qed.

Lemma declares_app l1 l2 ids1 ids2 :
  declares l1 ids1 -> declares l2 ids2 -> declares (l1 ++ l2) (ids1 ++ ids2).
Proof.
  intros [H1 F1] [H2 F2]. split.
  - by rewrite labels_of_app, fmap_app, H1, H2.
  - by apply Forall_app.
Qed.

Lemma label_of_label_cmd label : label_of (CodeGenerator.label_cmd label) = Some label.
Proof. reflexivity. Qed.

Lemma fresh_on_nil P : fresh_on P [].
Proof. exists []. split; [apply declares_nil|]. split; constructor. Qed.

Lemma fresh_on_mono (P Q : N -> Prop) l :
  (forall n, P n -> Q n) -> fresh_on P l -> fresh_on Q l.
Proof.
  intros HPQ (ids & D & ND & R). exists ids. split; [done|]. split; [done|].
  eapply Forall_impl; [exact R|]. intros pn. apply HPQ.
Qed.

Lemma fresh_on_app (P Q : N -> Prop) l1 l2 :
  fresh_on P l1 -> fresh_on Q l2 -> (forall n, P n -> Q n -> False) ->
  fresh_on (fun n => P n \/ Q n) (l1 ++ l2).
Proof.
  intros (ids1 & D1 & N1 & R1) (ids2 & D2 & N2 & R2) Hdisj.
  exists (ids1 ++ ids2). split; [by apply declares_app|]. split.
  - rewrite fmap_app. apply NoDup_app. split; [done|]. split; [|done].
    intros n Hn1 Hn2.
    apply list_elem_of_fmap in Hn1 as (pn1 & -> & Hn1).
    apply list_elem_of_fmap in Hn2 as (pn2 & Heq & Hn2).
    rewrite Forall_forall in R1, R2.
    apply R1 in Hn1. apply R2 in Hn2. rewrite Heq in Hn1. eauto.
  - apply Forall_app. split.
    + eapply Forall_impl; [exact R1|]. intros pn; by left.
    + eapply Forall_impl; [exact R2|]. intros pn; by right.
Qed.

Lemma fresh_on_plain P cmd : label_of cmd = None -> fresh_on P [cmd].
Proof.
  intros H. exists []. split; [|split; constructor]. split; [|constructor].
  unfold labels_of. cbn [omap list_omap]. by rewrite H.
Qed.

Lemma fresh_on_label p n :
  p ∈ label_prefixes ->
  fresh_on (fun m => m = n)
    [CodeGenerator.label_cmd (CodeGenerator.make_label p n)].
Proof.
  intros H. exists [(p, n)]. split; [split; [reflexivity|]|split].
  - constructor; [exact H | constructor].
  - cbn. apply NoDup_singleton.
  - constructor; [reflexivity | constructor].
Qed.

Lemma fresh_nil a b : fresh_labels a b [].
Proof. apply fresh_on_nil. Qed.

Lemma fresh_plain a b cmd : label_of cmd = None -> fresh_labels a b [cmd].
Proof. apply fresh_on_plain. Qed.

Lemma fresh_app a b c l1 l2 :
  fresh_labels a b l1 -> fresh_labels b c l2 -> (a <= b <= c)%N ->
  fresh_labels a c (l1 ++ l2).
Proof.
  intros F1 F2 Hle. eapply fresh_on_mono; [|eapply fresh_on_app; eauto].
  - cbn. intros n [H|H]; lia.
  - cbn. intros n H1 H2. lia.
Qed.

(** ** What a computation emits *)

Definition emits (st st' : t) (l : list string) : Prop :=
  class_name st' = class_name st /\
  out st' = out st ++ l /\
  (ctr st <= ctr st')%N /\
  fresh_labels (ctr st) (ctr st') l /\
  mentions (fun n => (ctr st <= n < ctr st')%N) l.

Definition sound {A} (m : M A) : Prop :=
  forall st a st', m st = Ok (a, st') -> exists l, emits st st' l.

Lemma emits_refl st : emits st st [].
Proof.
  split; [done|]. split; [by rewrite app_nil_r|]. split; [lia|].
  split; [apply fresh_nil | apply mentions_nil].
Qed.

Lemma emits_trans st1 st2 st3 l1 l2 :
  emits st1 st2 l1 -> emits st2 st3 l2 -> emits st1 st3 (l1 ++ l2).
Proof.
  intros (C1 & O1 & L1 & F1 & M1) (C2 & O2 & L2 & F2 & M2).
  split; [congruence|]. split; [by rewrite O2, O1, app_assoc|].
  split; [lia|]. split; [eapply fresh_app; eauto|].
  apply mentions_app; (eapply mentions_mono; [|eassumption]);
    cbn beta; intros; lia.
Qed.

Lemma emits_quiet {A} (m : M A) st a st' :
  quiet m -> m st = Ok (a, st') -> emits st st' [].
Proof.
  intros Hq H. destruct (quiet_out m st a st' Hq H) as (Ho & Hc & Hn).
  split; [done|]. split; [by rewrite app_nil_r|]. rewrite Hc.
  split; [lia|]. split; [apply fresh_nil | apply mentions_nil].
Qed.

Lemma emits_write cmd st u st' :
  label_of cmd = None -> target_of cmd = None ->
  emit (CodeGenerator.write cmd) st = Ok (u, st') -> emits st st' [cmd].
Proof.
  intros Hp Ht H. apply emit_write_out in H as (Ho & Hc & Hn).
  split; [done|]. split; [done|]. rewrite Hc. split; [lia|].
  split; [by apply fresh_plain|]. apply mentions_cons_plain; [done|].
  apply mentions_nil.
Qed.

Lemma sound_quiet {A} (m : M A) : quiet m -> sound m.
Proof. intros Hq st a st' H. exists []. eapply emits_quiet; eauto. Qed.

Lemma sound_bind {A B} (m : M A) (k : A -> M B) :
  sound m -> (forall a, sound (k a)) -> sound (bind m k).
Proof.
  intros Hm Hk st b st2 H. apply bind_Ok in H as (a & st1 & H1 & H2).
  apply Hm in H1 as [l1 H1]. apply Hk in H2 as [l2 H2].
  exists (l1 ++ l2). eapply emits_trans; eauto.
Qed.

Lemma sound_write cmd :
  label_of cmd = None -> target_of cmd = None ->
  sound (emit (CodeGenerator.write cmd)).
Proof. intros Hp Ht st u st' H. exists [cmd]. by eapply emits_write. Qed.

Lemma sound_ret {A} (a : A) : sound (ret a).
Proof. apply sound_quiet, quiet_ret. Qed.

Lemma sound_raise {A} e : sound (@raise A e).
Proof. apply sound_quiet, quiet_raise. Qed.

Lemma sound_timeout {A} : sound (@timeout A).
Proof. apply sound_quiet, quiet_timeout. Qed.

Lemma existsb_eqb_elem (v : string) (vs : list string) :
  existsb (String.eqb v) vs = true -> v ∈ vs.
Proof.
  intros H. apply existsb_exists in H as (x & Hin & Heq).
  apply String.eqb_eq in Heq as ->. by apply list_elem_of_In.
Qed.

Lemma arithmetic_binary_plain op :
  op ∈ binary_ops ->
  label_of (CodeGenerator.arithmetic_cmd op) = None /\
  target_of (CodeGenerator.arithmetic_cmd op) = None.
Proof.
  unfold binary_ops. rewrite !elem_of_cons, elem_of_nil.
  intros H; repeat (destruct H as [->|H]; [split; reflexivity|]); done.
Qed.

Lemma sound_push_symbol symbol : sound (push_symbol symbol).
Proof.
  destruct symbol as [sym|]; [|apply sound_raise]. by apply sound_write.
Qed.

Lemma sound_pop_symbol symbol : sound (pop_symbol symbol).
Proof.
  destruct symbol as [sym|]; [|apply sound_raise]. by apply sound_write.
Qed.

Lemma sound_write_chars s : sound (write_chars s).
Proof.
  induction s as [|c r IH]; cbn; [apply sound_ret|].
  apply sound_bind; [by apply sound_write | intros _].
  apply sound_bind; [by apply sound_write | intros _]. apply IH.
Qed.

Create HintDb jack.

#[local] Hint Resolve quiet_ret quiet_gets quiet_raise quiet_timeout
  quiet_advance quiet_expect quiet_match_ quiet_current_value
  quiet_current_type quiet_lookup quiet_define quiet_step_back
  quiet_code_gen_method : jack.

#[local] Hint Resolve sound_ret sound_raise sound_timeout sound_push_symbol
  sound_pop_symbol sound_write_chars : jack.

(** Steps of a proof that a computation is [sound]: [sound_prim] closes a
    primitive, [sound_seq x] splits a sequence whose first part is a
    primitive and names the bound value [x]. *)
Ltac sound_prim :=
  first
    [ apply sound_quiet; solve [auto with jack]
    | apply sound_write; reflexivity
    | solve [auto with jack] ].

Tactic Notation "sound_seq" ident(x) :=
  apply sound_bind; [try sound_prim | intros x].

Ltac sound_auto :=
  repeat first [ sound_prim | apply sound_bind; [| intros ?] ].

(** Soundness at one state, for the tests whose outcome the rest of the
    computation depends on. *)
Definition sound_at {A} (st : t) (m : M A) : Prop :=
  forall a st', m st = Ok (a, st') -> exists l, emits st st' l.

Lemma sound_at_gets {A B} (f : t -> A) (k : A -> M B) st :
  sound_at st (k (f st)) -> sound_at st (bind (gets f) k).
Proof. intros Hk b st' H. apply (Hk b st'). exact H. Qed.

Lemma sound_sound_at {A} (m : M A) st : sound m -> sound_at st m.
Proof. intros H a st'. apply H. Qed.

(** ** Expressions emit no label *)

Lemma sound_expressions fuel :
  sound (compile_expression fuel) /\
  sound (compile_expression_loop fuel) /\
  sound (compile_term fuel) /\
  sound (compile_subroutine_call fuel) /\
  sound (compile_expression_list fuel) /\
  (forall n, sound (compile_expression_list_loop fuel n)).
Proof.
  induction fuel as [|fuel (IHe & IHl & IHt & IHc & IHel & IHell)].
  { repeat split; try intros n; apply sound_timeout. }
  repeat split.
  - cbn [compile_expression]. apply sound_bind; [exact IHt | intros _; exact IHl].
  - cbn [compile_expression_loop]. intros st.
    apply (sound_at_gets _ _ st).
    destruct (existsb _ binary_ops) eqn:Hop; [|apply sound_sound_at, sound_ret].
    apply existsb_eqb_elem in Hop.
    apply (sound_at_gets _ _ st). apply sound_sound_at.
    sound_seq u. apply sound_bind; [exact IHt | intros _].
    apply sound_bind; [|intros _; exact IHl].
    apply sound_write; by apply arithmetic_binary_plain.
  - cbn [compile_term]. sound_seq ty.
    destruct (decide (ty = INT_CONST)).
    { sound_seq v. sound_seq u. destruct (int v); sound_auto. }
    destruct (decide (ty = STRING_CONST)); [sound_auto|].
    sound_seq b1. destruct b1.
    { sound_seq keyword. apply sound_bind; [|intros _; sound_prim].
      destruct (String.eqb keyword "true"); [sound_auto|].
      destruct (existsb _ _); [sound_auto|].
      destruct (String.eqb keyword "this"); sound_auto. }
    sound_seq b2. destruct b2.
    { sound_seq op. sound_seq u.
      apply sound_bind; [exact IHt | intros _].
      destruct (String.eqb op "-"); sound_prim. }
    destruct (decide (ty = IDENTIFIER)).
    { sound_seq ident. sound_seq u. sound_seq b3. destruct b3.
      { sound_seq symbol. sound_seq u'.
        apply sound_bind; [exact IHe | intros _]. sound_auto. }
      sound_seq b4. destruct b4.
      { sound_seq u'. exact IHc. }
      sound_auto. }
    sound_seq b5. destruct b5; [|sound_prim].
    sound_seq u. apply sound_bind; [exact IHe | intros _]. sound_auto.
  - cbn [compile_subroutine_call]. sound_seq tok. sound_seq b.
    apply sound_bind.
    { destruct b; [|sound_auto].
      sound_seq u. sound_seq mtok. sound_seq symbol.
      destruct symbol; sound_auto. }
    intros callee. sound_seq u.
    apply sound_bind; [exact IHel | intros n]. sound_auto.
  - cbn [compile_expression_list]. sound_seq b.
    destruct b; [sound_prim|].
    apply sound_bind; [exact IHe | intros _; apply IHell].
  - intros n. cbn [compile_expression_list_loop]. sound_seq b.
    destruct b; [|sound_prim]. sound_seq u.
    apply sound_bind; [exact IHe | intros _; apply IHell].
Qed.

Lemma sound_compile_expression fuel : sound (compile_expression fuel).
Proof. apply sound_expressions. Qed.

Lemma sound_compile_subroutine_call fuel : sound (compile_subroutine_call fuel).
Proof. apply sound_expressions. Qed.

#[local] Hint Resolve sound_compile_expression sound_compile_subroutine_call : jack.

Lemma sound_compile_let fuel : sound (compile_let fuel).
Proof.
  unfold compile_let. sound_seq u. sound_seq tok. sound_seq symbol. sound_seq b.
  destruct b; sound_auto.
Qed.

Lemma sound_compile_do fuel : sound (compile_do fuel).
Proof. unfold compile_do. sound_auto. Qed.

Lemma sound_compile_return fuel : sound (compile_return fuel).
Proof.
  unfold compile_return. sound_seq u. sound_seq b.
  apply sound_bind; [destruct b; cbn [negb]; sound_auto | intros _; sound_auto].
Qed.

#[local] Hint Resolve sound_compile_let sound_compile_do sound_compile_return : jack.

(** ** Statements declare fresh labels *)

Ltac inv_binds H :=
  repeat
    (let a := fresh "a" in
     let s := fresh "s" in
     let H1 := fresh "H" in
     apply bind_Ok in H as (a & s & H1 & H)).

(** The effect of the primitives on [out], [ctr] and [class_name]. *)
Ltac prim_facts :=
  repeat match goal with
  | H : expect _ _ _ = Ok _ |- _ =>
      apply (quiet_out _ _ _ _ (quiet_expect _ _)) in H as (? & ? & ?)
  | H : advance _ = Ok _ |- _ =>
      apply (quiet_out _ _ _ _ quiet_advance) in H as (? & ? & ?)
  | H : match_ _ _ = Ok _ |- _ =>
      apply (quiet_out _ _ _ _ (quiet_match_ _)) in H as (? & ? & ?)
  | H : ret _ _ = Ok _ |- _ =>
      apply (quiet_out _ _ _ _ (quiet_ret _)) in H as (? & ? & ?)
  | H : get_unique_label _ _ = Ok _ |- _ =>
      apply get_unique_label_Ok in H as (-> & ? & ? & ?)
  | H : emit _ _ = Ok _ |- _ =>
      apply emit_write_out in H as (? & ? & ?)
  end.

Lemma fresh_on_cons_plain P cmd l :
  label_of cmd = None -> fresh_on P l -> fresh_on P (cmd :: l).
Proof.
  intros Hc Hl. eapply fresh_on_mono;
    [|apply (fresh_on_app (fun _ => False) P [cmd] l);
      [by apply fresh_on_plain | exact Hl | tauto]].
  cbn. tauto.
Qed.

Lemma fresh_on_cons_label (P : N -> Prop) p n l :
  fresh_on P l -> p ∈ label_prefixes -> ~ P n ->
  fresh_on (fun m => m = n \/ P m)
    (CodeGenerator.label_cmd (CodeGenerator.make_label p n) :: l).
Proof.
  intros Hl Hp Hn.
  apply (fresh_on_app (fun m => m = n) P
           [CodeGenerator.label_cmd (CodeGenerator.make_label p n)] l);
    [by apply fresh_on_label | exact Hl |].
  intros m -> HP. auto.
Qed.

(** Freshness of a list built from emitted pieces; the side conditions on
    the numbers are left as goals. *)
Ltac fresh_tac :=
  lazymatch goal with
  | |- fresh_on _ [] => apply (fresh_on_nil (fun _ => False))
  | |- fresh_on _ (CodeGenerator.label_cmd (CodeGenerator.make_label _ _) :: _) =>
      eapply fresh_on_cons_label;
      [fresh_tac | unfold label_prefixes; set_solver | ]
  | |- fresh_on _ (_ :: _) =>
      apply fresh_on_cons_plain; [reflexivity | fresh_tac]
  | |- fresh_on _ (?l1 ++ ?l2) =>
      eapply (fresh_on_app _ _ l1 l2); [fresh_tac | fresh_tac | ]
  | |- fresh_on _ _ => eassumption
  end.

(** The jumps of a list built from emitted pieces. *)
Ltac mentions_tac :=
  lazymatch goal with
  | |- mentions _ [] => apply mentions_nil
  | |- mentions _ (CodeGenerator.goto_cmd (CodeGenerator.make_label _ _) :: _) =>
      apply mentions_cons_goto;
      [unfold label_prefixes; set_solver | cbn beta; lia | mentions_tac]
  | |- mentions _ (CodeGenerator.if_cmd (CodeGenerator.make_label _ _) :: _) =>
      apply mentions_cons_if;
      [unfold label_prefixes; set_solver | cbn beta; lia | mentions_tac]
  | |- mentions _ (_ :: _) =>
      apply mentions_cons_plain; [reflexivity | mentions_tac]
  | |- mentions _ (_ ++ _) => apply mentions_app; mentions_tac
  | |- mentions _ _ =>
      eapply mentions_mono; [|eassumption]; cbn beta; intros; lia
  end.

Lemma sound_statements fuel :
  sound (compile_statements fuel) /\
  sound (compile_if fuel) /\
  sound (compile_while fuel).
Proof.
  induction fuel as [|fuel (IHs & IHi & IHw)].
  { repeat split; apply sound_timeout. }
  repeat split.
  - cbn [compile_statements]. sound_seq b. destruct b; [|sound_prim].
    sound_seq v. apply sound_bind; [|intros _; exact IHs].
    repeat (match goal with |- sound (if ?c then _ else _) => destruct c end;
            [first [exact IHi | exact IHw | sound_prim]|]).
    sound_prim.
  - cbn [compile_if]. intros st u st' H. inv_binds H.
    apply sound_compile_expression in H2 as (lc & Cc & Oc & Lc & Fc & Mc).
    apply IHs in H9 as (lt & Ct & Ot & Lt & Ft & Mt).
    assert (exists le, emits s12 s13 le) as (le & Ce & Oe & Le & Fe & Me).
    { revert H14. generalize s12 a13 s13. change (sound
        (if a12 : bool then
           advance ;; expect [SYMBOL] (Some "{") ;; compile_statements fuel ;;
           expect [SYMBOL] (Some "}") ;; ret tt
         else ret tt)).
      destruct a12; [|sound_prim]. sound_seq x. sound_seq y.
      apply sound_bind; [exact IHs | intros _; sound_auto]. }
    prim_facts. unfold fresh_labels in *.
    eexists. split; [congruence|]. split.
    { repeat match goal with H : out _ = _ |- _ => rewrite H; clear H end.
      rewrite <- !app_assoc. reflexivity. }
    split; [lia|]. split; [|mentions_tac].
    eapply fresh_on_mono; [|fresh_tac]; cbn beta; intros; lia.
  - cbn [compile_while]. intros st u st' H. inv_binds H.
    apply sound_compile_expression in H5 as (lc & Cc & Oc & Lc & Fc & Mc).
    apply IHs in H10 as (lb & Cb & Ob & Lb & Fb & Mb).
    prim_facts. unfold fresh_labels in *.
    eexists. split; [congruence|]. split.
    { repeat match goal with H : out _ = _ |- _ => rewrite H; clear H end.
      rewrite <- !app_assoc. reflexivity. }
    split; [lia|]. split; [|mentions_tac].
    eapply fresh_on_mono; [|fresh_tac]; cbn beta; intros; lia.
Qed.

Lemma sound_compile_statements fuel : sound (compile_statements fuel).
Proof. apply sound_statements. Qed.

(** ** Declarations emit nothing *)

Lemma quiet_modify (f : t -> t) :
  (forall st, code_gen (f st) = code_gen st /\ class_name (f st) = class_name st) ->
  quiet (modify f).
Proof. intros Hf st [] st' H. injection H as <-. apply Hf. Qed.

Ltac quiet_prim := solve [auto with jack].

Tactic Notation "quiet_seq" ident(x) :=
  apply quiet_bind; [try quiet_prim | intros x].

Ltac quiet_auto :=
  repeat first [ quiet_prim | apply quiet_bind; [| intros ?] ].

Lemma quiet_define_names_loop fuel var_type kind :
  quiet (define_names_loop fuel var_type kind).
Proof.
  induction fuel as [|fuel IH]; cbn [define_names_loop]; [quiet_prim|].
  quiet_seq tok. quiet_seq u. quiet_seq b. destruct b; cbn [negb]; [|quiet_prim].
  quiet_seq u'. exact IH.
Qed.

Lemma quiet_parameter_loop fuel : quiet (parameter_loop fuel).
Proof.
  induction fuel as [|fuel IH]; cbn [parameter_loop]; [quiet_prim|].
  quiet_seq ty. quiet_seq u. quiet_seq tok. quiet_seq u'. quiet_seq b.
  destruct b; cbn [negb]; [|quiet_prim]. quiet_seq u''. exact IH.
Qed.

#[local] Hint Resolve quiet_define_names_loop quiet_parameter_loop : jack.

Lemma quiet_compile_class_var_dec fuel : quiet (compile_class_var_dec fuel).
Proof. unfold compile_class_var_dec. quiet_auto. Qed.

Lemma quiet_compile_parameter_list fuel : quiet (compile_parameter_list fuel).
Proof.
  unfold compile_parameter_list. quiet_seq b. destruct b; cbn [negb]; quiet_prim.
Qed.

Lemma quiet_compile_var_dec fuel : quiet (compile_var_dec fuel).
Proof. unfold compile_var_dec. quiet_auto. Qed.

#[local] Hint Resolve quiet_compile_class_var_dec quiet_compile_parameter_list
  quiet_compile_var_dec : jack.

Lemma quiet_var_decs fuel : quiet (var_decs fuel).
Proof.
  induction fuel as [|fuel IH]; cbn [var_decs]; [quiet_prim|].
  quiet_seq b. destruct b; [|quiet_prim]. quiet_seq u. exact IH.
Qed.

Lemma quiet_class_var_decs fuel : quiet (class_var_decs fuel).
Proof.
  induction fuel as [|fuel IH]; cbn [class_var_decs]; [quiet_prim|].
  quiet_seq b. destruct b; [|quiet_prim]. quiet_seq u. exact IH.
Qed.

Lemma quiet_subroutine_header : quiet subroutine_header.
Proof.
  unfold subroutine_header. quiet_seq ty. quiet_seq u. quiet_seq rt.
  quiet_seq u'. quiet_seq tok.
  apply quiet_bind; [by apply quiet_modify | intros _]. quiet_auto.
Qed.

Lemma quiet_enter_subroutine subroutine_type : quiet (enter_subroutine subroutine_type).
Proof.
  unfold enter_subroutine.
  apply quiet_bind; [by apply quiet_modify | intros _].
  destruct (String.eqb _ _); quiet_auto.
Qed.

#[local] Hint Resolve quiet_var_decs quiet_class_var_decs
  quiet_subroutine_header quiet_enter_subroutine : jack.

Lemma quiet_subroutine_decls fuel : quiet (subroutine_decls fuel).
Proof. unfold subroutine_decls. quiet_auto. Qed.

#[local] Hint Resolve quiet_subroutine_decls sound_compile_statements : jack.

Lemma sound_subroutine_entry subroutine_type : sound (subroutine_entry subroutine_type).
Proof.
  unfold subroutine_entry. sound_seq cn. sound_seq sn. sound_seq nlocals.
  sound_seq u. destruct (String.eqb _ "method"); [sound_auto|].
  destruct (String.eqb _ "constructor"); sound_auto.
Qed.

#[local] Hint Resolve sound_subroutine_entry : jack.

Lemma sound_compile_subroutine_dec fuel : sound (compile_subroutine_dec fuel).
Proof. unfold compile_subroutine_dec. sound_auto. Qed.

Lemma sound_subroutine_decs fuel : sound (subroutine_decs fuel).
Proof.
  induction fuel as [|fuel IH]; cbn [subroutine_decs]; [sound_prim|].
  sound_seq b. destruct b; [|sound_prim].
  apply sound_bind; [apply sound_compile_subroutine_dec | intros _; exact IH].
Qed.

(** The state in which [compile_class] starts on the members of the
    class: a new code generator, with no line and the counter at 0. *)
Lemma compile_class_emits fuel st u st' :
  compile_class fuel st = Ok (u, st') ->
  exists st0 l,
    out st0 = [] /\ ctr st0 = 0%N /\ is_Some (code_gen st0) /\ emits st0 st' l.
Proof.
  unfold compile_class. intros H.
  do 5 (apply bind_Ok in H as (? & ? & _ & H)).
  apply bind_Ok in H as ([] & st0 & H0 & H).
  injection H0 as <-.
  assert (Hs : sound
    (class_var_decs fuel ;; subroutine_decs fuel ;;
     expect [SYMBOL] (Some "}") ;; ret tt)).
  { sound_seq w. apply sound_bind; [apply sound_subroutine_decs | intros _].
    sound_auto. }
  apply Hs in H as [l Hl].
  match type of Hl with emits ?s _ _ => exists s, l end.
  split; [reflexivity|]. split; [reflexivity|]. split; [|exact Hl].
  eexists. reflexivity.
Qed.

(** ** Labels are determined by their number *)

Lemma make_label_inj p1 n1 p2 n2 :
  p1 ∈ label_prefixes -> p2 ∈ label_prefixes ->
  CodeGenerator.make_label p1 n1 = CodeGenerator.make_label p2 n2 ->
  p1 = p2 /\ n1 = n2.
Proof.
  unfold label_prefixes. rewrite !elem_of_cons, !elem_of_nil.
  intros H1 H2.
  repeat (destruct H1 as [->|H1]); try done;
    repeat (destruct H2 as [->|H2]); try done;
    cbn; intros H; try discriminate H;
    (split; [reflexivity|]); apply (inj pretty);
    repeat (injection H as H); exact H.
Qed.

Lemma fresh_on_NoDup P l : fresh_on P l -> NoDup (labels_of l).
Proof.
  intros (ids & [-> Hp] & ND & _).
  apply NoDup_fmap_2_strong; [|by apply NoDup_fmap_1 in ND].
  intros [p1 n1] [p2 n2] H1 H2 Heq. rewrite Forall_forall in Hp.
  unfold render in Heq. cbn [fst snd] in Heq.
  apply make_label_inj in Heq as [E1 E2]; [congruence| |].
  - apply (Hp _ H1).
  - apply (Hp _ H2).
Qed.

(** ** The cursor *)

Lemma advance_Ok st u st' :
  advance st = Ok (u, st') -> exists p tok, st' = set_cursor p tok st.
Proof.
  unfold advance. destruct (_ <? _)%Z.
  - destruct (py_index _ _) as [tok|]; [|discriminate].
    intros H. injection H as _ <-. eauto.
  - intros H. injection H as _ <-. exists (pos st), (current_token st).
    by destruct st.
Qed.

Lemma expect_Ok types value st tok st' :
  expect types value st = Ok (tok, st') ->
  tok = current_token st /\ tok_type tok ∈ types /\
  exists p tok', st' = set_cursor p tok' st.
Proof.
  unfold expect. destruct types as [|ty types]; [discriminate|].
  destruct (bool_decide _) eqn:Hty; [|discriminate]. cbn [negb].
  apply bool_decide_eq_true in Hty.
  assert (Hadv : (advance ;; ret (current_token st)) st = Ok (tok, st') ->
    tok = current_token st /\ tok_type tok ∈ ty :: types /\
    exists p tok', st' = set_cursor p tok' st).
  { intros H. apply bind_Ok in H as (u & s1 & H1 & H2).
    apply ret_Ok in H2 as [-> ->]. apply advance_Ok in H1. auto. }
  destruct value as [v|]; [destruct (_ && _); [discriminate|] |]; exact Hadv.
Qed.

(** ** Invariants of the declarations *)

Section Invariant.

Variable I : t -> Prop.
Hypothesis I_cursor : forall st p tok, I st -> I (set_cursor p tok st).
Hypothesis I_define : forall st name type kind,
  I st -> I (set_symbol_table (SymbolTable.define name type kind (symbol_table st)) st).

Definition keeps {A} (m : M A) : Prop :=
  forall st a st', I st -> m st = Ok (a, st') -> I st'.

Lemma keeps_ret {A} (a : A) : keeps (ret a).
Proof. intros st b st' HI H. by apply ret_Ok in H as [_ ->]. Qed.

Lemma keeps_gets {A} (f : t -> A) : keeps (gets f).
Proof. intros st b st' HI H. by apply gets_Ok in H as [_ ->]. Qed.

Lemma keeps_timeout {A} : keeps (@timeout A).
Proof. intros st b st' HI H. discriminate. Qed.

Lemma keeps_bind {A B} (m : M A) (k : A -> M B) :
  keeps m -> (forall a, keeps (k a)) -> keeps (bind m k).
Proof.
  intros Hm Hk st b st2 HI H. apply bind_Ok in H as (a & st1 & H1 & H2).
  eapply Hk; [|exact H2]. eapply Hm; eauto.
Qed.

Lemma keeps_advance : keeps advance.
Proof. intros st u st' HI H. apply advance_Ok in H as (p & tok & ->). auto. Qed.

Lemma keeps_expect types value : keeps (expect types value).
Proof.
  intros st u st' HI H. apply expect_Ok in H as (_ & _ & p & tok & ->). auto.
Qed.

Lemma keeps_match_ values : keeps (match_ values).
Proof. apply keeps_gets. Qed.

Lemma keeps_current_value : keeps current_value.
Proof. apply keeps_gets. Qed.

Lemma keeps_define name type kind : keeps (define name type kind).
Proof. intros st [] st' HI H. injection H as <-. auto. Qed.

Hint Resolve keeps_ret keeps_gets keeps_timeout keeps_advance keeps_expect
  keeps_match_ keeps_current_value keeps_define : jack.

Ltac keeps_auto :=
  repeat first [ solve [auto with jack] | apply keeps_bind; [| intros ?] ].

Lemma keeps_define_names_loop fuel var_type kind :
  keeps (define_names_loop fuel var_type kind).
Proof.
  induction fuel as [|fuel IH]; cbn [define_names_loop]; [keeps_auto|].
  apply keeps_bind; [keeps_auto | intros tok].
  apply keeps_bind; [keeps_auto | intros _].
  apply keeps_bind; [keeps_auto | intros b].
  destruct b; cbn [negb]; [|keeps_auto].
  apply keeps_bind; [keeps_auto | intros _; exact IH].
Qed.

Lemma keeps_parameter_loop fuel : keeps (parameter_loop fuel).
Proof.
  induction fuel as [|fuel IH]; cbn [parameter_loop]; [keeps_auto|].
  apply keeps_bind; [keeps_auto | intros ty].
  apply keeps_bind; [keeps_auto | intros _].
  apply keeps_bind; [keeps_auto | intros tok].
  apply keeps_bind; [keeps_auto | intros _].
  apply keeps_bind; [keeps_auto | intros b].
  destruct b; cbn [negb]; [|keeps_auto].
  apply keeps_bind; [keeps_auto | intros _; exact IH].
Qed.

Hint Resolve keeps_define_names_loop keeps_parameter_loop : jack.



End Invariant.

(** ** More fuel changes no result *)

(** [m'] gives the result of [m] wherever [m] does not run out of fuel. *)
Definition refines {A} (m m' : M A) : Prop :=
  forall st, m st = Timeout \/ m' st = m st.

Lemma refines_refl {A} (m : M A) : refines m m.
Proof. intros st. by right. Qed.

Lemma refines_timeout {A} (m' : M A) : refines timeout m'.
Proof. intros st. by left. Qed.

Lemma refines_bind {A B} (m m' : M A) (k k' : A -> M B) :
  refines m m' -> (forall a, refines (k a) (k' a)) ->
  refines (bind m k) (bind m' k').
Proof.
  intros Hm Hk st. unfold bind. destruct (Hm st) as [->| ->]; [by left|].
  destruct (m st) as [[a st1]|e|]; [apply Hk | by right | by left].
Qed.

Ltac refines_tac :=
  repeat first
    [ assumption
    | apply refines_refl
    | apply refines_bind; [| intros ?]
    | match goal with
      | |- refines (if ?b then _ else _) (if ?b then _ else _) => destruct b
      | |- refines (match ?x with _ => _ end) (match ?x with _ => _ end) =>
          destruct x
      end ].

Lemma fuel_mono_expressions n :
  forall m, n <= m ->
  refines (compile_expression n) (compile_expression m) /\
  refines (compile_expression_loop n) (compile_expression_loop m) /\
  refines (compile_term n) (compile_term m) /\
  refines (compile_subroutine_call n) (compile_subroutine_call m) /\
  refines (compile_expression_list n) (compile_expression_list m) /\
  (forall c, refines (compile_expression_list_loop n c)
               (compile_expression_list_loop m c)).
Proof.
  induction n as [|n IH]; intros m Hle.
  { repeat split; try intros c; apply refines_timeout. }
  destruct m as [|m]; [lia|].
  destruct (IH m ltac:(lia)) as (IHe & IHl & IHt & IHc & IHel & IHell).
  repeat split; try intros c;
    cbn [compile_expression compile_expression_loop compile_term
         compile_subroutine_call compile_expression_list
         compile_expression_list_loop];
    refines_tac; apply IHell.
Qed.

Lemma fuel_mono_compile_expression n m :
  n <= m -> refines (compile_expression n) (compile_expression m).
Proof. intros H. by apply fuel_mono_expressions. Qed.

Lemma fuel_mono_compile_subroutine_call n m :
  n <= m -> refines (compile_subroutine_call n) (compile_subroutine_call m).
Proof. intros H. by apply fuel_mono_expressions. Qed.

Lemma fuel_mono_compile_let n m :
  n <= m -> refines (compile_let n) (compile_let m).
Proof.
  intros H. pose proof (fuel_mono_compile_expression n m H).
  unfold compile_let. refines_tac.
Qed.

Lemma fuel_mono_compile_do n m :
  n <= m -> refines (compile_do n) (compile_do m).
Proof.
  intros H. pose proof (fuel_mono_compile_subroutine_call n m H).
  unfold compile_do. refines_tac.
Qed.

Lemma fuel_mono_compile_return n m :
  n <= m -> refines (compile_return n) (compile_return m).
Proof.
  intros H. pose proof (fuel_mono_compile_expression n m H).
  unfold compile_return. refines_tac.
Qed.

Lemma fuel_mono_statements n :
  forall m, n <= m ->
  refines (compile_statements n) (compile_statements m) /\
  refines (compile_if n) (compile_if m) /\
  refines (compile_while n) (compile_while m).
Proof.
  induction n as [|n IH]; intros m Hle.
  { repeat split; apply refines_timeout. }
  destruct m as [|m]; [lia|].
  destruct (IH m ltac:(lia)) as (IHs & IHi & IHw).
  pose proof (fuel_mono_compile_expression n m ltac:(lia)).
  pose proof (fuel_mono_compile_let n m ltac:(lia)).
  pose proof (fuel_mono_compile_do n m ltac:(lia)).
  pose proof (fuel_mono_compile_return n m ltac:(lia)).
  repeat split; cbn [compile_statements compile_if compile_while]; refines_tac.
Qed.

Lemma fuel_mono_define_names_loop n m var_type kind :
  n <= m ->
  refines (define_names_loop n var_type kind) (define_names_loop m var_type kind).
Proof.
  revert m. induction n as [|n IH]; intros m Hle; [apply refines_timeout|].
  destruct m as [|m]; [lia|]. specialize (IH m ltac:(lia)).
  cbn [define_names_loop]. refines_tac.
Qed.

Lemma fuel_mono_parameter_loop n m :
  n <= m -> refines (parameter_loop n) (parameter_loop m).
Proof.
  revert m. induction n as [|n IH]; intros m Hle; [apply refines_timeout|].
  destruct m as [|m]; [lia|]. specialize (IH m ltac:(lia)).
  cbn [parameter_loop]. refines_tac.
Qed.

Lemma fuel_mono_var_decs n m : n <= m -> refines (var_decs n) (var_decs m).
Proof.
  revert m. induction n as [|n IH]; intros m Hle; [apply refines_timeout|].
  destruct m as [|m]; [lia|]. specialize (IH m ltac:(lia)).
  cbn [var_decs]. unfold compile_var_dec. refines_tac.
  apply fuel_mono_define_names_loop. lia.
Qed.

Lemma fuel_mono_class_var_decs n m :
  n <= m -> refines (class_var_decs n) (class_var_decs m).
Proof.
  revert m. induction n as [|n IH]; intros m Hle; [apply refines_timeout|].
  destruct m as [|m]; [lia|]. specialize (IH m ltac:(lia)).
  cbn [class_var_decs]. unfold compile_class_var_dec. refines_tac.
  apply fuel_mono_define_names_loop. lia.
Qed.

Lemma fuel_mono_compile_subroutine_dec n m :
  n <= m -> refines (compile_subroutine_dec n) (compile_subroutine_dec m).
Proof.
  intros Hle.
  pose proof (fuel_mono_parameter_loop n m Hle).
  pose proof (fuel_mono_var_decs n m Hle).
  destruct (fuel_mono_statements n m Hle) as (Hs & _ & _).
  unfold compile_subroutine_dec, subroutine_decls, compile_parameter_list.
  refines_tac.
Qed.

Lemma fuel_mono_subroutine_decs n m :
  n <= m -> refines (subroutine_decs n) (subroutine_decs m).
Proof.
  revert m. induction n as [|n IH]; intros m Hle; [apply refines_timeout|].
  destruct m as [|m]; [lia|]. specialize (IH m ltac:(lia)).
  pose proof (fuel_mono_compile_subroutine_dec n m ltac:(lia)).
  cbn [subroutine_decs]. refines_tac.
Qed.

Lemma fuel_mono_compile_class n m :
  n <= m -> refines (compile_class n) (compile_class m).
Proof.
  intros Hle.
  pose proof (fuel_mono_class_var_decs n m Hle).
  pose proof (fuel_mono_subroutine_decs n m Hle).
  unfold compile_class. refines_tac.
Qed.

Lemma fuel_mono_parse n m : n <= m -> refines (parse n) (parse m).
Proof.
  intros Hle. pose proof (fuel_mono_compile_class n m Hle).
  unfold parse. refines_tac.
Qed.

(** ** Termination on a token list that ends with the end marker *)

Definition len (st : t) : nat := List.length (tokens st).

(** The cursor is inside the list, on the current token, and the last
    token is the end marker of the tokenizer. *)
Definition wf (st : t) : Prop :=
  (0 <= pos st < Z.of_nat (len st))%Z /\
  tokens st !! Z.to_nat (pos st) = Some (current_token st) /\
  exists ln, tokens st !! (len st - 1) = Some (mkToken EOF "" ln).

(** The number of tokens between the cursor and the end marker. *)
Definition rem (st : t) : nat := len st - 1 - Z.to_nat (pos st).

Lemma wf_at_end st :
  wf st -> rem st = 0 ->
  tok_type (current_token st) = EOF /\ tok_value (current_token st) = "".
Proof.
  intros (Hpos & Hcur & ln & Hlast) Hrem. unfold rem in Hrem.
  replace (len st - 1) with (Z.to_nat (pos st)) in Hlast by lia.
  rewrite Hcur in Hlast. injection Hlast as ->. auto.
Qed.

Lemma not_end_type st :
  wf st -> tok_type (current_token st) <> EOF -> 1 <= rem st.
Proof.
  intros Hwf Hty. destruct (rem st) eqn:E; [|lia].
  by destruct (wf_at_end st Hwf E).
Qed.

Lemma not_end_value st :
  wf st -> tok_value (current_token st) <> "" -> 1 <= rem st.
Proof.
  intros Hwf Hv. destruct (rem st) eqn:E; [|lia].
  by destruct (wf_at_end st Hwf E).
Qed.

Lemma not_end_match st values :
  wf st ->
  existsb (String.eqb (tok_value (current_token st))) values = true ->
  "" ∉ values -> 1 <= rem st.
Proof.
  intros Hwf Hm Hne. apply not_end_value; [done|].
  apply existsb_eqb_elem in Hm. intros E. rewrite E in Hm. done.
Qed.

(** [m] returns or raises at [st], and every state it returns satisfies [Q]. *)
Definition halts {A} (Q : t -> Prop) (m : M A) (st : t) : Prop :=
  m st <> Timeout /\ forall a st', m st = Ok (a, st') -> Q st'.

Definition post_eq (st s' : t) : Prop :=
  wf s' /\ len s' = len st /\ rem s' = rem st.

Definition post_le (st s' : t) : Prop :=
  wf s' /\ len s' = len st /\ rem s' <= rem st.

Definition post_lt (st s' : t) : Prop :=
  wf s' /\ len s' = len st /\ S (rem s') <= rem st.

Lemma halts_weaken {A} (Q Q' : t -> Prop) (m : M A) st :
  halts Q m st -> (forall s', Q s' -> Q' s') -> halts Q' m st.
Proof. intros [H1 H2] HQ. split; [done|]. intros a s' H. eauto. Qed.

Lemma halts_ret {A} (Q : t -> Prop) (a : A) st : Q st -> halts Q (ret a) st.
Proof. intros HQ. split; [done|]. intros b s' H. by apply ret_Ok in H as [_ ->]. Qed.

Lemma halts_raise {A} (Q : t -> Prop) e st : halts Q (@raise A e) st.
Proof. split; [done|]. intros b s' H. discriminate. Qed.

Lemma halts_bind {A B} (Q1 Q : t -> Prop) (m : M A) (k : A -> M B) st :
  halts Q1 m st -> (forall a s1, Q1 s1 -> halts Q (k a) s1) ->
  halts Q (bind m k) st.
Proof.
  intros [Hm1 Hm2] Hk. unfold halts, bind.
  destruct (m st) as [[a s1]|e|]; [|split; [done|discriminate] | done].
  apply Hk. by eapply Hm2.
Qed.

Lemma halts_bind_gets {A B} (Q : t -> Prop) (f : t -> A) (k : A -> M B) st :
  halts Q (k (f st)) st -> halts Q (bind (gets f) k) st.
Proof. intros H. exact H. Qed.

(** Computations that return or raise and leave the cursor alone. *)
Definition still {A} (m : M A) : Prop :=
  forall st, m st <> Timeout /\
    forall a s', m st = Ok (a, s') ->
      tokens s' = tokens st /\ pos s' = pos st /\
      current_token s' = current_token st.

Lemma still_halts {A} (m : M A) st : still m -> wf st -> halts (post_eq st) m st.
Proof.
  intros Hs Hwf. destruct (Hs st) as [H1 H2]. split; [done|].
  intros a s' H. apply H2 in H as (Ht & Hp & Hc).
  unfold post_eq, wf, rem, len in *. rewrite Ht, Hp, Hc. auto.
Qed.

Lemma still_ret {A} (a : A) : still (ret a).
Proof. intros st. split; [done|]. intros b s' H. by apply ret_Ok in H as [_ ->]. Qed.

Lemma still_raise {A} e : still (@raise A e).
Proof. intros st. split; [done|]. intros b s' H. discriminate. Qed.

Lemma still_gets {A} (f : t -> A) : still (gets f).
Proof. intros st. split; [done|]. intros b s' H. by apply gets_Ok in H as [_ ->]. Qed.

Lemma still_bind {A B} (m : M A) (k : A -> M B) :
  still m -> (forall a, still (k a)) -> still (bind m k).
Proof.
  intros Hm Hk st. destruct (Hm st) as [Hm1 Hm2]. unfold bind.
  destruct (m st) as [[a s1]|e|]; [|split; [done|discriminate] | done].
  destruct (Hk a s1) as [Hk1 Hk2]. split; [done|]. intros b s' H.
  apply Hk2 in H as (-> & -> & ->). exact (Hm2 a s1 eq_refl).
Qed.

Lemma still_emit f : still (emit f).
Proof.
  intros st. unfold emit. destruct (code_gen st); [|split; [done|discriminate]].
  split; [done|]. intros a s' H. by injection H as _ <-.
Qed.

Lemma still_get_unique_label prefix : still (get_unique_label prefix).
Proof.
  intros st. unfold get_unique_label.
  destruct (code_gen st); [|split; [done|discriminate]].
  split; [done|]. intros a s' H. by injection H as _ <-.
Qed.

Lemma still_code_gen_method : still code_gen_method.
Proof.
  intros st. unfold code_gen_method.
  destruct (code_gen st); [|split; [done|discriminate]].
  split; [done|]. intros a s' H. by injection H as _ <-.
Qed.

Lemma still_modify (f : t -> t) :
  (forall st, tokens (f st) = tokens st /\ pos (f st) = pos st /\
              current_token (f st) = current_token st) ->
  still (modify f).
Proof. intros Hf st. split; [done|]. intros a s' H. injection H as _ <-. apply Hf. Qed.

Lemma still_define name type kind : still (define name type kind).
Proof. by apply still_modify. Qed.

Lemma still_push_symbol symbol : still (push_symbol symbol).
Proof. destruct symbol; [apply still_emit | apply still_raise]. Qed.

Lemma still_pop_symbol symbol : still (pop_symbol symbol).
Proof. destruct symbol; [apply still_emit | apply still_raise]. Qed.

Lemma still_write_chars s : still (write_chars s).
Proof.
  induction s as [|c r IH]; cbn [write_chars]; [apply still_ret|].
  apply still_bind; [apply still_emit | intros _].
  apply still_bind; [apply still_emit | intros _; exact IH].
Qed.

Lemma advance_halts st :
  wf st ->
  halts (fun s' => wf s' /\ len s' = len st /\ rem s' = rem st - 1) advance st.
Proof.
  intros (Hpos & Hcur & ln & Hlast). unfold halts, advance, len in *.
  destruct (_ <? _)%Z eqn:Hlt.
  - apply Z.ltb_lt in Hlt. unfold py_index, py_norm.
    destruct (0 <=? pos st + 1)%Z eqn:H0; [|apply Z.leb_gt in H0; lia].
    destruct (pos st + 1 <? _)%Z eqn:H1; [|apply Z.ltb_ge in H1; lia].
    destruct (lookup_lt_is_Some_2 (tokens st) (Z.to_nat (pos st + 1)))
      as [tok Htok]; [lia|].
    rewrite Htok. split; [done|]. intros a s' H. injection H as _ <-.
    unfold wf, rem, len. cbn. split; [|split; [done | lia]].
    split; [lia|]. split; [done|]. eauto.
  - apply Z.ltb_ge in Hlt. split; [done|]. intros a s' H. injection H as _ <-.
    split; [|split; [done | unfold rem, len; lia]].
    unfold wf, len. eauto.
Qed.

Lemma expect_halts types value st :
  wf st -> EOF ∉ types ->
  halts (post_lt st) (expect types value) st.
Proof.
  intros Hwf Heof. unfold halts, expect.
  destruct types as [|ty types]; [split; [done|discriminate]|].
  destruct (bool_decide (tok_type (current_token st) ∈ ty :: types)) eqn:Hty;
    cbn [negb]; [|split; [done|discriminate]].
  apply bool_decide_eq_true in Hty.
  assert (Hrem : 1 <= rem st).
  { apply not_end_type; [done|]. intros E. rewrite E in Hty. done. }
  assert (Hadv : halts (post_lt st) (advance ;; ret (current_token st)) st).
  { eapply halts_bind; [by apply advance_halts|].
    intros _ s1 (Hwf1 & Hlen1 & Hrem1). apply halts_ret.
    split; [done|]. split; [done|]. lia. }
  destruct value as [v|]; [|exact Hadv].
  destruct (_ && _); [split; [done|discriminate] | exact Hadv].
Qed.

Lemma step_back_halts ident st :
  wf st -> S (rem st) <= len st - 1 ->
  halts (fun s' => wf s' /\ len s' = len st /\ rem s' = S (rem st))
    (step_back ident) st.
Proof.
  intros (Hpos & Hcur & ln & Hlast) Hrem. unfold rem, len in Hrem.
  unfold halts, step_back, py_norm, len in *.
  destruct (0 <=? pos st - 1)%Z eqn:H0; [|apply Z.leb_gt in H0; lia].
  destruct (pos st - 1 <? _)%Z eqn:H1; [|apply Z.ltb_ge in H1; lia].
  destruct (lookup_lt_is_Some_2 (tokens st) (Z.to_nat (pos st - 1)))
    as [tok Htok]; [lia|].
  rewrite Htok. split; [done|]. intros a s' H. injection H as _ <-.
  unfold wf, rem, len. cbn. rewrite !length_insert.
  split; [|split; [done | lia]].
  split; [lia|]. split.
  - apply list_lookup_insert_eq. lia.
  - exists ln. rewrite list_lookup_insert_ne by lia. done.
Qed.

Create HintDb still.

#[local] Hint Resolve still_ret still_raise still_gets still_emit
  still_get_unique_label still_code_gen_method still_define
  still_push_symbol still_pop_symbol still_write_chars : still.

(** Steps of a termination proof, one per kind of computation that a
    sequence begins with. *)
Ltac h_still :=
  eapply halts_bind;
  [ apply still_halts; [solve [auto with still] | assumption]
  | intros ? ? (? & ? & ?) ].

Ltac h_expect :=
  eapply halts_bind;
  [ apply expect_halts; [assumption | set_solver]
  | intros ? ? (? & ? & ?) ].

Ltac h_advance :=
  eapply halts_bind;
  [ apply advance_halts; assumption
  | intros ? ? (? & ? & ?) ].

Ltac h_gets :=
  unfold match_, current_value, current_type, lookup; apply halts_bind_gets.

Ltac h_call H :=
  eapply halts_bind;
  [ apply H; [assumption | lia]
  | intros ? ? (? & ? & ?) ].

(** A sequence whose first part is a compound computation, proved on its
    own not to move the cursor backwards. *)
Ltac h_sub :=
  match goal with
  | |- halts _ _ ?s => eapply (halts_bind (post_le s)); [| intros ? ? (? & ? & ?)]
  end.

Ltac h_post := unfold post_le, post_lt, post_eq; split; [assumption | lia].

Ltac h_done := apply halts_ret; h_post.

Ltac h_last tac :=
  eapply halts_weaken; [tac | intros ? (? & ? & ?); h_post].

Ltac h_last_still :=
  h_last ltac:(apply still_halts; [solve [auto with still] | assumption]).

Ltac h_last_expect :=
  h_last ltac:(apply expect_halts; [assumption | set_solver]).

Ltac h_last_call H := h_last ltac:(apply H; [assumption | lia]).

Lemma expressions_halt f :
  forall st, wf st ->
  (4 * rem st + 3 <= f -> halts (post_le st) (compile_expression f) st) /\
  (4 * rem st + 1 <= f -> halts (post_le st) (compile_expression_loop f) st) /\
  (4 * rem st + 2 <= f -> halts (post_le st) (compile_term f) st) /\
  (4 * rem st + 1 <= f -> halts (post_le st) (compile_subroutine_call f) st) /\
  (4 * rem st + 4 <= f -> halts (post_le st) (compile_expression_list f) st) /\
  (forall c, 4 * rem st + 1 <= f ->
     halts (post_le st) (compile_expression_list_loop f c) st).
Proof.
  induction f as [|f IH]; intros st Hwf.
  { split; [|split; [|split; [|split; [|split]]]]; try intros c; intros; lia. }
  assert (IHe : forall s, wf s -> 4 * rem s + 3 <= f ->
                halts (post_le s) (compile_expression f) s) by (intros; by apply IH).
  assert (IHl : forall s, wf s -> 4 * rem s + 1 <= f ->
                halts (post_le s) (compile_expression_loop f) s) by (intros; by apply IH).
  assert (IHt : forall s, wf s -> 4 * rem s + 2 <= f ->
                halts (post_le s) (compile_term f) s) by (intros; by apply IH).
  assert (IHc : forall s, wf s -> 4 * rem s + 1 <= f ->
                halts (post_le s) (compile_subroutine_call f) s) by (intros; by apply IH).
  assert (IHel : forall s, wf s -> 4 * rem s + 4 <= f ->
                halts (post_le s) (compile_expression_list f) s) by (intros; by apply IH).
  assert (IHell : forall c s, wf s -> 4 * rem s + 1 <= f ->
                halts (post_le s) (compile_expression_list_loop f c) s)
    by (intros; by apply IH).
  clear IH. split; [|split; [|split; [|split; [|split]]]].
  - intros Hf. cbn [compile_expression]. h_call IHt. h_last_call IHl.
  - intros Hf. cbn [compile_expression_loop]. h_gets.
    destruct (existsb _ binary_ops) eqn:Hop; [|h_done].
    apply not_end_match in Hop; [|done|unfold binary_ops; set_solver].
    h_gets. h_advance. h_call IHt. h_still. h_last_call IHl.
  - intros Hf. cbn [compile_term]. h_gets.
    destruct (decide (_ = INT_CONST)).
    { h_gets. h_still. destruct (int _); [|apply halts_raise].
      h_still. h_last ltac:(apply advance_halts; assumption). }
    destruct (decide (_ = STRING_CONST)).
    { h_gets. h_still. h_still. h_still.
      h_last ltac:(apply advance_halts; assumption). }
    h_gets. destruct (existsb _ ["true"; "false"; "null"; "this"]).
    { h_gets. eapply halts_bind.
      { apply still_halts; [|assumption].
        destruct (String.eqb _ "true");
          [apply still_bind; [|intros ?]; auto with still|].
        destruct (existsb _ _); [auto with still|].
        destruct (String.eqb _ "this"); auto with still. }
      intros ? ? (? & ? & ?). h_last ltac:(apply advance_halts; assumption). }
    h_gets. destruct (existsb _ ["-"; "~"]) eqn:Hop.
    { apply not_end_match in Hop; [|done|set_solver].
      h_gets. h_advance. h_call IHt. h_last_still. }
    destruct (decide (_ = IDENTIFIER)) as [Hid|_].
    { assert (1 <= rem st) by (apply not_end_type; [done | by rewrite Hid]).
      h_gets. h_advance. h_gets.
      destruct (existsb _ ["["]).
      { h_gets. h_advance. h_call IHe. h_expect. h_still. h_still. h_still.
        h_last_still. }
      h_gets. destruct (existsb _ ["("; "."]).
      { eapply halts_bind.
        { apply step_back_halts; [assumption|]. unfold rem in *. lia. }
        intros ? ? (? & ? & ?). h_last_call IHc. }
      h_gets. h_last_still. }
    h_gets. destruct (existsb _ ["("]) eqn:Hpar; [|h_done].
    apply not_end_match in Hpar; [|done|set_solver].
    h_advance. h_call IHe. h_expect. h_done.
  - intros Hf. cbn [compile_subroutine_call]. h_expect. h_gets.
    eapply halts_bind.
    { destruct (existsb _ ["."]).
      - eapply halts_bind; [apply advance_halts; assumption|].
        intros ? ? (? & ? & ?). h_expect. h_gets.
        destruct (SymbolTable.lookup _ _).
        + h_still. apply halts_ret.
          instantiate (1 := post_le st). h_post.
        + h_done.
      - h_still. h_gets. h_done. }
    intros ? ? (? & ? & ?). h_expect. h_call IHel. h_expect. h_last_still.
  - intros Hf. cbn [compile_expression_list]. h_gets.
    destruct (existsb _ [")"]); [h_done|]. h_call IHe. h_last_call IHell.
  - intros c Hf. cbn [compile_expression_list_loop]. h_gets.
    destruct (existsb _ [","]) eqn:Hop; [|h_done].
    apply not_end_match in Hop; [|done|set_solver].
    h_advance. h_call IHe. h_last_call IHell.
Qed.

Lemma compile_expression_halts f st :
  wf st -> 4 * rem st + 3 <= f -> halts (post_le st) (compile_expression f) st.
Proof. intros Hwf. by apply expressions_halt. Qed.

Lemma compile_subroutine_call_halts f st :
  wf st -> 4 * rem st + 1 <= f ->
  halts (post_le st) (compile_subroutine_call f) st.
Proof. intros Hwf. by apply expressions_halt. Qed.

Lemma compile_let_halts f st :
  wf st -> 4 * rem st <= f -> halts (post_lt st) (compile_let f) st.
Proof.
  intros Hwf Hf. unfold compile_let. h_expect. h_expect. h_gets. h_gets.
  destruct (existsb _ ["["]).
  - h_advance. h_call compile_expression_halts. h_expect. h_still. h_still.
    h_expect. h_call compile_expression_halts. h_expect. h_still. h_still.
    h_still. h_last_still.
  - h_expect. h_call compile_expression_halts. h_expect. h_last_still.
Qed.

Lemma compile_do_halts f st :
  wf st -> 4 * rem st <= f -> halts (post_lt st) (compile_do f) st.
Proof.
  intros Hwf Hf. unfold compile_do. h_expect.
  h_call compile_subroutine_call_halts. h_still. h_expect. h_done.
Qed.

Lemma compile_return_halts f st :
  wf st -> 4 * rem st <= f -> halts (post_lt st) (compile_return f) st.
Proof.
  intros Hwf Hf. unfold compile_return. h_expect. h_gets.
  h_sub.
  { destruct (existsb _ [";"]); cbn [negb].
    - h_last_still.
    - h_last_call compile_expression_halts. }
  h_expect. h_last_still.
Qed.

Lemma statements_halt f :
  forall st, wf st ->
  (4 * rem st + 2 <= f -> halts (post_le st) (compile_statements f) st) /\
  (4 * rem st + 1 <= f -> halts (post_lt st) (compile_if f) st) /\
  (4 * rem st + 1 <= f -> halts (post_lt st) (compile_while f) st).
Proof.
  induction f as [|f IH]; intros st Hwf.
  { split; [|split]; intros; lia. }
  assert (IHs : forall s, wf s -> 4 * rem s + 2 <= f ->
                halts (post_le s) (compile_statements f) s) by (intros; by apply IH).
  assert (IHi : forall s, wf s -> 4 * rem s + 1 <= f ->
                halts (post_lt s) (compile_if f) s) by (intros; by apply IH).
  assert (IHw : forall s, wf s -> 4 * rem s + 1 <= f ->
                halts (post_lt s) (compile_while f) s) by (intros; by apply IH).
  clear IH. split; [|split].
  - intros Hf. cbn [compile_statements]. h_gets.
    destruct (existsb _ _) eqn:Hm; [|h_done]. h_gets.
    eapply halts_bind with (Q1 := post_lt st).
    { destruct (String.eqb _ "let") eqn:E1;
        [apply compile_let_halts; [assumption | lia]|].
      destruct (String.eqb _ "if") eqn:E2; [apply IHi; [assumption | lia]|].
      destruct (String.eqb _ "while") eqn:E3; [apply IHw; [assumption | lia]|].
      destruct (String.eqb _ "do") eqn:E4;
        [apply compile_do_halts; [assumption | lia]|].
      destruct (String.eqb _ "return") eqn:E5;
        [apply compile_return_halts; [assumption | lia]|].
      cbn [existsb] in Hm. rewrite E1, E2, E3, E4, E5 in Hm. discriminate. }
    intros ? ? (? & ? & ?). h_last_call IHs.
  - intros Hf. cbn [compile_if]. h_expect. h_expect.
    h_call compile_expression_halts. h_expect. h_still. h_still. h_still.
    h_still. h_expect. h_call IHs. h_expect. h_still. h_still. h_gets.
    h_sub.
    { destruct (existsb _ ["else"]); [|h_done].
      h_advance. h_expect. h_call IHs. h_expect. h_done. }
    h_last_still.
  - intros Hf. cbn [compile_while]. h_expect. h_expect. h_still. h_still.
    h_still. h_call compile_expression_halts. h_expect. h_still. h_still.
    h_expect. h_call IHs. h_expect. h_still. h_last_still.
Qed.

Lemma compile_statements_halts f st :
  wf st -> 4 * rem st + 2 <= f -> halts (post_le st) (compile_statements f) st.
Proof. intros Hwf. by apply statements_halt. Qed.

Lemma define_names_loop_halts f var_type kind :
  forall st, wf st -> rem st + 1 <= f ->
  halts (post_le st) (define_names_loop f var_type kind) st.
Proof.
  induction f as [|f IH]; intros st Hwf Hf; [lia|].
  cbn [define_names_loop]. h_expect. h_still. h_gets.
  destruct (existsb _ [","]); cbn [negb]; [|h_done].
  h_advance. h_last_call IH.
Qed.

Lemma parameter_loop_halts f :
  forall st, wf st -> rem st + 1 <= f -> halts (post_le st) (parameter_loop f) st.
Proof.
  induction f as [|f IH]; intros st Hwf Hf; [lia|].
  cbn [parameter_loop]. h_gets. h_advance. h_expect. h_still. h_gets.
  destruct (existsb _ [","]); cbn [negb]; [|h_done].
  h_advance. h_last_call IH.
Qed.

Lemma compile_var_dec_halts f st :
  wf st -> rem st <= f -> halts (post_lt st) (compile_var_dec f) st.
Proof.
  intros Hwf Hf. unfold compile_var_dec. h_expect. h_gets. h_advance.
  h_call define_names_loop_halts. h_expect. h_done.
Qed.

Lemma var_decs_halts f :
  forall st, wf st -> rem st + 1 <= f -> halts (post_le st) (var_decs f) st.
Proof.
  induction f as [|f IH]; intros st Hwf Hf; [lia|].
  cbn [var_decs]. h_gets. destruct (existsb _ ["var"]); [|h_done].
  eapply (halts_bind (post_lt st));
    [apply compile_var_dec_halts; [assumption | lia] | intros ? ? (? & ? & ?)].
  h_last_call IH.
Qed.

Lemma compile_class_var_dec_halts f st :
  wf st -> 1 <= rem st -> rem st <= f ->
  halts (post_lt st) (compile_class_var_dec f) st.
Proof.
  intros Hwf Hrem Hf. unfold compile_class_var_dec. h_gets. h_advance. h_gets.
  h_advance. h_call define_names_loop_halts. h_expect. h_done.
Qed.

Lemma class_var_decs_halts f :
  forall st, wf st -> rem st + 1 <= f -> halts (post_le st) (class_var_decs f) st.
Proof.
  induction f as [|f IH]; intros st Hwf Hf; [lia|].
  cbn [class_var_decs]. h_gets.
  destruct (existsb _ ["static"; "field"]) eqn:Hm; [|h_done].
  apply not_end_match in Hm; [|done|set_solver].
  eapply (halts_bind (post_lt st));
    [apply compile_class_var_dec_halts; [assumption | lia..]
    | intros ? ? (? & ? & ?)].
  h_last_call IH.
Qed.

Lemma still_subroutine_entry subroutine_type : still (subroutine_entry subroutine_type).
Proof.
  unfold subroutine_entry.
  apply still_bind; [auto with still | intros cn].
  apply still_bind; [auto with still | intros sn].
  apply still_bind; [auto with still | intros nlocals].
  apply still_bind; [auto with still | intros _].
  destruct (String.eqb _ "method").
  { apply still_bind; [auto with still | intros _; auto with still]. }
  destruct (String.eqb _ "constructor"); [|auto with still].
  apply still_bind; [auto with still | intros nfields].
  apply still_bind; [auto with still | intros _].
  apply still_bind; [auto with still | intros _; auto with still].
Qed.

Lemma still_enter_subroutine subroutine_type : still (enter_subroutine subroutine_type).
Proof.
  unfold enter_subroutine.
  apply still_bind; [by apply still_modify | intros _].
  destruct (String.eqb _ _); [|auto with still].
  apply still_bind; [auto with still | intros cn; auto with still].
Qed.

#[local] Hint Resolve still_subroutine_entry still_enter_subroutine : still.

Lemma compile_subroutine_dec_halts f st :
  wf st -> 4 * rem st + 2 <= f ->
  halts (post_lt st) (compile_subroutine_dec f) st.
Proof.
  intros Hwf Hf. unfold compile_subroutine_dec.
  eapply (halts_bind (post_lt st)).
  { unfold subroutine_header. h_gets. h_advance. h_gets. h_advance. h_expect.
    eapply halts_bind;
      [apply still_halts; [by apply still_modify | assumption]
      | intros ? ? (? & ? & ?)].
    h_expect. h_done. }
  intros ? ? (? & ? & ?). h_still.
  h_sub.
  { unfold subroutine_decls. h_sub.
    { unfold compile_parameter_list. h_gets.
      destruct (existsb _ [")"]); cbn [negb]; [h_done|].
      h_last_call parameter_loop_halts. }
    h_expect. h_expect. h_last_call var_decs_halts. }
  h_still. h_call compile_statements_halts. h_expect. h_done.
Qed.

Lemma subroutine_decs_halts f :
  forall st, wf st -> 4 * rem st + 3 <= f ->
  halts (post_le st) (subroutine_decs f) st.
Proof.
  induction f as [|f IH]; intros st Hwf Hf; [lia|].
  cbn [subroutine_decs]. h_gets.
  destruct (existsb _ _); [|h_done].
  eapply (halts_bind (post_lt st));
    [apply compile_subroutine_dec_halts; [assumption | lia]
    | intros ? ? (? & ? & ?)].
  h_last_call IH.
Qed.

Lemma compile_class_halts f st :
  wf st -> 4 * rem st + 3 <= f -> halts (post_le st) (compile_class f) st.
Proof.
  intros Hwf Hf. unfold compile_class. h_expect. h_expect.
  eapply halts_bind;
    [apply still_halts; [by apply still_modify | assumption]
    | intros ? ? (? & ? & ?)].
  h_expect. h_gets.
  eapply halts_bind;
    [apply still_halts; [by apply still_modify | assumption]
    | intros ? ? (? & ? & ?)].
  h_call class_var_decs_halts. h_call subroutine_decs_halts. h_expect. h_done.
Qed.

Lemma parse_halts f st :
  wf st -> 4 * rem st + 3 <= f -> parse f st <> Timeout.
Proof.
  intros Hwf Hf. unfold parse.
  assert (H : halts (fun _ => True)
    (compile_class f ;; g <- gets code_gen ;;
     match g with
     | Some g => ret (CodeGenerator.get_code g)
     | None => raise AttributeError
     end) st).
  { h_call compile_class_halts. h_gets.
    destruct (code_gen _); [by apply halts_ret | apply halts_raise]. }
  apply H.
Qed.

(** The state in which the parser starts on the tokens of a source. *)
Lemma wf_init toks ln :
  wf (init (toks ++ [mkToken EOF "" ln])) /\
  rem (init (toks ++ [mkToken EOF "" ln])) = List.length toks.
Proof.
  unfold wf, rem, len, init. cbn [tokens pos current_token].
  rewrite length_app. cbn [List.length Z.to_nat].
  split; [|lia]. split; [lia|]. split.
  - destruct toks; reflexivity.
  - exists ln. rewrite lookup_app_r by lia.
    by replace (List.length toks + 1 - 1 - List.length toks) with 0 by lia.
Qed.

End ParserFacts.

(** * The claims *)

Import ParserFacts.

(** ** The compiler is total *)

Lemma tokenize_ends_with_EOF code toks :
  Tokenizer.tokenize code = Some toks ->
  exists l ln, toks = l ++ [mkToken EOF "" ln].
Proof.
  unfold Tokenizer.tokenize. destruct (Tokenizer.tokenize_loop _ _) as [tk|];
    [|discriminate].
  intros H. injection H as <-. eauto.
Qed.

(** With enough fuel the compiler returns or raises on every source. *)
Theorem compile_total code :
  exists fuel, forall fuel', fuel <= fuel' -> compile fuel' code <> Timeout.
Proof.
  destruct (TokenizerFacts.tokenize_total code) as [toks Ht].
  destruct (tokenize_ends_with_EOF code toks Ht) as (l & ln & ->).
  destruct (wf_init l ln) as [Hwf Hrem].
  exists (4 * List.length l + 3). intros fuel' Hle. unfold compile. rewrite Ht.
  destruct (compile_class_halts fuel' _ Hwf ltac:(lia)) as [Hne _].
  destruct (Parser.compile_class fuel' _) as [[[] st]|e|]; [|done|done].
  destruct (Parser.code_gen st); done.
Qed.

(** More fuel does not change what the compiler returns or raises. *)
Theorem compile_fuel_mono n m code :
  n <= m -> compile n code <> Timeout -> compile m code = compile n code.
Proof.
  intros Hle Hne. unfold compile in *.
  destruct (Tokenizer.tokenize code) as [toks|]; [|done].
  destruct (fuel_mono_compile_class n m Hle (Parser.init toks)) as [E|E].
  - rewrite E in Hne. done.
  - by rewrite E.
Qed.

Theorem compile_file_total input_file output_file w :
  exists fuel, forall fuel', fuel <= fuel' ->
    (compile_file fuel' input_file output_file w).2 <> Timeout.
Proof.
  unfold compile_file. destruct (files w !! input_file) as [code|];
    [|exists 0; done].
  destruct (TokenizerFacts.tokenize_total code) as [toks Ht]. rewrite Ht.
  destruct (tokenize_ends_with_EOF code toks Ht) as (l & ln & ->).
  destruct (wf_init l ln) as [Hwf Hrem].
  exists (4 * List.length l + 3). intros fuel' Hle.
  pose proof (parse_halts fuel' _ Hwf ltac:(lia)) as Hne.
  destruct (Parser.parse fuel' _) as [[vm st]|e|]; done.
Qed.

Theorem compile_file_fuel_mono n m input_file output_file w :
  n <= m ->
  (compile_file n input_file output_file w).2 <> Timeout ->
  compile_file m input_file output_file w = compile_file n input_file output_file w.
Proof.
  intros Hle Hne. unfold compile_file in *.
  destruct (files w !! input_file) as [code|]; [|done].
  destruct (Tokenizer.tokenize code) as [toks|]; [|done].
  destruct (fuel_mono_parse n m Hle (Parser.init toks)) as [E|E].
  - rewrite E in Hne. done.
  - by rewrite E.
Qed.

(** ** Terms *)

(** The tokens at which [compile_term] takes one of its branches. *)
Definition begins_term (tok : Token) : bool :=
  bool_decide (tok_type tok ∈ [INT_CONST; STRING_CONST; IDENTIFIER]) ||
  existsb (String.eqb (tok_value tok))
    ["true"; "false"; "null"; "this"; "-"; "~"; "("].

(** [compile_term] at the keyword [true], whatever its type tag is unless
    it is a constant: the constant pushed is 1. *)
Lemma compile_term_true fuel st g :
  Parser.code_gen st = Some g ->
  tok_value (Parser.current_token st) = "true" ->
  tok_type (Parser.current_token st) <> INT_CONST ->
  tok_type (Parser.current_token st) <> STRING_CONST ->
  Parser.compile_term (S fuel) st =
  Parser.advance
    (Parser.set_code_gen
       (Some (CodeGenerator.write "not"
                (CodeGenerator.write "push constant 1" g))) st).
Proof.
  intros Hg Hv Hi Hs. cbn [Parser.compile_term].
  unfold Parser.bind at 1. unfold Parser.current_type at 1. unfold Parser.gets at 1.
  destruct (decide _) as [E|_]; [done|]. destruct (decide _) as [E|_]; [done|].
  unfold Parser.bind, Parser.match_, Parser.current_value, Parser.gets.
  rewrite Hv. cbn. rewrite Hv. cbn. unfold Parser.emit. rewrite Hg. cbn.
  reflexivity.
Qed.

Definition src_true : string :=
  "class A { function boolean f() { return true; } }".

(** C1 (the code departs from it): the keyword constant [true] is compiled
    to [push constant 1] followed by [not], and not to [push constant 0]
    followed by [not]. *)
Theorem true_pushes_constant_1 :
  compile 50 src_true =
  Ok ["function A.f 0"; "push constant 1"; "not"; "return"].
Proof. vm_compute. reflexivity. Qed.

(** C10: at a token that begins no term, [compile_term] returns without
    an error and leaves the whole state of the parser, the cursor and the
    emitted lines included, as it was. *)
Theorem compile_term_no_term fuel st :
  begins_term (Parser.current_token st) = false ->
  Parser.compile_term (S fuel) st = Ok (tt, st).
Proof.
  unfold begins_term. intros H.
  apply orb_false_iff in H as [Hty Hv]. apply bool_decide_eq_false in Hty.
  cbn [existsb] in Hv. repeat (apply orb_false_iff in Hv as [? Hv]).
  cbn [Parser.compile_term].
  unfold Parser.bind, Parser.match_, Parser.current_value, Parser.current_type,
    Parser.gets.
  destruct (decide _) as [E|_]; [rewrite E in Hty; set_solver|].
  destruct (decide _) as [E|_]; [rewrite E in Hty; set_solver|].
  repeat first
    [ progress cbn [existsb orb]
    | progress
        (repeat match goal with
                | H : String.eqb _ _ = false |- _ => rewrite H
                end)
    | destruct (decide _) as [E|_]; [rewrite E in Hty; set_solver|] ].
  reflexivity.
Qed.

Definition st_semicolon : Parser.t :=
  Parser.init [mkToken SYMBOL ";" 1; mkToken EOF "" 1].

Lemma compile_term_no_term_witness :
  begins_term (Parser.current_token st_semicolon) = false /\
  Parser.compile_term 1 st_semicolon = Ok (tt, st_semicolon).
Proof.
  split; [reflexivity | apply (compile_term_no_term 0 st_semicolon); reflexivity].
Defined.

(** ** The driver *)

(** C9: when the compilation of a file fails with an error, nothing is
    written: the files, the one at the output path included, are as they
    were before. *)
Theorem compile_file_error_writes_nothing fuel input_file output_file w w' e :
  compile_file fuel input_file output_file w = (w', Err e) ->
  w' = w /\ files w' !! output_file = files w !! output_file.
Proof.
  unfold compile_file. intros H.
  destruct (files w !! input_file) as [code|];
    [|injection H as <- _; done].
  destruct (Tokenizer.tokenize code) as [tokens|]; [|discriminate].
  destruct (Parser.parse fuel (Parser.init tokens)) as [[vm_code st]|e'|];
    [discriminate | injection H as <- _; done | discriminate].
Qed.

Definition world_bad : World :=
  {| files := {[ "Main.jack" := "class Main { function }";
                 "Main.vm" := "old" ]};
     stdout := [] |}.

Lemma compile_file_error_writes_nothing_witness :
  compile_file 50 "Main.jack" "Main.vm" world_bad = (world_bad, Err SyntaxError) /\
  (world_bad = world_bad /\
   files world_bad !! "Main.vm" = files world_bad !! "Main.vm").
Proof.
  split; [vm_compute; reflexivity|].
  apply (compile_file_error_writes_nothing 50 "Main.jack" "Main.vm"
           world_bad world_bad SyntaxError).
  vm_compute. reflexivity.
Defined.

(** ** The symbol table *)

(** The mapping and the counter that [define] uses for a kind. *)
Definition scope_of (kind : SymbolKind) (s : SymbolTable.t) : gmap string Symbol :=
  match kind with
  | STATIC | FIELD => SymbolTable.class_symbols s
  | ARG | VAR => SymbolTable.subroutine_symbols s
  end.

Definition counter_of (kind : SymbolKind) (s : SymbolTable.t) : N :=
  match kind with
  | STATIC => SymbolTable.static_count s
  | FIELD => SymbolTable.field_count s
  | ARG => SymbolTable.arg_count s
  | VAR => SymbolTable.var_count s
  end.

Definition src_redeclared : string :=
  "class A { function int f() { var int x; var boolean x; return x; } }".

(** C7 as stated fails: a second declaration of [x] in the same
    subroutine compiles, and [x] is then the second local. *)
Lemma redeclaration_compiles :
  compile 50 src_redeclared = Ok ["function A.f 1"; "push local 1"; "return"] /\
  SymbolTable.lookup "x"
    (SymbolTable.define "x" "boolean" VAR
       (SymbolTable.define "x" "int" VAR SymbolTable.init)) =
  Some (mkSymbol "x" "boolean" VAR 1).
Proof. split; vm_compute; reflexivity. Qed.

(** C7, amended: [define] raises no error on a name that is already bound
    in the scope of the kind; it binds the name again, to a symbol of the
    given type and kind at the current value of the counter of the kind,
    and increments that counter. *)
Theorem define_rebinds name type kind s old st :
  scope_of kind s !! name = Some old ->
  Parser.symbol_table st = s ->
  let s' := SymbolTable.define name type kind s in
  Parser.define name type kind st = Ok (tt, Parser.set_symbol_table s' st) /\
  scope_of kind s' !! name = Some (mkSymbol name type kind (counter_of kind s)) /\
  counter_of kind s' = (counter_of kind s + 1)%N.
Proof.
  intros _ <-. cbn zeta. split; [reflexivity|].
  destruct kind; cbn; (split; [apply lookup_insert_eq | reflexivity]).
Qed.

Definition st_x_bound : Parser.t :=
  Parser.set_symbol_table
    (SymbolTable.define "x" "int" VAR SymbolTable.init) (Parser.init []).

Lemma define_rebinds_witness :
  scope_of VAR (Parser.symbol_table st_x_bound) !! "x" =
    Some (mkSymbol "x" "int" VAR 0) /\
  Parser.symbol_table st_x_bound = Parser.symbol_table st_x_bound /\
  let s' := SymbolTable.define "x" "boolean" VAR (Parser.symbol_table st_x_bound) in
  Parser.define "x" "boolean" VAR st_x_bound =
    Ok (tt, Parser.set_symbol_table s' st_x_bound) /\
  scope_of VAR s' !! "x" =
    Some (mkSymbol "x" "boolean" VAR
            (counter_of VAR (Parser.symbol_table st_x_bound))) /\
  counter_of VAR s' = (counter_of VAR (Parser.symbol_table st_x_bound) + 1)%N.
Proof.
  split; [vm_compute; reflexivity|]. split; [reflexivity|].
  apply (define_rebinds "x" "boolean" VAR (Parser.symbol_table st_x_bound)
           (mkSymbol "x" "int" VAR 0) st_x_bound);
    [vm_compute; reflexivity | reflexivity].
Defined.

(** ** The tokenizer *)




(** The characters that open no token, no white space and no comment. *)
Definition stray (c : ascii) : bool :=
  negb (Tokenizer.isspace c) && negb (Tokenizer.isdigit c) &&
  negb (Tokenizer.isalpha c) && negb (Ascii.eqb c "_") &&
  negb (Ascii.eqb c Tokenizer.dquote) && negb (Tokenizer.in_SYMBOLS c).

(** C5 as stated fails: the character [#] is skipped and the tokens
    around it are produced. *)
Lemma stray_character_skipped :
  Tokenizer.tokenize "a # b" =
  Some [mkToken IDENTIFIER "a" 1; mkToken IDENTIFIER "b" 1; mkToken EOF "" 1].
Proof. vm_compute. reflexivity. Qed.

(** C5, amended: tokenization raises no error.  An ASCII character that
    is not white space, a digit, a letter, an underscore, a double quote
    or a symbol is skipped where the scanner meets it, without a token:
    the scan goes on behind it, and a source that starts with it has the
    tokens of the rest. *)
Theorem stray_character_is_skipped c r :
  Tokenizer.is_ascii c = true ->
  stray c = true ->
  (forall fuel tk,
     Tokenizer.rest tk = String c r ->
     Tokenizer.tokenize_loop (S fuel) tk =
     Tokenizer.tokenize_loop fuel
       {| Tokenizer.rest := r; Tokenizer.line := Tokenizer.line tk;
          Tokenizer.tokens := Tokenizer.tokens tk |}) /\
  Tokenizer.tokenize (String c r) = Tokenizer.tokenize r /\
  exists toks, Tokenizer.tokenize (String c r) = Some toks.
Proof.
  intros _ Hc. unfold stray in Hc.
  repeat (apply andb_true_iff in Hc as [Hc ?]).
  repeat match goal with
         | H : negb _ = true |- _ => apply negb_true_iff in H
         end.
  assert (Hsl : c <> "/"%char) by (intros ->; discriminate).
  assert (Hstep : forall fuel tk,
     Tokenizer.rest tk = String c r ->
     Tokenizer.tokenize_loop (S fuel) tk =
     Tokenizer.tokenize_loop fuel
       {| Tokenizer.rest := r; Tokenizer.line := Tokenizer.line tk;
          Tokenizer.tokens := Tokenizer.tokens tk |}).
  { intros fuel tk Hrest. cbn [Tokenizer.tokenize_loop]. rewrite Hrest.
    rewrite (TokenizerFacts.skip_nothing _ tk c r Hrest Hc Hsl).
    rewrite Hrest.
    repeat match goal with
           | H : _ = false |- _ => rewrite H
           end.
    reflexivity. }
  split; [exact Hstep|]. split; [|apply TokenizerFacts.tokenize_total].
  unfold Tokenizer.tokenize. rewrite Hstep; reflexivity.
Qed.

Lemma stray_character_is_skipped_witness :
  Tokenizer.is_ascii "#" = true /\
  stray "#" = true /\
  (forall fuel tk,
     Tokenizer.rest tk = String "#" "let" ->
     Tokenizer.tokenize_loop (S fuel) tk =
     Tokenizer.tokenize_loop fuel
       {| Tokenizer.rest := "let"; Tokenizer.line := Tokenizer.line tk;
          Tokenizer.tokens := Tokenizer.tokens tk |}) /\
  Tokenizer.tokenize (String "#" "let") = Tokenizer.tokenize "let" /\
  exists toks, Tokenizer.tokenize (String "#" "let") = Some toks.
Proof.
  split; [reflexivity|]. split; [reflexivity|].
  apply (stray_character_is_skipped "#" "let"); reflexivity.
Defined.

(** ** Labels *)

Definition src_if : string :=
  "class C { function int g() { if (true) { return 1; } else { return 2; } } }".

Definition st_if : Parser.t :=
  Parser.init (default [] (Tokenizer.tokenize src_if)).

Definition st_if_done : Parser.t :=
  match Parser.compile_class 50 st_if with
  | Ok (_, st) => st
  | _ => st_if
  end.

(** C4: in the code of a class, the labels declared by the [label] lines
    are [prefix_n] with a prefix among [IF_FALSE], [IF_END], [WHILE_LOOP]
    and [WHILE_END] and [n] below the final value of the counter of the
    class, which starts at 0; the numbers are pairwise different, and so
    are the labels.  The targets of the [goto] and [if-goto] lines have
    the same form. *)
Theorem labels_unique fuel st u st' :
  Parser.compile_class fuel st = Ok (u, st') ->
  (exists ids : list (string * N),
     labels_of (out st') =
       (fun pn => CodeGenerator.make_label pn.1 pn.2) <$> ids /\
     Forall (fun pn => pn.1 ∈ label_prefixes /\ (pn.2 < ctr st')%N) ids /\
     NoDup (ids.*2)) /\
  NoDup (labels_of (out st')) /\
  Forall (fun target : string => exists (p : string) (n : N),
            target = CodeGenerator.make_label p n /\
            p ∈ label_prefixes /\ (n < ctr st')%N)
    (targets_of (out st')).
Proof.
  intros H. apply compile_class_emits in H as (st0 & l & Ho & Hc & _ & He).
  destruct He as (_ & Hout & _ & Hf & Hm). rewrite Ho in Hout. cbn in Hout.
  rewrite Hc in Hf, Hm. rewrite Hout.
  pose proof (fresh_on_NoDup _ _ Hf) as Hnd.
  split; [|split; [exact Hnd|]].
  - destruct Hf as (ids & [Hl Hp] & ND & R). exists ids.
    split; [exact Hl|]. split; [|exact ND].
    rewrite Forall_forall in *. intros pn Hin. split; [by apply Hp|].
    apply R in Hin. lia.
  - eapply Forall_impl; [exact Hm|].
    intros target (p & n & -> & Hp & Hn). exists p, n.
    split; [reflexivity|]. split; [exact Hp | lia].
Qed.

Lemma labels_unique_witness :
  Parser.compile_class 50 st_if = Ok (tt, st_if_done) /\
  labels_of (out st_if_done) = ["IF_FALSE_0"; "IF_END_1"] /\
  targets_of (out st_if_done) = ["IF_FALSE_0"; "IF_END_1"] /\
  NoDup (labels_of (out st_if_done)).
Proof.
  split; [vm_compute; reflexivity|]. split; [vm_compute; reflexivity|].
  split; [vm_compute; reflexivity|].
  apply (labels_unique 50 st_if tt st_if_done). vm_compute. reflexivity.
Defined.

(** ** Subroutine calls *)

(** The call at the cursor has the form [id(...)]: the current token is an
    identifier and the token that follows it is not a dot. *)
Definition implicit_self_call (st : Parser.t) : bool :=
  match Parser.expect [IDENTIFIER] None st with
  | Ok (_, st1) => negb (String.eqb (tok_value (Parser.current_token st1)) ".")
  | _ => false
  end.



(** The code of a call [id(args)] that compiles: [push pointer 0], the
    code of the arguments, and [call C.id N+1] for the number [N] that
    [compile_expression_list] returns. *)
Lemma implicit_call_code fuel st u st' :
  implicit_self_call st = true ->
  Parser.compile_subroutine_call fuel st = Ok (u, st') ->
  exists fuel' sa sb n args,
    fuel = S fuel' /\
    Parser.compile_expression_list fuel' sa = Ok (n, sb) /\
    out sb = out sa ++ args /\
    out st' =
      out st ++ ["push pointer 0"] ++ args ++
      [CodeGenerator.call_cmd
         (Parser.class_name st +:+ "." +:+ tok_value (Parser.current_token st))
         (1 + n)].
Proof.
  intros Himp H. destruct fuel as [|fuel]; [discriminate|].
  cbn [Parser.compile_subroutine_call] in H.
  apply bind_Ok in H as (tok & s1 & H1 & H).
  unfold implicit_self_call in Himp. rewrite H1 in Himp.
  apply negb_true_iff in Himp.
  apply bind_Ok in H as (b & s2 & H2 & H).
  apply gets_Ok in H2 as [-> ->]. cbn [existsb] in H. rewrite Himp in H.
  cbn [orb] in H.
  apply bind_Ok in H as (callee & s3 & Hc & H).
  apply bind_Ok in Hc as ([] & s4 & Hpush & Hc).
  apply bind_Ok in Hc as (cn & s5 & Hcn & Hc).
  apply gets_Ok in Hcn as [-> ->]. apply ret_Ok in Hc as [-> ->].
  inv_binds H.
  match goal with
  | H : Parser.compile_expression_list _ ?sa = Ok (?n, ?sb) |- _ =>
      pose proof H as Hel;
      apply sound_expressions in H as (args & _ & Hargs & _);
      exists fuel, sa, sb, n, args
  end.
  split; [reflexivity|]. split; [exact Hel|]. split; [exact Hargs|].
  pose proof (expect_Ok _ _ _ _ _ H1) as (-> & _ & _).
  prim_facts. cbn [fst snd] in *.
  repeat match goal with H : out _ = _ |- _ => rewrite H; clear H end.
  repeat match goal with H : Parser.class_name _ = _ |- _ => rewrite H; clear H end.
  rewrite <- !app_assoc. reflexivity.
Qed.

(** ** Array assignment *)

(** The statement at the cursor is [let a[...]]: the name [a], if so. *)
Definition array_let (st : Parser.t) : option string :=
  match
    Parser.bind (Parser.expect [KEYWORD] (Some "let")) (fun _ =>
    Parser.bind (Parser.expect [IDENTIFIER] None) (fun tok =>
    Parser.bind (Parser.match_ ["["]) (fun b =>
    Parser.ret (tok_value tok, b)))) st
  with
  | Ok ((a, true), _) => Some a
  | _ => None
  end.

Definition src_array_let : string :=
  "class A { function void f(Array a, int i) { let a[i] = 7; return; } }".

(** C3 as stated fails: the index is compiled first, and the base is
    pushed after it. *)
Lemma array_let_pushes_base_after_index :
  compile 50 src_array_let =
  Ok ["function A.f 0";
      "push argument 1"; "push argument 0"; "add"; "push constant 7";
      "pop temp 0"; "pop pointer 1"; "push temp 0"; "pop that 0";
      "push constant 0"; "return"] /\
  compile 50 src_array_let <>
  Ok ["function A.f 0";
      "push argument 0"; "push argument 1"; "add"; "push constant 7";
      "pop temp 0"; "pop pointer 1"; "push temp 0"; "pop that 0";
      "push constant 0"; "return"].
Proof.
  assert (H : compile 50 src_array_let =
    Ok ["function A.f 0";
        "push argument 1"; "push argument 0"; "add"; "push constant 7";
        "pop temp 0"; "pop pointer 1"; "push temp 0"; "pop that 0";
        "push constant 0"; "return"]) by (vm_compute; reflexivity).
  split; [exact H|]. rewrite H. discriminate.
Qed.

(** C3, amended: for [let a[i] = e] the emitted lines are the code of
    [i], then the push of the base [a], then [add], then the code of [e],
    then [pop temp 0; pop pointer 1; push temp 0; pop that 0]: the base is
    pushed after the index expression has been compiled. *)
Theorem array_let_code fuel st a u st' :
  array_let st = Some a ->
  Parser.compile_let fuel st = Ok (u, st') ->
  exists sym sa sb sc sd idx rhs,
    SymbolTable.lookup a (Parser.symbol_table st) = Some sym /\
    Parser.compile_expression fuel sa = Ok (tt, sb) /\
    out sa = out st /\ out sb = out sa ++ idx /\
    Parser.compile_expression fuel sc = Ok (tt, sd) /\
    out sd = out sc ++ rhs /\
    out st' =
      out st ++ idx ++
      [CodeGenerator.push_cmd (Parser._segment_for (sym_kind sym)) (sym_index sym);
       "add"] ++
      rhs ++ ["pop temp 0"; "pop pointer 1"; "push temp 0"; "pop that 0"].
Proof.
  unfold array_let, Parser.compile_let. intros Ha H.
  apply bind_Ok in H as (t1 & s1 & H1 & H).
  apply bind_Ok in H as (tok & s2 & H2 & H).
  apply bind_Ok in H as (symbol & s3 & H3 & H).
  apply bind_Ok in H as (b & s4 & H4 & H).
  apply gets_Ok in H3 as [-> ->]. apply gets_Ok in H4 as [Hb ->].
  unfold Parser.bind in Ha. rewrite H1, H2 in Ha.
  unfold Parser.match_, Parser.gets, Parser.ret in Ha. rewrite <- Hb in Ha.
  destruct b; [|discriminate]. injection Ha as <-.
  assert (Hst : Parser.symbol_table s2 = Parser.symbol_table st).
  { apply expect_Ok in H1 as (_ & _ & p1 & k1 & ->).
    apply expect_Ok in H2 as (_ & _ & p2 & k2 & ->). reflexivity. }
  rewrite Hst in H. clear Hb.
  apply bind_Ok in H as ([] & sa & Hadv & H).
  apply bind_Ok in H as ([] & sb & Hidx & H).
  apply bind_Ok in H as (t3 & s5 & H5 & H).
  apply bind_Ok in H as ([] & s6 & Hpush & H).
  destruct (SymbolTable.lookup (tok_value tok) (Parser.symbol_table st))
    as [sym|] eqn:Hsym; [|discriminate].
  cbn [Parser.push_symbol] in Hpush.
  apply bind_Ok in H as ([] & s7 & Hadd & H).
  apply bind_Ok in H as (t4 & sc & H6 & H).
  apply bind_Ok in H as ([] & sd & Hrhs & H).
  apply bind_Ok in H as (t5 & s8 & H7 & H).
  inv_binds H.
  pose proof Hidx as Hidx'. pose proof Hrhs as Hrhs'.
  apply sound_compile_expression in Hidx' as (idx & _ & Oidx & _).
  apply sound_compile_expression in Hrhs' as (rhs & _ & Orhs & _).
  exists sym, sa, sb, sc, sd, idx, rhs.
  split; [reflexivity|]. split; [exact Hidx|].
  prim_facts.
  split; [congruence|]. split; [exact Oidx|]. split; [exact Hrhs|].
  split; [exact Orhs|].
  repeat match goal with H : out _ = _ |- _ => rewrite H; clear H end.
  rewrite <- !app_assoc. reflexivity.
Qed.

Definition st_let : Parser.t :=
  Parser.set_code_gen (Some (CodeGenerator.init "A"))
    (Parser.set_symbol_table
       (SymbolTable.define "i" "int" VAR
          (SymbolTable.define "a" "Array" VAR SymbolTable.init))
       (Parser.init (default [] (Tokenizer.tokenize "let a[i + 1] = 7;")))).

Definition st_let_done : Parser.t :=
  match Parser.compile_let 50 st_let with
  | Ok (_, st) => st
  | _ => st_let
  end.

Lemma array_let_code_witness :
  array_let st_let = Some "a" /\
  Parser.compile_let 50 st_let = Ok (tt, st_let_done) /\
  out st_let_done =
    ["push local 1"; "push constant 1"; "add"; "push local 0"; "add";
     "push constant 7";
     "pop temp 0"; "pop pointer 1"; "push temp 0"; "pop that 0"] /\
  exists sym sa sb sc sd idx rhs,
    SymbolTable.lookup "a" (Parser.symbol_table st_let) = Some sym /\
    Parser.compile_expression 50 sa = Ok (tt, sb) /\
    out sa = out st_let /\ out sb = out sa ++ idx /\
    Parser.compile_expression 50 sc = Ok (tt, sd) /\
    out sd = out sc ++ rhs /\
    out st_let_done =
      out st_let ++ idx ++
      [CodeGenerator.push_cmd (Parser._segment_for (sym_kind sym)) (sym_index sym);
       "add"] ++
      rhs ++ ["pop temp 0"; "pop pointer 1"; "push temp 0"; "pop that 0"].
Proof.
  split; [vm_compute; reflexivity|]. split; [vm_compute; reflexivity|].
  split; [vm_compute; reflexivity|].
  apply (array_let_code 50 st_let "a" tt st_let_done); vm_compute; reflexivity.
Defined.

(** ** Methods *)







(** * Further properties *)

(** ** The tokenizer: shape of the token list *)

Module TokenizerMore.
Import Tokenizer TokenizerFacts.

(** The number of line feeds of a text. *)
Fixpoint count_nl (s : string) : N :=
  match s with
  | EmptyString => 0
  | String c r => ((if Ascii.eqb c newline then 1 else 0) + count_nl r)%N
  end.

(** The text has no occurrence of the two characters that close a block
    comment. *)
Fixpoint no_close (s : string) : bool :=
  match s with
  | String c1 ((String c2 _) as s') =>
      negb (Ascii.eqb c1 "*" && Ascii.eqb c2 "/") && no_close s'
  | _ => true
  end.

(** The lexeme of a token fits its kind; the end marker is excluded. *)
Definition tok_ok (tok : Token) : bool :=
  let v := tok_value tok in
  match tok_type tok with
  | KEYWORD => in_KEYWORDS v
  | SYMBOL =>
      match v with
      | String c EmptyString => in_SYMBOLS c
      | _ => false
      end
  | IDENTIFIER =>
      negb (in_KEYWORDS v) &&
      all (fun x => isalnum x || Ascii.eqb x "_") v &&
      head_is (fun x => negb (isdigit x)) v
  | INT_CONST => head_is isdigit v && all isdigit v
  | STRING_CONST => all (fun x => negb (Ascii.eqb x dquote)) v
  | EOF => false
  end.

Definition line_le (a b : Token) : Prop := (tok_line a <= tok_line b)%N.

Lemma append_nil_r (s : string) : s +:+ EmptyString = s.
Proof.
  induction s as [|c s IH]; [reflexivity|].
  change (String c s +:+ "") with (String c (s +:+ "")). by rewrite IH.
Qed.

Lemma span_fst_all p s : all p (span p s).1 = true.
Proof.
  induction s as [|c r IH]; [reflexivity|]. cbn [span].
  destruct (p c) eqn:Hc; [|reflexivity].
  destruct (span p r) as [a b]. cbn in *. by rewrite Hc, IH.
Qed.

Lemma span_head p c r :
  p c = true -> exists a, (span p (String c r)).1 = String c a.
Proof.
  intros Hc. cbn [span]. rewrite Hc. destruct (span p r) as [a b]. by exists a.
Qed.

Lemma skip_block_comment_line s ln : (ln <= (skip_block_comment s ln).2)%N.
Proof.
  revert ln. induction s as [|c1 s IH]; intros ln; [cbn; lia|].
  destruct s as [|c2 r]; [cbn; lia|].
  rewrite skip_block_comment_eq. destruct (_ && _); [cbn; lia|].
  specialize (IH (if Ascii.eqb c1 newline then ln + 1 else ln)%N).
  destruct (Ascii.eqb c1 newline); lia.
Qed.

Lemma skip_line fuel tk tk' :
  _skip_whitespace_and_comments fuel tk = Some tk' ->
  (line tk <= line tk')%N /\ tokens tk' = tokens tk.
Proof.
  revert tk. induction fuel as [|fuel IH]; intros tk; [discriminate|].
  cbn [_skip_whitespace_and_comments].
  destruct (rest tk) as [|c r] eqn:Hrest.
  { intros H. injection H as <-. split; [lia | done]. }
  destruct (isspace c).
  { intros H. apply IH in H as [Hl Ht]. cbn in *.
    split; [destruct (Ascii.eqb c newline); lia | done]. }
  destruct r as [|c2 r2].
  { intros H. injection H as <-. split; [lia | done]. }
  destruct (Ascii.eqb c "/" && Ascii.eqb c2 "/").
  { intros H. apply IH in H as [Hl Ht]. cbn in *. done. }
  destruct (Ascii.eqb c "/" && Ascii.eqb c2 "*").
  { pose proof (skip_block_comment_line r2 (line tk)) as Hb.
    destruct (skip_block_comment r2 (line tk)) as [s' ln'].
    intros H. apply IH in H as [Hl Ht]. cbn in *. split; [lia | done]. }
  intros H. injection H as <-. split; [lia | done].
Qed.

(** The tokens that the main loop adds: well-formed, on lines between the
    line at which it starts and the line at which it ends, in order. *)
Lemma scan_tokens fuel tk tk' :
  tokenize_loop fuel tk = Some tk' ->
  exists l,
    tokens tk' = tokens tk ++ l /\
    Forall (fun t => tok_ok t = true /\ (line tk <= tok_line t <= line tk')%N) l /\
    StronglySorted line_le l /\
    (line tk <= line tk')%N.
Proof.
  revert tk. induction fuel as [|fuel IH]; intros tk; [discriminate|].
  cbn [tokenize_loop].
  assert (Hnil : forall t0, (line tk <= line t0)%N -> tokens t0 = tokens tk ->
    exists l, tokens t0 = tokens tk ++ l /\
      Forall (fun t => tok_ok t = true /\ (line tk <= tok_line t <= line t0)%N) l /\
      StronglySorted line_le l /\ (line tk <= line t0)%N).
  { intros t0 Hl Ht. exists []. rewrite app_nil_r.
    split; [done|]. split; [constructor|]. split; [constructor | done]. }
  destruct (rest tk) as [|c0 r0] eqn:Hrest.
  { intros H. injection H as <-. apply Hnil; [lia | done]. }
  destruct (_skip_whitespace_and_comments _ tk) as [tk1|] eqn:Hskip;
    [|discriminate].
  apply skip_line in Hskip as [Hl1 Ht1].
  destruct (rest tk1) as [|c r] eqn:Hrest1.
  { intros H. injection H as <-. by apply Hnil. }
  assert (Hskipc : tokenize_loop fuel
            {| rest := r; line := line tk1; tokens := tokens tk1 |} = Some tk' ->
    exists l, tokens tk' = tokens tk ++ l /\
      Forall (fun t => tok_ok t = true /\ (line tk <= tok_line t <= line tk')%N) l /\
      StronglySorted line_le l /\ (line tk <= line tk')%N).
  { intros H. apply IH in H as (l & Ht & Hf & Hs & Hl). cbn in *.
    exists l. rewrite Ht, Ht1. split; [done|]. split; [|split; [done | lia]].
    eapply Forall_impl; [exact Hf|]. cbn. intros t [? ?]. split; [done | lia]. }
  assert (Happ : forall ty v r',
    tok_ok (mkToken ty v (line tk1)) = true ->
    tokenize_loop fuel (append tk1 ty v r') = Some tk' ->
    exists l, tokens tk' = tokens tk ++ l /\
      Forall (fun t => tok_ok t = true /\ (line tk <= tok_line t <= line tk')%N) l /\
      StronglySorted line_le l /\ (line tk <= line tk')%N).
  { intros ty v r' Hok H. apply IH in H as (l & Ht & Hf & Hs & Hl). cbn in *.
    exists (mkToken ty v (line tk1) :: l).
    rewrite Ht, Ht1, <- app_assoc. split; [done|].
    split; [|split; [|lia]].
    - constructor; [cbn; split; [done | lia]|].
      eapply Forall_impl; [exact Hf|]. cbn. intros t [? ?]. split; [done | lia].
    - constructor; [done|]. eapply Forall_impl; [exact Hf|].
      unfold line_le. cbn. intros t [? ?]. lia. }
  destruct (Ascii.eqb c dquote).
  { unfold _read_string. rewrite Hrest1.
    pose proof (span_fst_all (fun x => negb (Ascii.eqb x dquote)) r) as Hall.
    destruct (span _ r) as [value r']. apply Happ. exact Hall. }
  destruct (isdigit c) eqn:Hd.
  { unfold _read_number. rewrite Hrest1.
    pose proof (span_fst_all isdigit (String c r)) as Hall.
    destruct (span_head isdigit c r Hd) as [a Ha].
    destruct (span _ _) as [value r']. cbn in Ha, Hall. subst value.
    apply Happ. unfold tok_ok. cbn [tok_type tok_value head_is].
    by rewrite Hd, Hall. }
  destruct (isalpha c || Ascii.eqb c "_") eqn:Ha.
  { unfold _read_identifier. rewrite Hrest1.
    assert (Hp : (fun x => isalnum x || Ascii.eqb x "_") c = true).
    { cbn. unfold isalnum. apply orb_true_iff in Ha as [->| ->]; [done|].
      by rewrite orb_true_r. }
    pose proof (span_fst_all (fun x => isalnum x || Ascii.eqb x "_") (String c r))
      as Hall.
    destruct (span_head _ c r Hp) as [a Hv].
    destruct (span _ _) as [value r']. cbn in Hv, Hall. subst value.
    destruct (in_KEYWORDS (String c a)) eqn:Hk; apply Happ.
    - unfold tok_ok. cbn [tok_type tok_value]. exact Hk.
    - unfold tok_ok. cbn [tok_type tok_value head_is]. by rewrite Hk, Hall, Hd. }
  destruct (in_SYMBOLS c) eqn:Hs; [|exact Hskipc].
  apply Happ. exact Hs.
Qed.

Lemma tokenize_inv code :
  exists l ln,
    tokenize code = Some (l ++ [mkToken EOF "" ln]) /\
    Forall (fun t => tok_ok t = true /\ (1 <= tok_line t <= ln)%N) l /\
    StronglySorted line_le l /\ (1 <= ln)%N.
Proof.
  unfold tokenize.
  destruct (tokenize_loop_total (S (String.length code)) (init code))
    as (tk & l0 & Hloop & _); [cbn; lia|].
  rewrite Hloop. apply scan_tokens in Hloop as (l & Ht & Hf & Hs & Hl).
  cbn in Ht, Hf, Hl. exists l, (line tk). rewrite Ht. auto.
Qed.

End TokenizerMore.

Import TokenizerMore.

Lemma int_digits_all s acc :
  TokenizerFacts.all Tokenizer.isdigit s = true ->
  is_Some (Parser.int_digits s acc).
Proof.
  revert acc. induction s as [|c r IH]; intros acc H; cbn; [eauto|].
  cbn in H. apply andb_true_iff in H as [-> Hr]. by apply IH.
Qed.

(** X1: the token list of every source ends with the end marker, which
    has the empty lexeme, and holds no other token of kind [EOF]. *)
Theorem tokenize_one_EOF code :
  exists l ln,
    Tokenizer.tokenize code = Some (l ++ [mkToken EOF "" ln]) /\
    Forall (fun t => tok_type t <> EOF) l.
Proof.
  destruct (tokenize_inv code) as (l & ln & Ht & Hf & _).
  exists l, ln. split; [exact Ht|].
  eapply Forall_impl; [exact Hf|]. cbn. intros t [Hok _] E.
  unfold tok_ok in Hok. rewrite E in Hok. discriminate.
Qed.

(** X2: in the token list of an ASCII source the lexeme of each token
    fits its kind: a keyword is one of the reserved words, a symbol is one
    character of the symbol set, an identifier is a non-empty run of
    letters, digits and underscores that starts with no digit and is no
    reserved word, an integer constant is a non-empty run of digits, on
    which [int] raises nothing when the run has at most 4300 digits, and a
    string constant holds no double quote. *)
Theorem tokenize_lexemes code :
  TokenizerFacts.all Tokenizer.is_ascii code = true ->
  exists l ln,
    Tokenizer.tokenize code = Some (l ++ [mkToken EOF "" ln]) /\
    Forall (fun t => tok_ok t = true) l /\
    Forall (fun t =>
              tok_type t = INT_CONST ->
              String.length (tok_value t) <= Parser.max_str_digits ->
              is_Some (Parser.int (tok_value t))) l.
Proof.
  intros _.
  destruct (tokenize_inv code) as (l & ln & Ht & Hf & _).
  exists l, ln. split; [exact Ht|]. split.
  - eapply Forall_impl; [exact Hf|]. cbn. by intros t [Hok _].
  - eapply Forall_impl; [exact Hf|]. cbn. intros t [Hok _] E _.
    unfold tok_ok in Hok. rewrite E in Hok.
    apply andb_true_iff in Hok as [Hh Ha]. unfold Parser.int.
    destruct (tok_value t) as [|c r]; [discriminate|]. by apply int_digits_all.
Qed.

Lemma tokenize_lexemes_witness :
  TokenizerFacts.all Tokenizer.is_ascii "let x1 = 007;" = true /\
  Tokenizer.tokenize "let x1 = 007;" =
    Some [mkToken KEYWORD "let" 1; mkToken IDENTIFIER "x1" 1;
          mkToken SYMBOL "=" 1; mkToken INT_CONST "007" 1;
          mkToken SYMBOL ";" 1; mkToken EOF "" 1] /\
  Parser.int "007" = Some 7%N /\
  exists l ln,
    Tokenizer.tokenize "let x1 = 007;" = Some (l ++ [mkToken EOF "" ln]) /\
    Forall (fun t => tok_ok t = true) l /\
    Forall (fun t =>
              tok_type t = INT_CONST ->
              String.length (tok_value t) <= Parser.max_str_digits ->
              is_Some (Parser.int (tok_value t))) l.
Proof.
  split; [reflexivity|]. split; [vm_compute; reflexivity|].
  split; [reflexivity|].
  apply (tokenize_lexemes "let x1 = 007;"). reflexivity.
Defined.

(** X3: the line numbers of the tokens of every source start at 1 or
    above and never decrease along the list, the end marker included. *)
Theorem tokenize_lines_sorted code :
  exists toks,
    Tokenizer.tokenize code = Some toks /\
    StronglySorted line_le toks /\
    Forall (fun t => (1 <= tok_line t)%N) toks.
Proof.
  destruct (tokenize_inv code) as (l & ln & Ht & Hf & Hs & Hl).
  exists (l ++ [mkToken EOF "" ln]). split; [exact Ht|]. split.
  - apply StronglySorted_app_2; [|exact Hs | repeat constructor].
    intros t1 t2 H1 H2. apply list_elem_of_singleton in H2 as ->.
    rewrite Forall_forall in Hf. apply Hf in H1 as [_ H1]. unfold line_le. cbn. lia.
  - apply Forall_app. split; [|by repeat constructor].
    eapply Forall_impl; [exact Hf|]. cbn. intros t [_ ?]. lia.
Qed.

Lemma skip_spaces s :
  forall fuel ln toks,
  TokenizerFacts.all Tokenizer.isspace s = true ->
  String.length s < fuel ->
  Tokenizer._skip_whitespace_and_comments fuel
    {| Tokenizer.rest := s; Tokenizer.line := ln; Tokenizer.tokens := toks |} =
  Some {| Tokenizer.rest := EmptyString;
          Tokenizer.line := (ln + count_nl s)%N;
          Tokenizer.tokens := toks |}.
Proof.
  induction s as [|c r IH]; intros fuel ln toks Hs Hlen;
    (destruct fuel as [|fuel]; [cbn in Hlen; lia|]).
  - cbn. by rewrite N.add_0_r.
  - cbn in Hs. apply andb_true_iff in Hs as [Hc Hr].
    cbn [Tokenizer._skip_whitespace_and_comments Tokenizer.rest]. rewrite Hc.
    cbn [Tokenizer.line Tokenizer.tokens]. rewrite IH; [|done|cbn in Hlen; lia].
    cbn [count_nl]. do 2 f_equal. destruct (Ascii.eqb c Tokenizer.newline); lia.
Qed.

(** X4: a source of white space only has the end marker as its one
    token, on line 1 plus the number of line feeds of the source. *)
Theorem tokenize_white_space s :
  TokenizerFacts.all Tokenizer.isspace s = true ->
  Tokenizer.tokenize s = Some [mkToken EOF "" (1 + count_nl s)].
Proof.
  intros Hs. unfold Tokenizer.tokenize.
  destruct s as [|c r]; [reflexivity|].
  cbn [Tokenizer.tokenize_loop Tokenizer.init Tokenizer.rest].
  unfold Tokenizer.init. rewrite skip_spaces; [|done|lia]. reflexivity.
Qed.

Definition white_lines : string :=
  String " " (String Tokenizer.newline (String "009" (String Tokenizer.newline ""))).

Lemma tokenize_white_space_witness :
  TokenizerFacts.all Tokenizer.isspace white_lines = true /\
  Tokenizer.tokenize white_lines = Some [mkToken EOF "" 3].
Proof.
  split; [reflexivity | apply (tokenize_white_space white_lines); reflexivity].
Defined.

Definition not_dquote (x : ascii) : bool := negb (Ascii.eqb x Tokenizer.dquote).

Lemma read_string_step fuel tk s r :
  TokenizerFacts.all not_dquote s = true ->
  TokenizerFacts.head_is not_dquote r = false ->
  Tokenizer.rest tk = String Tokenizer.dquote (s +:+ r) ->
  Tokenizer.tokenize_loop (S fuel) tk =
  Tokenizer.tokenize_loop fuel
    (Tokenizer.append tk STRING_CONST s
       (match r with String _ r' => r' | EmptyString => EmptyString end)).
Proof.
  intros Hs Hr Hrest. cbn [Tokenizer.tokenize_loop]. rewrite Hrest.
  rewrite (TokenizerFacts.skip_nothing _ tk Tokenizer.dquote (s +:+ r) Hrest);
    [|reflexivity|discriminate].
  rewrite Hrest. cbn [Ascii.eqb]. change (Ascii.eqb Tokenizer.dquote Tokenizer.dquote)
    with true. cbn iota.
  unfold Tokenizer._read_string. rewrite Hrest.
  change (fun x : ascii => negb (Ascii.eqb x Tokenizer.dquote)) with not_dquote.
  by rewrite (TokenizerFacts.span_all not_dquote s r Hs Hr).
Qed.

(** X5: a string literal becomes one string constant with the text
    between the quotes, and a literal that the end of the source cuts off
    becomes the same token, without an error; line feeds inside the
    literal do not advance the line counter. *)
Theorem tokenize_string_literal s :
  TokenizerFacts.all not_dquote s = true ->
  Tokenizer.tokenize (String Tokenizer.dquote (s +:+ String Tokenizer.dquote "")) =
    Some [mkToken STRING_CONST s 1; mkToken EOF "" 1] /\
  Tokenizer.tokenize (String Tokenizer.dquote s) =
    Some [mkToken STRING_CONST s 1; mkToken EOF "" 1].
Proof.
  intros Hs. unfold Tokenizer.tokenize. split.
  - rewrite (read_string_step _ _ s (String Tokenizer.dquote "")); try done.
  - pattern s at 1 2. rewrite <- (append_nil_r s).
    rewrite (read_string_step _ _ s EmptyString); done.
Qed.

Definition two_lines : string := String "a" (String Tokenizer.newline "b").

Lemma tokenize_string_literal_witness :
  TokenizerFacts.all not_dquote two_lines = true /\
  Tokenizer.tokenize (String Tokenizer.dquote two_lines) =
    Some [mkToken STRING_CONST two_lines 1; mkToken EOF "" 1].
Proof.
  split; [reflexivity | apply (tokenize_string_literal two_lines); reflexivity].
Defined.

Lemma skip_block_closed body :
  forall r ln,
  no_close body = true ->
  Tokenizer.skip_block_comment (body +:+ String "*" (String "/" r)) ln =
  (r, (ln + count_nl body)%N).
Proof.
  induction body as [|c1 b IH]; intros r ln Hb.
  - change (EmptyString +:+ String "*" (String "/" r)) with (String "*" (String "/" r)).
    rewrite TokenizerFacts.skip_block_comment_eq. cbn. by rewrite N.add_0_r.
  - change (String c1 b +:+ String "*" (String "/" r))
      with (String c1 (b +:+ String "*" (String "/" r))).
    assert (Hstep : forall ln',
      Tokenizer.skip_block_comment (String c1 (b +:+ String "*" (String "/" r))) ln' =
      Tokenizer.skip_block_comment (b +:+ String "*" (String "/" r))
        (if Ascii.eqb c1 Tokenizer.newline then ln' + 1 else ln')%N /\
      no_close b = true).
    { intros ln'. destruct b as [|c2 b'].
      - change (EmptyString +:+ String "*" (String "/" r))
          with (String "*" (String "/" r)).
        rewrite TokenizerFacts.skip_block_comment_eq.
        change (Ascii.eqb "*" "/") with false. by rewrite andb_false_r.
      - change (String c2 b' +:+ String "*" (String "/" r))
          with (String c2 (b' +:+ String "*" (String "/" r))).
        rewrite TokenizerFacts.skip_block_comment_eq.
        cbn [no_close] in Hb. apply andb_true_iff in Hb as [Hc Hb].
        apply negb_true_iff in Hc. by rewrite Hc. }
    destruct (Hstep ln) as [-> Hb']. rewrite IH by done.
    cbn [count_nl]. f_equal. destruct (Ascii.eqb c1 Tokenizer.newline); lia.
Qed.

(** X6: a block comment is skipped whole, up to the first occurrence of
    its two closing characters, and each line feed in it advances the line
    counter: a source that is one comment has the end marker as its one
    token, on line 1 plus the number of line feeds of the comment. *)
Theorem tokenize_block_comment body :
  no_close body = true ->
  Tokenizer.tokenize (String "/" (String "*" (body +:+ String "*" (String "/" "")))) =
  Some [mkToken EOF "" (1 + count_nl body)].
Proof.
  intros Hb. unfold Tokenizer.tokenize, Tokenizer.init.
  cbn [Tokenizer.tokenize_loop Tokenizer.rest String.length].
  cbn [Tokenizer._skip_whitespace_and_comments Tokenizer.rest Tokenizer.line].
  change (Tokenizer.isspace "/") with false. cbn iota.
  change (Ascii.eqb "/" "/") with true. change (Ascii.eqb "*" "/") with false.
  change (Ascii.eqb "*" "*") with true. cbn [andb]. cbn iota.
  rewrite skip_block_closed by done. reflexivity.
Qed.

Definition comment_body : string :=
  String "a" (String "*" (String Tokenizer.newline "b")).

Lemma tokenize_block_comment_witness :
  no_close comment_body = true /\
  Tokenizer.tokenize
    (String "/" (String "*" (comment_body +:+ String "*" (String "/" "")))) =
  Some [mkToken EOF "" 2].
Proof.
  split; [reflexivity | apply (tokenize_block_comment comment_body); reflexivity].
Defined.

(** X7: a block comment that the source does not close raises nothing:
    its scan stops one character before the end of the text, so the last
    character of the text is left to be scanned as ordinary input, and the
    line feeds before it are counted. *)
Theorem unterminated_block_comment s ln :
  no_close s = true -> s <> EmptyString ->
  exists pre c,
    s = pre +:+ String c "" /\
    Tokenizer.skip_block_comment s ln = (String c "", (ln + count_nl pre)%N).
Proof.
  revert ln. induction s as [|c1 b IH]; intros ln Hs Hne; [done|].
  destruct b as [|c2 b'].
  - exists EmptyString, c1. split; [reflexivity|]. cbn. by rewrite N.add_0_r.
  - rewrite TokenizerFacts.skip_block_comment_eq.
    cbn [no_close] in Hs. apply andb_true_iff in Hs as [Hc Hs].
    apply negb_true_iff in Hc. rewrite Hc.
    destruct (IH (if Ascii.eqb c1 Tokenizer.newline then ln + 1 else ln)%N Hs)
      as (pre & c & Hpre & ->); [done|].
    exists (String c1 pre), c. split.
    + change (String c1 pre +:+ String c "") with (String c1 (pre +:+ String c "")).
      by rewrite <- Hpre.
    + cbn [count_nl]. f_equal. destruct (Ascii.eqb c1 Tokenizer.newline); lia.
Qed.

Lemma unterminated_block_comment_witness :
  no_close comment_body = true /\ comment_body <> EmptyString /\
  Tokenizer.tokenize (String "/" (String "*" comment_body)) =
    Some [mkToken IDENTIFIER "b" 2; mkToken EOF "" 2] /\
  exists pre c,
    comment_body = pre +:+ String c "" /\
    Tokenizer.skip_block_comment comment_body 1 =
      (String c "", (1 + count_nl pre)%N).
Proof.
  split; [reflexivity|]. split; [discriminate|]. split; [vm_compute; reflexivity|].
  apply (unterminated_block_comment comment_body 1); [reflexivity | discriminate].
Defined.

(** ** The symbol table: scopes, indices and counts *)

(** X8: after [define], [lookup] of the defined name gives the new symbol,
    at the former value of the counter of its kind, unless the kind is
    Static or Field and the subroutine scope binds the name, which then
    still shadows it; [lookup] of every other name is as before. *)
Theorem lookup_define name type kind s :
  SymbolTable.lookup name (SymbolTable.define name type kind s) =
    match kind, SymbolTable.subroutine_symbols s !! name with
    | (STATIC | FIELD), Some sym => Some sym
    | _, _ => Some (mkSymbol name type kind (counter_of kind s))
    end /\
  forall name', name' <> name ->
    SymbolTable.lookup name' (SymbolTable.define name type kind s) =
    SymbolTable.lookup name' s.
Proof.
  split.
  - unfold SymbolTable.lookup. destruct kind; cbn.
    + destruct (SymbolTable.subroutine_symbols s !! name); [done|].
      by rewrite lookup_insert_eq.
    + destruct (SymbolTable.subroutine_symbols s !! name); [done|].
      by rewrite lookup_insert_eq.
    + rewrite lookup_insert_eq.
      by destruct (SymbolTable.subroutine_symbols s !! name).
    + rewrite lookup_insert_eq.
      by destruct (SymbolTable.subroutine_symbols s !! name).
  - intros name' Hne. unfold SymbolTable.lookup.
    destruct kind; cbn; by rewrite lookup_insert_ne.
Qed.

(** X9: the symbols of a subroutine do not outlive it: after
    [start_subroutine] a name defined as an Argument or a Local resolves in
    the class scope only, the first Argument and the first Local defined
    next get index 0, and the Static and Field counters and the class
    scope are as before. *)
Theorem start_subroutine_forgets name type kind s :
  kind = ARG \/ kind = VAR ->
  SymbolTable.lookup name
    (SymbolTable.start_subroutine (SymbolTable.define name type kind s)) =
    SymbolTable.class_symbols s !! name /\
  SymbolTable.lookup name
    (SymbolTable.define name type kind (SymbolTable.start_subroutine s)) =
    Some (mkSymbol name type kind 0) /\
  SymbolTable.class_symbols (SymbolTable.start_subroutine s) =
    SymbolTable.class_symbols s /\
  SymbolTable.static_count (SymbolTable.start_subroutine s) =
    SymbolTable.static_count s /\
  SymbolTable.field_count (SymbolTable.start_subroutine s) =
    SymbolTable.field_count s.
Proof.
  intros [-> | ->]; unfold SymbolTable.lookup; cbn;
    rewrite lookup_empty, lookup_insert_eq; done.
Qed.

Definition table_a_field : SymbolTable.t :=
  SymbolTable.define "a" "int" FIELD SymbolTable.init.

Lemma start_subroutine_forgets_witness :
  (VAR = ARG \/ VAR = VAR) /\
  SymbolTable.lookup "a"
    (SymbolTable.start_subroutine
       (SymbolTable.define "a" "char" VAR table_a_field)) =
    Some (mkSymbol "a" "int" FIELD 0).
Proof.
  split; [by right|].
  destruct (start_subroutine_forgets "a" "char" VAR table_a_field) as [H _];
    [by right|].
  rewrite H. vm_compute. reflexivity.
Defined.

(** The symbol tables that the operations build. *)
Inductive reachable : SymbolTable.t -> Prop :=
  | reachable_init : reachable SymbolTable.init
  | reachable_start s :
      reachable s -> reachable (SymbolTable.start_subroutine s)
  | reachable_define name type kind s :
      reachable s -> reachable (SymbolTable.define name type kind s).

(** A scope holds symbols of the two kinds [k1] and [k2] only, each under
    its own name and with an index below the counter of its kind, and two
    names of one kind never share an index. *)
Definition scope_ok (k1 k2 : SymbolKind) (c1 c2 : N) (m : gmap string Symbol)
  : Prop :=
  (forall name sym, m !! name = Some sym ->
     sym_name sym = name /\
     (sym_kind sym = k1 /\ (sym_index sym < c1)%N \/
      sym_kind sym = k2 /\ (sym_index sym < c2)%N)) /\
  (forall n1 n2 s1 s2, m !! n1 = Some s1 -> m !! n2 = Some s2 ->
     sym_kind s1 = sym_kind s2 -> sym_index s1 = sym_index s2 -> n1 = n2).

Definition table_ok (s : SymbolTable.t) : Prop :=
  scope_ok STATIC FIELD (SymbolTable.static_count s) (SymbolTable.field_count s)
    (SymbolTable.class_symbols s) /\
  scope_ok ARG VAR (SymbolTable.arg_count s) (SymbolTable.var_count s)
    (SymbolTable.subroutine_symbols s).

Lemma scope_ok_empty k1 k2 c1 c2 : scope_ok k1 k2 c1 c2 ∅.
Proof. split; intros *; rewrite lookup_empty; discriminate. Qed.

Lemma scope_ok_insert_1 k1 k2 c1 c2 m name type :
  k1 <> k2 -> scope_ok k1 k2 c1 c2 m ->
  scope_ok k1 k2 (c1 + 1) c2 (<[name := mkSymbol name type k1 c1]> m).
Proof.
  intros Hk [H1 H2]. split.
  - intros n sym Hl. destruct (decide (name = n)) as [->|Hne].
    + rewrite lookup_insert_eq in Hl. injection Hl as <-. cbn.
      split; [done|]. left. split; [done | lia].
    + rewrite lookup_insert_ne in Hl by done.
      destruct (H1 n sym Hl) as [Hn [[? ?]|[? ?]]]; (split; [done|]);
        [left | right]; split; (done || lia).
  - intros n1 n2 s1 s2 Hl1 Hl2 Hkind Hidx.
    destruct (decide (name = n1)) as [<-|Hne1];
      destruct (decide (name = n2)) as [<-|Hne2]; [done| | |].
    + rewrite lookup_insert_eq in Hl1. injection Hl1 as <-.
      rewrite lookup_insert_ne in Hl2 by done. cbn in *.
      destruct (H1 n2 s2 Hl2) as [_ [[? ?]|[? ?]]]; [lia | congruence].
    + rewrite lookup_insert_eq in Hl2. injection Hl2 as <-.
      rewrite lookup_insert_ne in Hl1 by done. cbn in *.
      destruct (H1 n1 s1 Hl1) as [_ [[? ?]|[? ?]]]; [lia | congruence].
    + rewrite lookup_insert_ne in Hl1, Hl2 by done. eauto.
Qed.

Lemma scope_ok_insert_2 k1 k2 c1 c2 m name type :
  k1 <> k2 -> scope_ok k1 k2 c1 c2 m ->
  scope_ok k1 k2 c1 (c2 + 1) (<[name := mkSymbol name type k2 c2]> m).
Proof.
  intros Hk [H1 H2]. split.
  - intros n sym Hl. destruct (decide (name = n)) as [->|Hne].
    + rewrite lookup_insert_eq in Hl. injection Hl as <-. cbn.
      split; [done|]. right. split; [done | lia].
    + rewrite lookup_insert_ne in Hl by done.
      destruct (H1 n sym Hl) as [Hn [[? ?]|[? ?]]]; (split; [done|]);
        [left | right]; split; (done || lia).
  - intros n1 n2 s1 s2 Hl1 Hl2 Hkind Hidx.
    destruct (decide (name = n1)) as [<-|Hne1];
      destruct (decide (name = n2)) as [<-|Hne2]; [done| | |].
    + rewrite lookup_insert_eq in Hl1. injection Hl1 as <-.
      rewrite lookup_insert_ne in Hl2 by done. cbn in *.
      destruct (H1 n2 s2 Hl2) as [_ [[? ?]|[? ?]]]; [congruence | lia].
    + rewrite lookup_insert_eq in Hl2. injection Hl2 as <-.
      rewrite lookup_insert_ne in Hl1 by done. cbn in *.
      destruct (H1 n1 s1 Hl1) as [_ [[? ?]|[? ?]]]; [congruence | lia].
    + rewrite lookup_insert_ne in Hl1, Hl2 by done. eauto.
Qed.

(** X10: in every symbol table that [define] and [start_subroutine] build
    from the empty one, the class scope holds Static and Field symbols
    only and the subroutine scope Argument and Local symbols only, every
    symbol is stored under its own name with an index below the counter of
    its kind, and two names of one kind in one scope never share an index
    (a name that is defined again takes a new index). *)
Theorem reachable_table_ok s : reachable s -> table_ok s.
Proof.
  induction 1 as [|s Hr [Hc Hs]|name type kind s Hr [Hc Hs]].
  - split; apply scope_ok_empty.
  - split; [exact Hc | apply scope_ok_empty].
  - destruct kind; cbn; (split; [|try exact Hs]); try exact Hc.
    + by apply scope_ok_insert_1.
    + by apply scope_ok_insert_2.
    + by apply scope_ok_insert_1.
    + by apply scope_ok_insert_2.
Qed.

Lemma reachable_table_ok_witness :
  reachable (SymbolTable.define "a" "char" VAR table_a_field) /\
  table_ok (SymbolTable.define "a" "char" VAR table_a_field).
Proof.
  assert (H : reachable (SymbolTable.define "a" "char" VAR table_a_field))
    by (repeat constructor).
  split; [exact H | exact (reachable_table_ok _ H)].
Defined.

Definition kind_bit (k : SymbolKind) (sym : Symbol) : N :=
  if decide (sym_kind sym = k) then 1 else 0.

Lemma count_kind_insert_fresh k (m : gmap string Symbol) n sym :
  m !! n = None ->
  SymbolTable.count_kind k (<[n := sym]> m) =
  (kind_bit k sym + SymbolTable.count_kind k m)%N.
Proof.
  intros Hn. unfold SymbolTable.count_kind, kind_bit.
  rewrite (map_to_list_insert m n sym Hn). cbn [fmap list_fmap snd].
  rewrite filter_cons. destruct (decide (sym_kind sym = k)); cbn [List.length]; lia.
Qed.

Lemma count_kind_delete_le k (m : gmap string Symbol) n :
  (SymbolTable.count_kind k (delete n m) <= SymbolTable.count_kind k m)%N.
Proof.
  destruct (m !! n) as [old|] eqn:Hn.
  - rewrite <- (insert_id m n old Hn) at 2. rewrite <- insert_delete_eq.
    rewrite count_kind_insert_fresh by apply lookup_delete_eq. lia.
  - by rewrite delete_id.
Qed.

Lemma count_kind_insert_le k (m : gmap string Symbol) n sym :
  (SymbolTable.count_kind k (<[n := sym]> m) <=
   kind_bit k sym + SymbolTable.count_kind k m)%N.
Proof.
  rewrite <- insert_delete_eq.
  rewrite count_kind_insert_fresh by apply lookup_delete_eq.
  pose proof (count_kind_delete_le k m n). lia.
Qed.

(** X11: in every symbol table that [define] and [start_subroutine] build,
    the number of symbols of a kind in its scope, which is what the
    [function] line and the constructor prologue count, is at most the
    counter of the kind; the two are equal as long as no name is defined
    twice in the scope. *)
Theorem reachable_counts s :
  reachable s ->
  (SymbolTable.count_kind STATIC (SymbolTable.class_symbols s)
     <= SymbolTable.static_count s)%N /\
  (SymbolTable.count_kind FIELD (SymbolTable.class_symbols s)
     <= SymbolTable.field_count s)%N /\
  (SymbolTable.count_kind ARG (SymbolTable.subroutine_symbols s)
     <= SymbolTable.arg_count s)%N /\
  (SymbolTable.count_kind VAR (SymbolTable.subroutine_symbols s)
     <= SymbolTable.var_count s)%N /\
  forall name type kind,
    scope_of kind s !! name = None ->
    SymbolTable.count_kind kind
      (scope_of kind (SymbolTable.define name type kind s)) =
    (1 + SymbolTable.count_kind kind (scope_of kind s))%N.
Proof.
  intros Hr. split; [|split; [|split; [|split]]].
  1-4: induction Hr as [|s Hr IH|name type kind s Hr IH]; [done|cbn; try done; lia|];
       destruct kind; cbn;
       match goal with
       | |- (SymbolTable.count_kind ?k (<[?n := ?sym]> ?m) <= _)%N =>
           pose proof (count_kind_insert_le k m n sym) as Hle;
           unfold kind_bit in Hle; cbn in Hle;
           destruct (decide _) in Hle; try done; lia
       | _ => lia
       end.
  intros name type kind Hn. destruct kind; cbn in *;
    rewrite count_kind_insert_fresh by done; unfold kind_bit; cbn;
    by destruct (decide _).
Qed.

Lemma reachable_counts_witness :
  reachable (SymbolTable.define "a" "char" VAR table_a_field) /\
  (SymbolTable.count_kind VAR
     (SymbolTable.subroutine_symbols
        (SymbolTable.define "a" "char" VAR table_a_field))
   <= SymbolTable.var_count (SymbolTable.define "a" "char" VAR table_a_field))%N.
Proof.
  assert (H : reachable (SymbolTable.define "a" "char" VAR table_a_field))
    by (repeat constructor).
  split; [exact H | apply (reachable_counts _ H)].
Defined.

(** ** The cursor of the parser *)

Lemma advance_wf st :
  wf st ->
  exists st',
    Parser.advance st = Ok (tt, st') /\ wf st' /\
    len st' = len st /\ rem st' = rem st - 1 /\
    (rem st = 0 -> st' = st) /\
    (0 < rem st ->
       Parser.pos st' = (Parser.pos st + 1)%Z /\
       Parser.tokens st !! Z.to_nat (Parser.pos st + 1) =
         Some (Parser.current_token st')) /\
    Parser.tokens st' = Parser.tokens st /\
    Parser.symbol_table st' = Parser.symbol_table st /\
    Parser.code_gen st' = Parser.code_gen st.
Proof.
  intros (Hpos & Hcur & ln & Hlast). unfold Parser.advance, rem, len in *.
  destruct (_ <? _)%Z eqn:Hlt.
  - apply Z.ltb_lt in Hlt. unfold Parser.py_index, Parser.py_norm.
    destruct (0 <=? Parser.pos st + 1)%Z eqn:H0; [|apply Z.leb_gt in H0; lia].
    destruct (Parser.pos st + 1 <? _)%Z eqn:H1; [|apply Z.ltb_ge in H1; lia].
    destruct (lookup_lt_is_Some_2 (Parser.tokens st)
                (Z.to_nat (Parser.pos st + 1))) as [tok Htok]; [lia|].
    rewrite Htok. eexists. split; [reflexivity|]. cbn.
    split; [|split; [done|]; split; [lia|]; split; [lia|]; done].
    unfold wf, len. cbn. split; [lia|]. split; [done|]. eauto.
  - apply Z.ltb_ge in Hlt. exists st. split; [reflexivity|].
    split; [unfold wf, len; eauto|]. split; [done|]. split; [lia|].
    split; [done|]. split; [lia | done].
Qed.

(** X12: on a token list that ends with the end marker, with the cursor
    inside it, [advance] raises nothing: at the end marker it leaves the
    parser as it is, and elsewhere it moves the cursor by one position, to
    the next token of the list; it touches neither the token list nor the
    symbol table nor the code generator. *)
Theorem advance_in_bounds st :
  wf st ->
  exists st',
    Parser.advance st = Ok (tt, st') /\ wf st' /\
    (rem st = 0 -> st' = st) /\
    (0 < rem st ->
       Parser.pos st' = (Parser.pos st + 1)%Z /\
       Parser.tokens st !! Z.to_nat (Parser.pos st + 1) =
         Some (Parser.current_token st')) /\
    Parser.tokens st' = Parser.tokens st /\
    Parser.symbol_table st' = Parser.symbol_table st /\
    Parser.code_gen st' = Parser.code_gen st.
Proof.
  intros Hwf. destruct (advance_wf st Hwf) as (st' & H & Hw & _ & _ & H0 & H1 & H2).
  exists st'. auto.
Qed.

Definition st_two_tokens : Parser.t :=
  Parser.init [mkToken KEYWORD "return" 1; mkToken EOF "" 1].

Lemma wf_two_tokens : wf st_two_tokens.
Proof.
  change st_two_tokens with (Parser.init ([mkToken KEYWORD "return" 1] ++ [mkToken EOF "" 1])).
  apply wf_init.
Defined.

Lemma advance_in_bounds_witness :
  wf st_two_tokens /\
  exists st',
    Parser.advance st_two_tokens = Ok (tt, st') /\
    Parser.advance st' = Ok (tt, st') /\
    Parser.current_token st' = mkToken EOF "" 1.
Proof.
  split; [exact wf_two_tokens|].
  destruct (advance_in_bounds st_two_tokens wf_two_tokens) as (st' & H & _).
  exists st'. split; [exact H|].
  vm_compute in H. injection H as <-. split; reflexivity.
Defined.

(** The test that [expect] makes on the current token. *)
Definition expected (types : list TokenType) (value : option string)
    (tok : Token) : bool :=
  bool_decide (tok_type tok ∈ types) &&
  match value with
  | Some v => negb (Parser.truthy v) || String.eqb (tok_value tok) v
  | None => true
  end.

(** X13: [expect], called with at least one kind, returns the current
    token and advances when the kind of the token is one of the kinds and,
    if a non-empty lexeme is given, the lexeme of the token is that lexeme;
    in every other case it raises a [SyntaxError].  An empty lexeme is not
    compared. *)
Theorem expect_accepts types value st :
  wf st -> types <> [] ->
  (expected types value (Parser.current_token st) = true ->
     exists st',
       Parser.expect types value st = Ok (Parser.current_token st, st') /\
       Parser.advance st = Ok (tt, st')) /\
  (expected types value (Parser.current_token st) = false ->
     Parser.expect types value st = Err SyntaxError).
Proof.
  intros Hwf Hne. unfold expected, Parser.expect.
  destruct types as [|ty types]; [done|].
  destruct (advance_wf st Hwf) as (st' & Hadv & _).
  assert (Hrun : Parser.bind Parser.advance
                   (fun _ => Parser.ret (Parser.current_token st)) st =
                 Ok (Parser.current_token st, st')).
  { unfold Parser.bind. by rewrite Hadv. }
  destruct (bool_decide _); cbn [negb andb].
  - destruct value as [v|].
    + destruct (Parser.truthy v); cbn [negb orb andb].
      * destruct (String.eqb _ v); cbn [negb]; split; try done.
        intros _. eauto.
      * split; [intros _; eauto | done].
    + split; [intros _; eauto | done].
  - split; done.
Qed.

Lemma expect_accepts_witness :
  wf st_two_tokens /\ [KEYWORD] <> [] /\
  Parser.expect [KEYWORD] (Some "") st_two_tokens =
    Ok (mkToken KEYWORD "return" 1,
        Parser.set_cursor 1 (mkToken EOF "" 1) st_two_tokens) /\
  Parser.expect [KEYWORD] (Some "let") st_two_tokens = Err SyntaxError.
Proof.
  split; [exact wf_two_tokens|]. split; [discriminate|].
  split; [vm_compute; reflexivity|].
  apply (expect_accepts [KEYWORD] (Some "let") st_two_tokens wf_two_tokens);
    [discriminate | reflexivity].
Defined.

(** ** What the parser leaves as it is *)

Module ParserMore.
Import Parser.

#[local] Hint Resolve quiet_ret quiet_gets quiet_raise quiet_timeout
  quiet_advance quiet_expect quiet_match_ quiet_current_value
  quiet_current_type quiet_lookup quiet_define quiet_step_back
  quiet_code_gen_method : jack.

Lemma expect_advance types value st tok st' :
  expect types value st = Ok (tok, st') -> advance st = Ok (tt, st').
Proof.
  unfold expect. destruct types as [|ty types]; [discriminate|].
  destruct (negb _); [discriminate|].
  assert (Hadv : bind advance (fun _ => ret (current_token st)) st = Ok (tok, st') ->
                 advance st = Ok (tt, st')).
  { intros H. apply bind_Ok in H as ([] & s1 & H1 & H2).
    by apply ret_Ok in H2 as [_ ->]. }
  destruct value as [v|]; [destruct (_ && _); [discriminate|] |]; exact Hadv.
Qed.

Lemma emit_set f st u st' :
  emit f st = Ok (u, st') -> exists g, st' = set_code_gen g st.
Proof. intros H. apply emit_Ok in H as (g & _ & ->). eauto. Qed.

Lemma get_unique_label_set prefix st label st' :
  get_unique_label prefix st = Ok (label, st') -> exists g, st' = set_code_gen g st.
Proof.
  unfold get_unique_label. destruct (code_gen st) as [g|]; [|discriminate].
  cbn. intros H. injection H as _ <-. eauto.
Qed.

(** A pass over the parser: [P] is kept and [R] relates the state before
    to the state after, for every computation built from the primitives. *)
Section Pass.

Variable P : t -> Prop.
Variable R : t -> t -> Prop.
Hypothesis R_refl : forall st, R st st.
Hypothesis R_trans : forall s1 s2 s3, R s1 s2 -> R s2 s3 -> R s1 s3.
Hypothesis P_advance : forall st st',
  P st -> advance st = Ok (tt, st') -> P st' /\ R st st'.
Hypothesis P_emit : forall st cmd st',
  P st -> emit (CodeGenerator.write cmd) st = Ok (tt, st') -> P st' /\ R st st'.
Hypothesis P_step_back : forall st s1 s2,
  P st -> tok_type (current_token st) = IDENTIFIER ->
  advance st = Ok (tt, s1) ->
  step_back (tok_value (current_token st)) s1 = Ok (tt, s2) ->
  P s2 /\ R st s2.

Definition passes {A} (m : M A) : Prop :=
  forall st a st', P st -> m st = Ok (a, st') -> P st' /\ R st st'.

Lemma passes_ret {A} (a : A) : passes (ret a).
Proof. intros st b st' HP H. apply ret_Ok in H as [_ ->]. auto. Qed.

Lemma passes_gets {A} (f : t -> A) : passes (gets f).
Proof. intros st b st' HP H. apply gets_Ok in H as [_ ->]. auto. Qed.

Lemma passes_raise {A} e : passes (@raise A e).
Proof. intros st b st' HP H. discriminate. Qed.

Lemma passes_timeout {A} : passes (@timeout A).
Proof. intros st b st' HP H. discriminate. Qed.

Lemma passes_bind {A B} (m : M A) (k : A -> M B) :
  passes m -> (forall a, passes (k a)) -> passes (bind m k).
Proof.
  intros Hm Hk st b st2 HP H. apply bind_Ok in H as (a & st1 & H1 & H2).
  destruct (Hm _ _ _ HP H1) as [HP1 HR1].
  destruct (Hk _ _ _ _ HP1 H2) as [HP2 HR2]. eauto.
Qed.

Lemma passes_advance : passes advance.
Proof. intros st [] st' HP H. eauto. Qed.

Lemma passes_expect types value : passes (expect types value).
Proof. intros st tok st' HP H. apply expect_advance in H. eauto. Qed.

Lemma passes_emit cmd : passes (emit (CodeGenerator.write cmd)).
Proof. intros st [] st' HP H. eauto. Qed.

Lemma passes_code_gen_method : passes code_gen_method.
Proof.
  intros st [] st' HP H. unfold code_gen_method in H.
  destruct (code_gen st); [|discriminate]. injection H as <-. auto.
Qed.

Lemma passes_push_symbol symbol : passes (push_symbol symbol).
Proof. destruct symbol; [apply passes_emit | apply passes_raise]. Qed.

Lemma passes_pop_symbol symbol : passes (pop_symbol symbol).
Proof. destruct symbol; [apply passes_emit | apply passes_raise]. Qed.

Lemma passes_write_chars s : passes (write_chars s).
Proof.
  induction s as [|c r IH]; cbn [write_chars]; [apply passes_ret|].
  apply passes_bind; [apply passes_emit | intros _].
  apply passes_bind; [apply passes_emit | intros _; exact IH].
Qed.

Ltac passes_prim :=
  first
    [ apply passes_ret | apply passes_raise | apply passes_timeout
    | apply passes_advance | apply passes_expect | apply passes_emit
    | apply passes_code_gen_method
    | apply passes_push_symbol | apply passes_pop_symbol
    | apply passes_write_chars | apply passes_gets | assumption ].

Ltac passes_auto :=
  repeat first [ passes_prim | apply passes_bind; [| intros ?] ].

Definition passes_at {A} (st : t) (m : M A) : Prop :=
  forall a st', P st -> m st = Ok (a, st') -> P st' /\ R st st'.

Lemma passes_at_gets {A B} (f : t -> A) (k : A -> M B) st :
  passes_at st (k (f st)) -> passes_at st (bind (gets f) k).
Proof. intros Hk b st' HP H. apply (Hk b st' HP). exact H. Qed.

Lemma passes_passes_at {A} (m : M A) st : passes m -> passes_at st m.
Proof. intros H a st'. apply H. Qed.

Lemma passes_at_advance {A} (k : unit -> M A) st :
  (forall s1, P st -> advance st = Ok (tt, s1) -> P s1 -> R st s1 ->
     forall a st', k tt s1 = Ok (a, st') -> P st' /\ R st st') ->
  passes_at st (bind advance k).
Proof.
  intros Hk a st' HP H. apply bind_Ok in H as ([] & s1 & H1 & H).
  destruct (P_advance _ _ HP H1) as [HP1 HR1]. eauto.
Qed.

Lemma passes_expressions fuel :
  passes (compile_expression fuel) /\
  passes (compile_expression_loop fuel) /\
  passes (compile_term fuel) /\
  passes (compile_subroutine_call fuel) /\
  passes (compile_expression_list fuel) /\
  (forall n, passes (compile_expression_list_loop fuel n)).
Proof.
  induction fuel as [|fuel (IHe & IHl & IHt & IHc & IHel & IHell)].
  { repeat (split; [apply passes_timeout|]). intros n. apply passes_timeout. }
  split; [|split; [|split; [|split; [|split]]]].
  - cbn [compile_expression]. passes_auto.
  - cbn [compile_expression_loop]. apply passes_bind; [passes_prim | intros b].
    destruct b; passes_auto.
  - cbn [compile_term]. intros st. apply (passes_at_gets _ _ st).
    destruct (decide (_ = INT_CONST)).
    { apply passes_passes_at.
      apply passes_bind; [passes_prim | intros v].
      apply passes_bind; [passes_prim | intros _]. destruct (int v); passes_auto. }
    destruct (decide (_ = STRING_CONST)); [apply passes_passes_at; passes_auto|].
    apply (passes_at_gets _ _ st). destruct (existsb _ _).
    { apply passes_passes_at. apply passes_bind; [passes_prim | intros keyword].
      apply passes_bind; [|intros _; passes_prim].
      destruct (String.eqb keyword "true"); [passes_auto|].
      destruct (existsb _ _); [passes_auto|].
      destruct (String.eqb keyword "this"); passes_auto. }
    apply (passes_at_gets _ _ st). destruct (existsb _ _).
    { apply passes_passes_at. passes_auto. }
    destruct (decide (_ = IDENTIFIER)) as [Hid|].
    { apply (passes_at_gets _ _ st). apply passes_at_advance.
      intros s1 HP Hadv HP1 HR1 a st' H.
      apply bind_Ok in H as (b3 & s & Hb & H). apply gets_Ok in Hb as [-> ->].
      assert (Hrest : forall m : M unit, passes m -> m s1 = Ok (a, st') ->
                P st' /\ R st st').
      { intros m Hm Hr. destruct (Hm _ _ _ HP1 Hr). eauto. }
      destruct (existsb _ _).
      { revert H. apply Hrest. passes_auto. }
      apply bind_Ok in H as (b4 & s & Hb & H). apply gets_Ok in Hb as [-> ->].
      destruct (existsb _ _).
      - apply bind_Ok in H as ([] & s2 & Hsb & H).
        destruct (P_step_back _ _ _ HP Hid Hadv Hsb) as [HP2 HR2].
        destruct (IHc _ _ _ HP2 H). eauto.
      - revert H. apply Hrest. passes_auto. }
    apply passes_passes_at. apply passes_bind; [passes_prim | intros b].
    destruct b; passes_auto.
  - cbn [compile_subroutine_call].
    apply passes_bind; [passes_prim | intros tok].
    apply passes_bind; [passes_prim | intros b].
    apply passes_bind; [|intros callee; passes_auto].
    destruct b; [|passes_auto].
    apply passes_bind; [passes_prim | intros _].
    apply passes_bind; [passes_prim | intros mtok].
    apply passes_bind; [passes_prim | intros symbol]. destruct symbol; passes_auto.
  - cbn [compile_expression_list]. apply passes_bind; [passes_prim | intros b].
    destruct b; passes_auto. apply IHell.
  - intros n. cbn [compile_expression_list_loop].
    apply passes_bind; [passes_prim | intros b]. destruct b; passes_auto.
    apply IHell.
Qed.

Lemma passes_compile_expression fuel : passes (compile_expression fuel).
Proof. apply passes_expressions. Qed.

Lemma passes_compile_subroutine_call fuel : passes (compile_subroutine_call fuel).
Proof. apply passes_expressions. Qed.

Lemma passes_compile_let fuel : passes (compile_let fuel).
Proof.
  pose proof (passes_compile_expression fuel).
  unfold compile_let.
  do 4 (apply passes_bind; [passes_prim | intros ?]).
  match goal with |- passes (if ?b then _ else _) => destruct b end; passes_auto.
Qed.

Lemma passes_compile_do fuel : passes (compile_do fuel).
Proof.
  pose proof (passes_compile_subroutine_call fuel). unfold compile_do. passes_auto.
Qed.

Lemma passes_compile_return fuel : passes (compile_return fuel).
Proof.
  pose proof (passes_compile_expression fuel). unfold compile_return.
  apply passes_bind; [passes_prim | intros _].
  apply passes_bind; [passes_prim | intros b].
  apply passes_bind; [destruct b; cbn [negb]; passes_auto | intros _; passes_auto].
Qed.

(** The statements, which draw labels. *)
Hypothesis P_label : forall st prefix label st',
  P st -> get_unique_label prefix st = Ok (label, st') -> P st' /\ R st st'.

Lemma passes_get_unique_label prefix : passes (get_unique_label prefix).
Proof. intros st l st' HP H. eauto. Qed.

Ltac passes_stmt :=
  repeat first
    [ passes_prim | apply passes_get_unique_label
    | apply passes_bind; [| intros ?] ].

Lemma passes_statements fuel :
  passes (compile_statements fuel) /\
  passes (compile_if fuel) /\
  passes (compile_while fuel).
Proof.
  induction fuel as [|fuel (IHs & IHi & IHw)].
  { repeat (split; [apply passes_timeout|]). apply passes_timeout. }
  pose proof (passes_compile_expression fuel).
  pose proof (passes_compile_let fuel).
  pose proof (passes_compile_do fuel).
  pose proof (passes_compile_return fuel).
  split; [|split].
  - cbn [compile_statements]. apply passes_bind; [passes_prim | intros b].
    destruct b; [|passes_prim].
    apply passes_bind; [passes_prim | intros v].
    apply passes_bind; [|intros _; exact IHs].
    repeat (match goal with |- passes (if ?c then _ else _) => destruct c end;
            [passes_prim|]).
    passes_prim.
  - cbn [compile_if].
    do 13 (apply passes_bind; [passes_stmt | intros ?]).
    apply passes_bind; [passes_prim | intros b].
    apply passes_bind; [destruct b; passes_auto | intros _; passes_prim].
  - cbn [compile_while]. passes_stmt.
Qed.

Lemma passes_compile_statements fuel : passes (compile_statements fuel).
Proof. apply passes_statements. Qed.

(** The declarations, which write to the symbol table and to the names. *)
Hypothesis P_define : forall st name type kind,
  P st ->
  P (set_symbol_table (SymbolTable.define name type kind (symbol_table st)) st) /\
  R st (set_symbol_table (SymbolTable.define name type kind (symbol_table st)) st).
Hypothesis P_start_subroutine : forall st,
  P st ->
  P (set_symbol_table (SymbolTable.start_subroutine (symbol_table st)) st) /\
  R st (set_symbol_table (SymbolTable.start_subroutine (symbol_table st)) st).
Hypothesis P_class_name : forall st n,
  P st -> P (set_class_name n st) /\ R st (set_class_name n st).
Hypothesis P_subroutine_name : forall st n,
  P st -> P (set_subroutine_name n st) /\ R st (set_subroutine_name n st).
Hypothesis P_code_gen : forall st g,
  P st -> P (set_code_gen g st) /\ R st (set_code_gen g st).

Lemma passes_modify (f : t -> t) :
  (forall st, P st -> P (f st) /\ R st (f st)) -> passes (modify f).
Proof. intros Hf st [] st' HP H. injection H as <-. auto. Qed.

Lemma passes_define name type kind : passes (define name type kind).
Proof. apply passes_modify. intros st. apply P_define. Qed.

Ltac passes_decl :=
  repeat first
    [ passes_prim | apply passes_define
    | apply passes_bind; [| intros ?] ].

Lemma passes_define_names_loop fuel var_type kind :
  passes (define_names_loop fuel var_type kind).
Proof.
  induction fuel as [|fuel IH]; cbn [define_names_loop]; [passes_prim|].
  do 3 (apply passes_bind; [passes_decl | intros ?]).
  match goal with |- passes (if negb ?b then _ else _) => destruct b end;
    cbn [negb]; passes_decl.
Qed.

Lemma passes_parameter_loop fuel : passes (parameter_loop fuel).
Proof.
  induction fuel as [|fuel IH]; cbn [parameter_loop]; [passes_prim|].
  do 5 (apply passes_bind; [passes_decl | intros ?]).
  match goal with |- passes (if negb ?b then _ else _) => destruct b end;
    cbn [negb]; passes_decl.
Qed.

Lemma passes_compile_var_dec fuel : passes (compile_var_dec fuel).
Proof.
  pose proof (passes_define_names_loop fuel). unfold compile_var_dec.
  do 3 (apply passes_bind; [passes_decl | intros ?]).
  apply passes_bind; [auto | intros ?]. passes_decl.
Qed.

Lemma passes_var_decs fuel : passes (var_decs fuel).
Proof.
  induction fuel as [|fuel IH]; cbn [var_decs]; [passes_prim|].
  apply passes_bind; [passes_prim | intros b]. destruct b; [|passes_prim].
  apply passes_bind; [apply passes_compile_var_dec | intros _; exact IH].
Qed.

Lemma passes_compile_class_var_dec fuel : passes (compile_class_var_dec fuel).
Proof.
  pose proof (passes_define_names_loop fuel). unfold compile_class_var_dec.
  do 4 (apply passes_bind; [passes_decl | intros ?]).
  apply passes_bind; [auto | intros ?]. passes_decl.
Qed.

Lemma passes_class_var_decs fuel : passes (class_var_decs fuel).
Proof.
  induction fuel as [|fuel IH]; cbn [class_var_decs]; [passes_prim|].
  apply passes_bind; [passes_prim | intros b]. destruct b; [|passes_prim].
  apply passes_bind; [apply passes_compile_class_var_dec | intros _; exact IH].
Qed.

Lemma passes_compile_subroutine_dec fuel : passes (compile_subroutine_dec fuel).
Proof.
  unfold compile_subroutine_dec.
  apply passes_bind.
  { unfold subroutine_header.
    do 5 (apply passes_bind; [passes_prim | intros ?]).
    apply passes_bind; [|intros ?; passes_auto].
    apply passes_modify. intros st. apply P_subroutine_name. }
  intros subroutine_type. apply passes_bind.
  { unfold enter_subroutine. apply passes_bind.
    - apply passes_modify. intros st. apply P_start_subroutine.
    - intros _. destruct (String.eqb _ _); passes_decl. }
  intros _. apply passes_bind.
  { unfold subroutine_decls. apply passes_bind.
    - unfold compile_parameter_list. apply passes_bind; [passes_prim | intros b].
      destruct b; cbn [negb]; [passes_prim | apply passes_parameter_loop].
    - intros _. do 2 (apply passes_bind; [passes_prim | intros _]).
      apply passes_var_decs. }
  intros _. apply passes_bind.
  { unfold subroutine_entry. do 4 (apply passes_bind; [passes_prim | intros ?]).
    destruct (String.eqb _ "method"); [passes_auto|].
    destruct (String.eqb _ "constructor"); passes_auto. }
  intros _. apply passes_bind; [apply passes_compile_statements | intros _].
  passes_auto.
Qed.

Lemma passes_subroutine_decs fuel : passes (subroutine_decs fuel).
Proof.
  induction fuel as [|fuel IH]; cbn [subroutine_decs]; [passes_prim|].
  apply passes_bind; [passes_prim | intros b]. destruct b; [|passes_prim].
  apply passes_bind; [apply passes_compile_subroutine_dec | intros _; exact IH].
Qed.

Lemma passes_compile_class fuel : passes (compile_class fuel).
Proof.
  unfold compile_class.
  do 2 (apply passes_bind; [passes_prim | intros ?]).
  apply passes_bind; [apply passes_modify; intros st; apply P_class_name | intros _].
  do 2 (apply passes_bind; [passes_prim | intros ?]).
  apply passes_bind; [apply passes_modify; intros st; apply P_code_gen | intros _].
  apply passes_bind; [apply passes_class_var_decs | intros _].
  apply passes_bind; [apply passes_subroutine_decs | intros _]. passes_auto.
Qed.

End Pass.

(** The parts of the state that expressions and statements do not write. *)
Definition frame (st st' : t) : Prop :=
  symbol_table st' = symbol_table st /\
  class_name st' = class_name st /\
  subroutine_name st' = subroutine_name st /\
  List.length (tokens st') = List.length (tokens st).

Lemma frame_refl st : frame st st.
Proof. by unfold frame. Qed.

Lemma frame_trans s1 s2 s3 : frame s1 s2 -> frame s2 s3 -> frame s1 s3.
Proof. unfold frame. intros (-> & -> & -> & ->) (-> & -> & -> & ->). done. Qed.

Lemma frame_cursor st p tok : frame st (set_cursor p tok st).
Proof. by unfold frame. Qed.

Lemma frame_advance st st' : advance st = Ok (tt, st') -> frame st st'.
Proof. intros H. apply advance_Ok in H as (p & tok & ->). apply frame_cursor. Qed.

Lemma frame_step_back ident st st' :
  step_back ident st = Ok (tt, st') -> frame st st'.
Proof.
  unfold step_back. destruct (py_norm _ _) as [i|]; [|discriminate].
  destruct (tokens st !! i) as [tok|]; [|discriminate].
  intros H. injection H as <-. unfold frame. cbn.
  by rewrite length_insert.
Qed.

(** On a well-formed cursor that has moved off an identifier, the update
    in place of [step_back] writes the token that is there already. *)
Lemma step_back_restores st s1 s2 :
  wf st -> tok_type (current_token st) = IDENTIFIER ->
  advance st = Ok (tt, s1) ->
  step_back (tok_value (current_token st)) s1 = Ok (tt, s2) ->
  s2 = set_code_gen (code_gen s2) st.
Proof.
  intros Hwf Hid Hadv Hsb.
  destruct (advance_wf st Hwf) as (s1' & Hadv' & Hwf1 & Hlen & Hrem & _ & Hmove & Htok & Hsym & Hgen).
  rewrite Hadv in Hadv'. injection Hadv' as <-.
  assert (Hpos : 0 < rem st).
  { destruct (Nat.eq_dec (rem st) 0) as [E|]; [|lia].
    apply (wf_at_end st Hwf) in E as [E _]. rewrite Hid in E. discriminate. }
  destruct (Hmove Hpos) as [Hp _].
  destruct Hwf as (Hrange & Hcur & _).
  unfold step_back in Hsb. rewrite Hp, Htok in Hsb.
  replace (Parser.pos st + 1 - 1)%Z with (Parser.pos st) in Hsb by lia.
  unfold py_norm in Hsb. unfold len in Hrange.
  destruct (0 <=? pos st)%Z eqn:E0; [|apply Z.leb_gt in E0; lia].
  destruct (pos st <? _)%Z eqn:E1; [|apply Z.ltb_ge in E1; lia].
  rewrite Hcur in Hsb. injection Hsb as <-.
  assert (Etok : mkToken IDENTIFIER (tok_value (current_token st))
                   (tok_line (current_token st)) = current_token st).
  { destruct (current_token st) as [ty v ln]. cbn in *. by rewrite Hid. }
  rewrite Etok, list_insert_id by exact Hcur.
  destruct (advance_Ok _ _ _ Hadv) as (p & tok & Hs1).
  unfold set_cursor, set_tokens, set_code_gen. cbn.
  rewrite Hs1. by destruct st.
Qed.

Lemma wf_set_code_gen st g : wf st -> wf (set_code_gen g st).
Proof. by unfold wf, len. Qed.

End ParserMore.

Import ParserMore.

(** A parser on the tokens of a source text, and the same parser with a
    code generator, for the texts of subroutine bodies. *)
Definition parser_of (src : string) : Parser.t :=
  Parser.init (default [] (Tokenizer.tokenize src)).

Definition body_of (src : string) : Parser.t :=
  Parser.set_class_name "A"
    (Parser.set_code_gen (Some (CodeGenerator.init "A")) (parser_of src)).

Definition run {A} (m : Parser.M A) (st : Parser.t) : Parser.t :=
  match m st with
  | Ok (_, st') => st'
  | _ => st
  end.

(** X14: the statements and the expressions of a subroutine body write to
    the cursor and to the code generator only: when they return, the symbol
    table, the class name and the subroutine name are those of the call,
    and the token list has the length it had. *)
Theorem body_frame fuel st u st' :
  Parser.compile_statements fuel st = Ok (u, st') \/
  Parser.compile_expression fuel st = Ok (u, st') ->
  Parser.symbol_table st' = Parser.symbol_table st /\
  Parser.class_name st' = Parser.class_name st /\
  Parser.subroutine_name st' = Parser.subroutine_name st /\
  List.length (Parser.tokens st') = List.length (Parser.tokens st).
Proof.
  assert (Hp : forall m : Parser.M unit,
            passes (fun _ => True) frame m -> m st = Ok (u, st') -> frame st st').
  { intros m Hm H. by apply (Hm _ _ _ I H). }
  assert (Hadv : forall s s', True -> Parser.advance s = Ok (tt, s') ->
            True /\ frame s s').
  { intros s s' _ H. split; [done | by apply frame_advance]. }
  assert (Hgen : forall s cmd s', True ->
            Parser.emit (CodeGenerator.write cmd) s = Ok (tt, s') ->
            True /\ frame s s').
  { intros s cmd s' _ H. apply emit_set in H as [g ->]. by unfold frame. }
  assert (Hlab : forall s prefix label s', True ->
            Parser.get_unique_label prefix s = Ok (label, s') ->
            True /\ frame s s').
  { intros s prefix label s' _ H. apply get_unique_label_set in H as [g ->].
    by unfold frame. }
  assert (Hsb : forall s s1 s2, True ->
            tok_type (Parser.current_token s) = IDENTIFIER ->
            Parser.advance s = Ok (tt, s1) ->
            Parser.step_back (tok_value (Parser.current_token s)) s1 = Ok (tt, s2) ->
            True /\ frame s s2).
  { intros s s1 s2 _ _ H1 H2. split; [done|].
    eapply frame_trans; [apply frame_advance, H1 | eapply frame_step_back, H2]. }
  intros [H|H]; revert H; apply Hp.
  - apply passes_compile_statements; eauto using frame_refl, frame_trans.
  - apply passes_compile_expression; eauto using frame_refl, frame_trans.
Qed.

Definition st_two_statements : Parser.t := body_of "do f(1 + 2); return g();".

Lemma body_frame_witness :
  Parser.compile_statements 50 st_two_statements =
    Ok (tt, run (Parser.compile_statements 50) st_two_statements) /\
  out (run (Parser.compile_statements 50) st_two_statements) =
    ["push pointer 0"; "push constant 1"; "push constant 2"; "add";
     "call A.f 2"; "pop temp 0"; "push pointer 0"; "call A.g 1"; "return"] /\
  Parser.symbol_table (run (Parser.compile_statements 50) st_two_statements) =
    Parser.symbol_table st_two_statements.
Proof.
  split; [vm_compute; reflexivity|]. split; [vm_compute; reflexivity|].
  apply (body_frame 50 st_two_statements tt
           (run (Parser.compile_statements 50) st_two_statements)).
  left. vm_compute. reflexivity.
Defined.

(** X15: on a token list that ends with the end marker, with the cursor
    inside it on the current token, the parser of a class never changes a
    token: the update in place of [compile_term] writes the identifier
    that is there already, and the cursor stays well-formed. *)
Theorem parser_keeps_tokens fuel st u st' :
  wf st -> Parser.compile_class fuel st = Ok (u, st') ->
  wf st' /\ Parser.tokens st' = Parser.tokens st.
Proof.
  intros Hwf H.
  apply (passes_compile_class wf (fun s s' => Parser.tokens s' = Parser.tokens s))
    in H; [exact H | done | congruence | | | | | | | | | | exact Hwf]; clear.
  - intros st st' Hwf H.
    destruct (advance_wf st Hwf) as (s1 & H1 & Hwf1 & _ & _ & _ & _ & Htok & _).
    rewrite H in H1. injection H1 as <-. auto.
  - intros st cmd st' Hwf H. apply emit_set in H as [g ->].
    split; [by apply wf_set_code_gen | done].
  - intros st s1 s2 Hwf Hid Hadv Hsb.
    rewrite (step_back_restores st s1 s2 Hwf Hid Hadv Hsb).
    split; [by apply wf_set_code_gen | done].
  - intros st prefix label st' Hwf H. apply get_unique_label_set in H as [g ->].
    split; [by apply wf_set_code_gen | done].
  - intros st name type kind Hwf. by unfold wf, len.
  - intros st Hwf. by unfold wf, len.
  - intros st n Hwf. by unfold wf, len.
  - intros st n Hwf. by unfold wf, len.
  - intros st g Hwf. split; [by apply wf_set_code_gen | done].
Qed.

Definition st_call_in_term : Parser.t :=
  parser_of "class A { function int f() { return g(2); } }".

Lemma wf_call_in_term : wf st_call_in_term.
Proof.
  unfold wf, len. split; [vm_compute; split; [discriminate | reflexivity]|].
  split; [reflexivity|]. exists 1%N. reflexivity.
Defined.

Lemma parser_keeps_tokens_witness :
  wf st_call_in_term /\
  Parser.compile_class 50 st_call_in_term =
    Ok (tt, run (Parser.compile_class 50) st_call_in_term) /\
  out (run (Parser.compile_class 50) st_call_in_term) =
    ["function A.f 0"; "push pointer 0"; "push constant 2"; "call A.g 2";
     "return"] /\
  Parser.tokens (run (Parser.compile_class 50) st_call_in_term) =
    Parser.tokens st_call_in_term.
Proof.
  split; [exact wf_call_in_term|]. split; [vm_compute; reflexivity|].
  split; [vm_compute; reflexivity|].
  apply (parser_keeps_tokens 50 st_call_in_term tt
           (run (Parser.compile_class 50) st_call_in_term) wf_call_in_term).
  vm_compute. reflexivity.
Defined.

(** ** The shape of the emitted code *)

Definition push_segments : list string :=
  ["constant"; "argument"; "local"; "static"; "this"; "that"; "pointer"; "temp"].

Definition pop_segments : list string :=
  ["argument"; "local"; "static"; "this"; "that"; "pointer"; "temp"].

(** The keys of [op_map] in [write_arithmetic]. *)
Definition operators : list string :=
  ["+"; "-"; "*"; "/"; "&"; "|"; "<"; ">"; "="; "~"; "-neg"].

Module ParserShape.
Import Parser.

#[local] Hint Resolve quiet_ret quiet_gets quiet_raise quiet_timeout
  quiet_advance quiet_expect quiet_match_ quiet_current_value
  quiet_current_type quiet_lookup quiet_define quiet_step_back
  quiet_code_gen_method : jack.

(** Membership in a list that is written out. *)
Ltac in_list :=
  first
    [ assumption
    | unfold push_segments, pop_segments, operators;
      rewrite ?elem_of_cons;
      solve [ repeat first [ left; reflexivity | right ] ] ].

Lemma segment_for_push kind : _segment_for kind ∈ push_segments.
Proof. destruct kind; cbn; in_list. Qed.

Lemma segment_for_pop kind : _segment_for kind ∈ pop_segments.
Proof. destruct kind; cbn; in_list. Qed.

Lemma binary_operators op : op ∈ binary_ops -> op ∈ operators.
Proof.
  unfold binary_ops. rewrite !elem_of_cons, elem_of_nil.
  intros H. repeat (destruct H as [->|H]; [in_list|]). done.
Qed.

(** A property [G] of lists of lines that holds of the lines of every
    command and is kept by the ways in which the parser puts lines
    together holds of what every method of the parser emits. *)
Section Shape.

Variable G : list string -> Prop.
Hypothesis G_nil : G [].
Hypothesis G_app : forall l1 l2, G l1 -> G l2 -> G (l1 ++ l2).
Hypothesis G_push : forall seg n,
  seg ∈ push_segments -> G [CodeGenerator.push_cmd seg n].
Hypothesis G_pop : forall seg n,
  seg ∈ pop_segments -> G [CodeGenerator.pop_cmd seg n].
Hypothesis G_arithmetic : forall op,
  op ∈ operators -> G [CodeGenerator.arithmetic_cmd op].
Hypothesis G_call : forall name n, G [CodeGenerator.call_cmd name n].
Hypothesis G_function : forall name n, G [CodeGenerator.function_cmd name n].
Hypothesis G_return : G ["return"].
Hypothesis G_if : forall c t e l1 l2,
  G c -> G t -> G e ->
  G (c ++ [CodeGenerator.arithmetic_cmd "~"; CodeGenerator.if_cmd l1] ++ t ++
     [CodeGenerator.goto_cmd l2; CodeGenerator.label_cmd l1] ++ e ++
     [CodeGenerator.label_cmd l2]).
Hypothesis G_while : forall c b l1 l2,
  G c -> G b ->
  G ([CodeGenerator.label_cmd l1] ++ c ++
     [CodeGenerator.arithmetic_cmd "~"; CodeGenerator.if_cmd l2] ++ b ++
     [CodeGenerator.goto_cmd l1; CodeGenerator.label_cmd l2]).

Definition shaped {A} (m : M A) : Prop :=
  forall st a st', m st = Ok (a, st') -> exists l, out st' = out st ++ l /\ G l.

Lemma shaped_quiet {A} (m : M A) : quiet m -> shaped m.
Proof.
  intros Hq st a st' H. apply (quiet_out _ _ _ _ Hq) in H as (Ho & _).
  exists []. by rewrite app_nil_r.
Qed.

Lemma shaped_bind {A B} (m : M A) (k : A -> M B) :
  shaped m -> (forall a, shaped (k a)) -> shaped (bind m k).
Proof.
  intros Hm Hk st b st2 H. apply bind_Ok in H as (a & st1 & H1 & H2).
  apply Hm in H1 as (l1 & O1 & G1). apply Hk in H2 as (l2 & O2 & G2).
  exists (l1 ++ l2). split; [by rewrite O2, O1, app_assoc | auto].
Qed.

Lemma shaped_write cmd : G [cmd] -> shaped (emit (CodeGenerator.write cmd)).
Proof. intros HG st u st' H. apply emit_write_out in H as (Ho & _). eauto. Qed.

Lemma shaped_ret {A} (a : A) : shaped (ret a).
Proof. apply shaped_quiet, quiet_ret. Qed.

Lemma shaped_raise {A} e : shaped (@raise A e).
Proof. intros st a st' H. discriminate. Qed.

Lemma shaped_timeout {A} : shaped (@timeout A).
Proof. intros st a st' H. discriminate. Qed.

Lemma shaped_push_symbol symbol : shaped (push_symbol symbol).
Proof.
  destruct symbol as [sym|]; [|apply shaped_raise].
  apply shaped_write, G_push, segment_for_push.
Qed.

Lemma shaped_pop_symbol symbol : shaped (pop_symbol symbol).
Proof.
  destruct symbol as [sym|]; [|apply shaped_raise].
  apply shaped_write, G_pop, segment_for_pop.
Qed.

Ltac shaped_prim :=
  first
    [ assumption
    | apply shaped_quiet; solve [auto with jack]
    | apply shaped_ret | apply shaped_raise | apply shaped_timeout
    | apply shaped_push_symbol | apply shaped_pop_symbol
    | apply shaped_write;
      first [ apply G_push; in_list | apply G_pop; in_list
            | apply G_arithmetic; in_list | apply G_call
            | apply G_function | apply G_return ] ].

Ltac shaped_auto :=
  repeat first [ shaped_prim | apply shaped_bind; [| intros ?] ].

Lemma shaped_write_chars s : shaped (write_chars s).
Proof.
  induction s as [|c r IH]; cbn [write_chars]; shaped_auto.
Qed.

Definition shaped_at {A} (st : t) (m : M A) : Prop :=
  forall a st', m st = Ok (a, st') -> exists l, out st' = out st ++ l /\ G l.

Lemma shaped_at_gets {A B} (f : t -> A) (k : A -> M B) st :
  shaped_at st (k (f st)) -> shaped_at st (bind (gets f) k).
Proof. intros Hk b st' H. apply (Hk b st'). exact H. Qed.

Lemma shaped_shaped_at {A} (m : M A) st : shaped m -> shaped_at st m.
Proof. intros H a st'. apply H. Qed.

Lemma shaped_expressions fuel :
  shaped (compile_expression fuel) /\
  shaped (compile_expression_loop fuel) /\
  shaped (compile_term fuel) /\
  shaped (compile_subroutine_call fuel) /\
  shaped (compile_expression_list fuel) /\
  (forall n, shaped (compile_expression_list_loop fuel n)).
Proof.
  induction fuel as [|fuel (IHe & IHl & IHt & IHc & IHel & IHell)].
  { repeat (split; [apply shaped_timeout|]). intros n. apply shaped_timeout. }
  pose proof shaped_write_chars as Hwc.
  split; [|split; [|split; [|split; [|split]]]].
  - cbn [compile_expression]. shaped_auto.
  - cbn [compile_expression_loop]. intros st.
    apply (shaped_at_gets _ _ st).
    destruct (existsb _ binary_ops) eqn:Hop; [|apply shaped_shaped_at, shaped_ret].
    apply existsb_eqb_elem, binary_operators in Hop.
    apply (shaped_at_gets _ _ st). cbv beta. apply shaped_shaped_at.
    shaped_auto.
  - cbn [compile_term]. apply shaped_bind; [shaped_prim | intros ty].
    destruct (decide (ty = INT_CONST)).
    { apply shaped_bind; [shaped_prim | intros v].
      apply shaped_bind; [shaped_prim | intros _]. destruct (int v); shaped_auto. }
    destruct (decide (ty = STRING_CONST)).
    { shaped_auto. apply Hwc. }
    apply shaped_bind; [shaped_prim | intros b1]. destruct b1.
    { apply shaped_bind; [shaped_prim | intros keyword].
      apply shaped_bind; [|intros _; shaped_prim].
      destruct (String.eqb keyword "true"); [shaped_auto|].
      destruct (existsb _ _); [shaped_auto|].
      destruct (String.eqb keyword "this"); shaped_auto. }
    apply shaped_bind; [shaped_prim | intros b2]. destruct b2.
    { do 3 (apply shaped_bind; [shaped_prim | intros ?]).
      destruct (String.eqb _ "-"); shaped_prim. }
    destruct (decide (ty = IDENTIFIER)).
    { do 3 (apply shaped_bind; [shaped_prim | intros ?]).
      match goal with |- shaped (if ?b then _ else _) => destruct b end;
        [shaped_auto|].
      apply shaped_bind; [shaped_prim | intros b4]. destruct b4; shaped_auto. }
    apply shaped_bind; [shaped_prim | intros b5]. destruct b5; shaped_auto.
  - cbn [compile_subroutine_call].
    apply shaped_bind; [shaped_prim | intros tok].
    apply shaped_bind; [shaped_prim | intros b].
    apply shaped_bind; [|intros callee; shaped_auto].
    destruct b; [|shaped_auto].
    do 3 (apply shaped_bind; [shaped_prim | intros ?]).
    match goal with |- shaped (match ?s with _ => _ end) => destruct s end.
    + apply shaped_bind; [|intros _; shaped_prim].
      apply shaped_write, G_push, segment_for_push.
    + shaped_prim.
  - cbn [compile_expression_list]. apply shaped_bind; [shaped_prim | intros b].
    destruct b; shaped_auto. apply IHell.
  - intros n. cbn [compile_expression_list_loop].
    apply shaped_bind; [shaped_prim | intros b]. destruct b; shaped_auto.
    apply IHell.
Qed.

Lemma shaped_compile_expression fuel : shaped (compile_expression fuel).
Proof. apply shaped_expressions. Qed.

Lemma shaped_compile_subroutine_call fuel : shaped (compile_subroutine_call fuel).
Proof. apply shaped_expressions. Qed.

Lemma shaped_compile_let fuel : shaped (compile_let fuel).
Proof.
  pose proof (shaped_compile_expression fuel). unfold compile_let.
  do 4 (apply shaped_bind; [shaped_prim | intros ?]).
  match goal with |- shaped (if ?b then _ else _) => destruct b end; shaped_auto.
Qed.

Lemma shaped_compile_do fuel : shaped (compile_do fuel).
Proof.
  pose proof (shaped_compile_subroutine_call fuel). unfold compile_do. shaped_auto.
Qed.

Lemma shaped_compile_return fuel : shaped (compile_return fuel).
Proof.
  pose proof (shaped_compile_expression fuel). unfold compile_return.
  apply shaped_bind; [shaped_prim | intros _].
  apply shaped_bind; [shaped_prim | intros b].
  apply shaped_bind; [destruct b; cbn [negb]; shaped_auto | intros _; shaped_auto].
Qed.

Ltac out_chain :=
  repeat match goal with H : out _ = _ |- _ => rewrite H; clear H end;
  rewrite <- ?app_assoc; reflexivity.

Lemma shaped_statements fuel :
  shaped (compile_statements fuel) /\
  shaped (compile_if fuel) /\
  shaped (compile_while fuel).
Proof.
  induction fuel as [|fuel (IHs & IHi & IHw)].
  { repeat (split; [apply shaped_timeout|]). apply shaped_timeout. }
  pose proof (shaped_compile_expression fuel) as IHe.
  pose proof (shaped_compile_let fuel) as IHlet.
  pose proof (shaped_compile_do fuel) as IHdo.
  pose proof (shaped_compile_return fuel) as IHret.
  split; [|split].
  - cbn [compile_statements]. apply shaped_bind; [shaped_prim | intros b].
    destruct b; [|shaped_prim].
    apply shaped_bind; [shaped_prim | intros v].
    apply shaped_bind; [|intros _; exact IHs].
    repeat (match goal with |- shaped (if ?c then _ else _) => destruct c end;
            [shaped_prim|]).
    shaped_prim.
  - cbn [compile_if]. intros st u st' H. inv_binds H.
    match goal with
    | Hx : compile_expression _ _ = Ok _ |- _ => apply IHe in Hx as (lc & Oc & Gc)
    end.
    match goal with
    | Hx : compile_statements _ _ = Ok _ |- _ => apply IHs in Hx as (lt & Ot & Gt)
    end.
    match goal with
    | Hx : (if ?b then ?m1 else ?m2) _ = Ok _ |- _ =>
        assert (Hs : shaped (if b then m1 else m2)) by (destruct b; shaped_auto);
        apply Hs in Hx as (le & Oe & Ge)
    end.
    prim_facts. eexists. split; [out_chain|].
    exact (G_if lc lt le _ _ Gc Gt Ge).
  - cbn [compile_while]. intros st u st' H. inv_binds H.
    match goal with
    | Hx : compile_expression _ _ = Ok _ |- _ => apply IHe in Hx as (lc & Oc & Gc)
    end.
    match goal with
    | Hx : compile_statements _ _ = Ok _ |- _ => apply IHs in Hx as (lb & Ob & Gb)
    end.
    prim_facts. eexists. split; [out_chain|].
    exact (G_while lc lb _ _ Gc Gb).
Qed.

Lemma shaped_compile_statements fuel : shaped (compile_statements fuel).
Proof. apply shaped_statements. Qed.

Lemma shaped_subroutine_entry subroutine_type :
  shaped (subroutine_entry subroutine_type).
Proof.
  unfold subroutine_entry. do 4 (apply shaped_bind; [shaped_prim | intros ?]).
  destruct (String.eqb _ "method"); [shaped_auto|].
  destruct (String.eqb _ "constructor"); shaped_auto.
Qed.

Lemma shaped_compile_subroutine_dec fuel : shaped (compile_subroutine_dec fuel).
Proof.
  unfold compile_subroutine_dec.
  apply shaped_bind; [apply shaped_quiet, quiet_subroutine_header | intros ty].
  apply shaped_bind; [apply shaped_quiet, quiet_enter_subroutine | intros _].
  apply shaped_bind; [apply shaped_quiet, quiet_subroutine_decls | intros _].
  apply shaped_bind; [apply shaped_subroutine_entry | intros _].
  apply shaped_bind; [apply shaped_compile_statements | intros _]. shaped_auto.
Qed.

Lemma shaped_subroutine_decs fuel : shaped (subroutine_decs fuel).
Proof.
  induction fuel as [|fuel IH]; cbn [subroutine_decs]; [shaped_prim|].
  apply shaped_bind; [shaped_prim | intros b]. destruct b; [|shaped_prim].
  apply shaped_bind; [apply shaped_compile_subroutine_dec | intros _; exact IH].
Qed.

(** The lines of a class: [compile_class] starts a new code generator. *)
Lemma shaped_compile_class fuel st u st' :
  compile_class fuel st = Ok (u, st') -> G (out st').
Proof.
  unfold compile_class. intros H.
  do 5 (apply bind_Ok in H as (? & ? & _ & H)).
  apply bind_Ok in H as ([] & st0 & H0 & H). injection H0 as <-.
  apply bind_Ok in H as (? & s1 & H1 & H).
  apply (quiet_out _ _ _ _ (quiet_class_var_decs fuel)) in H1 as (O1 & _).
  apply bind_Ok in H as (? & s2 & H2 & H).
  apply shaped_subroutine_decs in H2 as (l & O2 & Gl).
  apply bind_Ok in H as (? & s3 & H3 & H).
  apply ret_Ok in H as [_ ->].
  apply (quiet_out _ _ _ _ (quiet_expect _ _)) in H3 as (O3 & _).
  rewrite O3, O2, O1. exact Gl.
Qed.

End Shape.
End ParserShape.

Import ParserShape.

(** The commands of the VM language that the compiler writes: the
    segments are those of the language, nothing is popped to [constant],
    and the arithmetic commands are the nine of the language. *)
Inductive vm_command : string -> Prop :=
  | vm_push seg n :
      seg ∈ push_segments -> vm_command (CodeGenerator.push_cmd seg n)
  | vm_pop seg n :
      seg ∈ pop_segments -> vm_command (CodeGenerator.pop_cmd seg n)
  | vm_arithmetic op :
      op ∈ ["add"; "sub"; "neg"; "eq"; "gt"; "lt"; "and"; "or"; "not"] ->
      vm_command op
  | vm_call name n : vm_command (CodeGenerator.call_cmd name n)
  | vm_function name n : vm_command (CodeGenerator.function_cmd name n)
  | vm_return : vm_command "return"
  | vm_label label : vm_command (CodeGenerator.label_cmd label)
  | vm_goto label : vm_command (CodeGenerator.goto_cmd label)
  | vm_if label : vm_command (CodeGenerator.if_cmd label).

Lemma vm_command_arithmetic op :
  op ∈ operators -> vm_command (CodeGenerator.arithmetic_cmd op).
Proof.
  unfold operators. rewrite !elem_of_cons, elem_of_nil. intros H.
  repeat (destruct H as [->|H];
    [first
       [ apply vm_arithmetic; rewrite ?elem_of_cons;
         solve [ repeat first [ left; reflexivity | right ] ]
       | exact (vm_call "Math.multiply" 2)
       | exact (vm_call "Math.divide" 2) ]|]).
  done.
Qed.

Lemma vm_not : vm_command (CodeGenerator.arithmetic_cmd "~").
Proof.
  apply vm_command_arithmetic. unfold operators. rewrite ?elem_of_cons.
  repeat first [ left; reflexivity | right ].
Qed.

(** X16: every line of the code of a class is a command of the VM
    language: a [push] or a [pop] on a segment of the language, never a
    [pop] to [constant], one of the nine arithmetic commands, a [call], a
    [function], [return], or a [label], [goto] or [if-goto] line.  The
    default of [write_arithmetic], which writes its argument as it is, is
    never taken. *)
Theorem emitted_lines_are_commands fuel st u st' :
  Parser.compile_class fuel st = Ok (u, st') ->
  Forall vm_command (out st').
Proof.
  apply (shaped_compile_class (Forall vm_command)).
  - constructor.
  - intros l1 l2 H1 H2. apply Forall_app. auto.
  - intros seg n H. constructor; [by apply vm_push | constructor].
  - intros seg n H. constructor; [by apply vm_pop | constructor].
  - intros op H. constructor; [by apply vm_command_arithmetic | constructor].
  - intros name n. constructor; [apply vm_call | constructor].
  - intros name n. constructor; [apply vm_function | constructor].
  - constructor; [apply vm_return | constructor].
  - intros c t e l1 l2 Hc Ht He. pose proof vm_not as Hn.
    rewrite !Forall_app. repeat split; try assumption;
      repeat (constructor;
              [first [ exact Hn | apply vm_if | apply vm_goto | apply vm_label ]|]);
      constructor.
  - intros c b l1 l2 Hc Hb. pose proof vm_not as Hn.
    rewrite !Forall_app. repeat split; try assumption;
      repeat (constructor;
              [first [ exact Hn | apply vm_if | apply vm_goto | apply vm_label ]|]);
      constructor.
Qed.

Definition st_while : Parser.t :=
  parser_of "class A { field int n; method void f(int k) { var Array a; while (k < n) { let a[k] = -k * 2; let k = k + 1; } return; } }".

Lemma emitted_lines_are_commands_witness :
  Parser.compile_class 80 st_while = Ok (tt, run (Parser.compile_class 80) st_while) /\
  out (run (Parser.compile_class 80) st_while) =
    ["function A.f 1"; "push argument 0"; "pop pointer 0";
     "label WHILE_LOOP_0"; "push argument 1"; "push this 0"; "lt"; "not";
     "if-goto WHILE_END_1";
     "push argument 1"; "push local 0"; "add";
     "push argument 1"; "neg"; "push constant 2"; "call Math.multiply 2";
     "pop temp 0"; "pop pointer 1"; "push temp 0"; "pop that 0";
     "push argument 1"; "push constant 1"; "add"; "pop argument 1";
     "goto WHILE_LOOP_0"; "label WHILE_END_1";
     "push constant 0"; "return"] /\
  Forall vm_command (out (run (Parser.compile_class 80) st_while)).
Proof.
  split; [vm_compute; reflexivity|]. split; [vm_compute; reflexivity|].
  apply (emitted_lines_are_commands 80 st_while tt
           (run (Parser.compile_class 80) st_while)).
  vm_compute. reflexivity.
Defined.

(** The jumps of [l] go to labels that [l] declares. *)
Definition closed (l : list string) : Prop :=
  forall x, x ∈ targets_of l -> x ∈ labels_of l.

Lemma targets_of_app l1 l2 : targets_of (l1 ++ l2) = targets_of l1 ++ targets_of l2.
Proof. apply omap_app. Qed.

Lemma closed_plain cmd : target_of cmd = None -> closed [cmd].
Proof.
  intros H x. unfold targets_of. cbn. rewrite H. by intros ?%elem_of_nil.
Qed.

Lemma closed_app l1 l2 : closed l1 -> closed l2 -> closed (l1 ++ l2).
Proof.
  intros H1 H2 x. rewrite targets_of_app, labels_of_app, !elem_of_app.
  intros [H|H]; auto.
Qed.

Lemma closed_arithmetic op :
  op ∈ operators -> closed [CodeGenerator.arithmetic_cmd op].
Proof.
  unfold operators. rewrite !elem_of_cons, elem_of_nil. intros H.
  repeat (destruct H as [->|H]; [by apply closed_plain|]). done.
Qed.

Lemma targets_of_cons cmd l :
  targets_of (cmd :: l) =
  match target_of cmd with Some x => x :: targets_of l | None => targets_of l end.
Proof. reflexivity. Qed.

Lemma labels_of_cons cmd l :
  labels_of (cmd :: l) =
  match label_of cmd with Some x => x :: labels_of l | None => labels_of l end.
Proof. reflexivity. Qed.

Lemma target_of_goto label : target_of (CodeGenerator.goto_cmd label) = Some label.
Proof. reflexivity. Qed.

Lemma target_of_if label : target_of (CodeGenerator.if_cmd label) = Some label.
Proof. reflexivity. Qed.

Lemma target_of_label label : target_of (CodeGenerator.label_cmd label) = None.
Proof. reflexivity. Qed.

Lemma label_of_goto label : label_of (CodeGenerator.goto_cmd label) = None.
Proof. reflexivity. Qed.

Lemma label_of_if label : label_of (CodeGenerator.if_cmd label) = None.
Proof. reflexivity. Qed.

Ltac lines_norm :=
  rewrite ?targets_of_app, ?labels_of_app, ?targets_of_cons, ?labels_of_cons,
    ?target_of_goto, ?target_of_if, ?target_of_label, ?label_of_goto,
    ?label_of_if, ?label_of_label_cmd;
  change (target_of (CodeGenerator.arithmetic_cmd "~")) with (@None string);
  change (label_of (CodeGenerator.arithmetic_cmd "~")) with (@None string);
  change (targets_of []) with (@nil string);
  change (labels_of []) with (@nil string);
  rewrite ?elem_of_app, ?elem_of_cons, ?elem_of_nil.

(** X17: the jumps of a subroutine stay in the subroutine: every [goto]
    and [if-goto] line that [compile_subroutine_dec] writes has its target
    declared by a [label] line that the same call writes. *)
Theorem jumps_stay_in_subroutine fuel st u st' :
  Parser.compile_subroutine_dec fuel st = Ok (u, st') ->
  exists l,
    out st' = out st ++ l /\
    forall x, x ∈ targets_of l -> x ∈ labels_of l.
Proof.
  apply (shaped_compile_subroutine_dec closed).
  - intros x. by intros ?%elem_of_nil.
  - apply closed_app.
  - intros seg n _. by apply closed_plain.
  - intros seg n _. by apply closed_plain.
  - apply closed_arithmetic.
  - intros name n. by apply closed_plain.
  - intros name n. by apply closed_plain.
  - by apply closed_plain.
  - intros c t e l1 l2 Hc Ht He x. specialize (Hc x). specialize (Ht x).
    specialize (He x). lines_norm. tauto.
  - intros c b l1 l2 Hc Hb x. specialize (Hc x). specialize (Hb x).
    lines_norm. tauto.
Qed.

Definition st_nested_jumps : Parser.t :=
  body_of "function void f() { while (true) { if (false) { return; } } return; }".

Lemma jumps_stay_in_subroutine_witness :
  Parser.compile_subroutine_dec 60 st_nested_jumps =
    Ok (tt, run (Parser.compile_subroutine_dec 60) st_nested_jumps) /\
  targets_of (out (run (Parser.compile_subroutine_dec 60) st_nested_jumps)) =
    ["WHILE_END_1"; "IF_FALSE_2"; "IF_END_3"; "WHILE_LOOP_0"] /\
  exists l,
    out (run (Parser.compile_subroutine_dec 60) st_nested_jumps) =
      out st_nested_jumps ++ l /\
    forall x, x ∈ targets_of l -> x ∈ labels_of l.
Proof.
  split; [vm_compute; reflexivity|]. split; [vm_compute; reflexivity|].
  apply (jumps_stay_in_subroutine 60 st_nested_jumps tt
           (run (Parser.compile_subroutine_dec 60) st_nested_jumps)).
  vm_compute. reflexivity.
Defined.

(** ** The code of the statements *)

Lemma expressions_keep_counter fuel st u st' :
  Parser.compile_expression fuel st = Ok (u, st') -> ctr st' = ctr st.
Proof.
  intros H.
  apply (passes_compile_expression (fun _ => True) (fun s s' => ctr s' = ctr s))
    in H; [tauto | done | congruence | | | | done].
  - intros s s' _ Ha. split; [done|].
    by apply (quiet_out _ _ _ _ quiet_advance) in Ha as (_ & ? & _).
  - intros s cmd s' _ He. split; [done|].
    by apply emit_write_out in He as (_ & ? & _).
  - intros s s1 s2 _ _ Ha Hs. split; [done|].
    apply (quiet_out _ _ _ _ quiet_advance) in Ha as (_ & Ha & _).
    apply (quiet_out _ _ _ _ (quiet_step_back _)) in Hs as (_ & Hs & _).
    congruence.
Qed.

Lemma else_code fuel (b : bool) s a s' :
  (if b
   then
     Parser.bind Parser.advance (fun _ =>
     Parser.bind (Parser.expect [SYMBOL] (Some "{")) (fun _ =>
     Parser.bind (Parser.compile_statements fuel) (fun _ =>
     Parser.bind (Parser.expect [SYMBOL] (Some "}")) (fun _ => Parser.ret tt))))
   else Parser.ret tt) s = Ok (a, s') ->
  exists le,
    out s' = out s ++ le /\
    (le = [] \/
     exists se se',
       Parser.compile_statements fuel se = Ok (tt, se') /\
       out se' = out se ++ le).
Proof.
  destruct b.
  - intros H. inv_binds H.
    repeat match goal with x : unit |- _ => destruct x end.
    match goal with
    | Hy : Parser.compile_statements _ _ = Ok _ |- _ =>
        pose proof Hy as Helse;
        apply (ParserFacts.sound_compile_statements) in Hy as (le & _ & Oe & _)
    end.
    prim_facts. exists le. split; [|right; eauto].
    repeat match goal with H : out _ = _ |- _ => rewrite H; clear H end.
    reflexivity.
  - intros H. apply ret_Ok in H as [_ ->]. exists [].
    split; [by rewrite app_nil_r | by left].
Qed.

(** X18: the code of [if (c) { s1 } else { s2 }] is the code of [c],
    [not], [if-goto IF_FALSE_n], the code of [s1], [goto IF_END_n+1],
    [label IF_FALSE_n], the code of [s2] if there is an [else], and
    [label IF_END_n+1], where [n] is the value of the label counter at the
    [if]: the two labels of one statement carry consecutive numbers, and
    the statements inside start at [n+2]. *)
Theorem if_code fuel st u st' :
  Parser.compile_if fuel st = Ok (u, st') ->
  exists fuel' sa sb sc sd cond body rest,
    fuel = S fuel' /\
    Parser.compile_expression fuel' sa = Ok (tt, sb) /\
    out sa = out st /\ out sb = out sa ++ cond /\
    Parser.compile_statements fuel' sc = Ok (tt, sd) /\
    out sd = out sc ++ body /\ ctr sc = (ctr st + 2)%N /\
    (rest = [] \/
     exists se se',
       Parser.compile_statements fuel' se = Ok (tt, se') /\
       out se' = out se ++ rest) /\
    out st' =
      out st ++ cond ++
      ["not";
       CodeGenerator.if_cmd (CodeGenerator.make_label "IF_FALSE" (ctr st))] ++
      body ++
      [CodeGenerator.goto_cmd (CodeGenerator.make_label "IF_END" (ctr st + 1));
       CodeGenerator.label_cmd (CodeGenerator.make_label "IF_FALSE" (ctr st))] ++
      rest ++
      [CodeGenerator.label_cmd (CodeGenerator.make_label "IF_END" (ctr st + 1))].
Proof.
  intros H. destruct fuel as [|fuel]; [discriminate|].
  cbn [Parser.compile_if] in H. inv_binds H.
  repeat match goal with x : unit |- _ => destruct x end.
  match goal with
  | Hx : (if _ then _ else _) _ = Ok _ |- _ =>
      apply else_code in Hx as (le & Oe & He)
  end.
  match goal with
  | Hx : Parser.compile_expression _ _ = Ok _ |- _ =>
      pose proof (expressions_keep_counter _ _ _ _ Hx) as Hctr;
      pose proof Hx as Hcond;
      apply (ParserFacts.sound_compile_expression) in Hx as (lc & _ & Oc & _)
  end.
  match goal with
  | Hx : Parser.compile_statements _ _ = Ok _ |- _ =>
      pose proof Hx as Hbody;
      apply (ParserFacts.sound_compile_statements) in Hx as (lb & _ & Ob & _)
  end.
  prim_facts.
  eexists fuel, _, _, _, _, lc, lb, le.
  split; [reflexivity|]. split; [exact Hcond|]. split; [congruence|].
  split; [exact Oc|]. split; [exact Hbody|]. split; [exact Ob|].
  split; [lia|]. split; [exact He|].
  replace (ctr st) with (ctr s2) by congruence.
  replace (ctr s2 + 1)%N with (ctr s3) by lia.
  repeat match goal with H : out _ = _ |- _ => rewrite H; clear H end.
  rewrite <- !app_assoc. reflexivity.
Qed.

Definition st_if_else : Parser.t :=
  body_of "if (true) { if (false) { return 1; } } else { return 2; }".

Lemma if_code_witness :
  Parser.compile_if 50 st_if_else =
    Ok (tt, run (Parser.compile_if 50) st_if_else) /\
  out (run (Parser.compile_if 50) st_if_else) =
    ["push constant 1"; "not"; "not"; "if-goto IF_FALSE_0";
     "push constant 0"; "not"; "if-goto IF_FALSE_2"; "push constant 1";
     "return"; "goto IF_END_3"; "label IF_FALSE_2"; "label IF_END_3";
     "goto IF_END_1"; "label IF_FALSE_0"; "push constant 2"; "return";
     "label IF_END_1"] /\
  exists fuel' sa sb sc sd cond body rest,
    50 = S fuel' /\
    Parser.compile_expression fuel' sa = Ok (tt, sb) /\
    out sa = out st_if_else /\ out sb = out sa ++ cond /\
    Parser.compile_statements fuel' sc = Ok (tt, sd) /\
    out sd = out sc ++ body /\ ctr sc = (ctr st_if_else + 2)%N /\
    (rest = [] \/
     exists se se',
       Parser.compile_statements fuel' se = Ok (tt, se') /\
       out se' = out se ++ rest) /\
    out (run (Parser.compile_if 50) st_if_else) =
      out st_if_else ++ cond ++
      ["not";
       CodeGenerator.if_cmd
         (CodeGenerator.make_label "IF_FALSE" (ctr st_if_else))] ++
      body ++
      [CodeGenerator.goto_cmd
         (CodeGenerator.make_label "IF_END" (ctr st_if_else + 1));
       CodeGenerator.label_cmd
         (CodeGenerator.make_label "IF_FALSE" (ctr st_if_else))] ++
      rest ++
      [CodeGenerator.label_cmd
         (CodeGenerator.make_label "IF_END" (ctr st_if_else + 1))].
Proof.
  split; [vm_compute; reflexivity|]. split; [vm_compute; reflexivity|].
  apply (if_code 50 st_if_else tt (run (Parser.compile_if 50) st_if_else)).
  vm_compute. reflexivity.
Defined.

(** X19: the code of [while (c) { s }] is [label WHILE_LOOP_n], the code of
    [c], [not], [if-goto WHILE_END_n+1], the code of [s],
    [goto WHILE_LOOP_n] and [label WHILE_END_n+1], where [n] is the value
    of the label counter at the [while]; the statements inside start at
    [n+2]. *)
Theorem while_code fuel st u st' :
  Parser.compile_while fuel st = Ok (u, st') ->
  exists fuel' sa sb sc sd cond body,
    fuel = S fuel' /\
    Parser.compile_expression fuel' sa = Ok (tt, sb) /\
    out sb = out sa ++ cond /\
    Parser.compile_statements fuel' sc = Ok (tt, sd) /\
    out sd = out sc ++ body /\ ctr sc = (ctr st + 2)%N /\
    out st' =
      out st ++
      [CodeGenerator.label_cmd (CodeGenerator.make_label "WHILE_LOOP" (ctr st))] ++
      cond ++
      ["not";
       CodeGenerator.if_cmd (CodeGenerator.make_label "WHILE_END" (ctr st + 1))] ++
      body ++
      [CodeGenerator.goto_cmd (CodeGenerator.make_label "WHILE_LOOP" (ctr st));
       CodeGenerator.label_cmd (CodeGenerator.make_label "WHILE_END" (ctr st + 1))].
Proof.
  intros H. destruct fuel as [|fuel]; [discriminate|].
  cbn [Parser.compile_while] in H. inv_binds H.
  repeat match goal with x : unit |- _ => destruct x end.
  match goal with
  | Hx : Parser.compile_expression _ _ = Ok _ |- _ =>
      pose proof (expressions_keep_counter _ _ _ _ Hx) as Hctr;
      pose proof Hx as Hcond;
      apply (ParserFacts.sound_compile_expression) in Hx as (lc & _ & Oc & _)
  end.
  match goal with
  | Hx : Parser.compile_statements _ _ = Ok _ |- _ =>
      pose proof Hx as Hbody;
      apply (ParserFacts.sound_compile_statements) in Hx as (lb & _ & Ob & _)
  end.
  prim_facts.
  eexists fuel, _, _, _, _, lc, lb.
  split; [reflexivity|]. split; [exact Hcond|]. split; [exact Oc|].
  split; [exact Hbody|]. split; [exact Ob|]. split; [lia|].
  replace (ctr st) with (ctr s0) by congruence.
  replace (ctr s0 + 1)%N with (ctr s1) by lia.
  repeat match goal with H : out _ = _ |- _ => rewrite H; clear H end.
  rewrite <- !app_assoc. reflexivity.
Qed.

Definition st_while_true : Parser.t :=
  body_of "while (~false) { while (true) { return; } }".

Lemma while_code_witness :
  Parser.compile_while 50 st_while_true =
    Ok (tt, run (Parser.compile_while 50) st_while_true) /\
  exists fuel' sa sb sc sd cond body,
    50 = S fuel' /\
    Parser.compile_expression fuel' sa = Ok (tt, sb) /\
    out sb = out sa ++ cond /\
    Parser.compile_statements fuel' sc = Ok (tt, sd) /\
    out sd = out sc ++ body /\ ctr sc = (ctr st_while_true + 2)%N /\
    out (run (Parser.compile_while 50) st_while_true) =
      out st_while_true ++
      [CodeGenerator.label_cmd
         (CodeGenerator.make_label "WHILE_LOOP" (ctr st_while_true))] ++
      cond ++
      ["not";
       CodeGenerator.if_cmd
         (CodeGenerator.make_label "WHILE_END" (ctr st_while_true + 1))] ++
      body ++
      [CodeGenerator.goto_cmd
         (CodeGenerator.make_label "WHILE_LOOP" (ctr st_while_true));
       CodeGenerator.label_cmd
         (CodeGenerator.make_label "WHILE_END" (ctr st_while_true + 1))].
Proof.
  split; [vm_compute; reflexivity|].
  apply (while_code 50 st_while_true tt
           (run (Parser.compile_while 50) st_while_true)).
  vm_compute. reflexivity.
Defined.

(** The statement at the cursor is [let x] with no index: the name [x]. *)
Definition scalar_let (st : Parser.t) : option string :=
  match
    Parser.bind (Parser.expect [KEYWORD] (Some "let")) (fun _ =>
    Parser.bind (Parser.expect [IDENTIFIER] None) (fun tok =>
    Parser.bind (Parser.match_ ["["]) (fun b =>
    Parser.ret (tok_value tok, b)))) st
  with
  | Ok ((x, false), _) => Some x
  | _ => None
  end.

(** X20: when [let x = e;] compiles, [x] is a name of the symbol table as
    it is at the [let], and the code is the code of [e] followed by one
    [pop] to the segment and index of [x]; a [let] to a name that is not
    declared never returns. *)
Theorem scalar_let_code fuel st x u st' :
  scalar_let st = Some x ->
  Parser.compile_let fuel st = Ok (u, st') ->
  exists sym sa sb rhs,
    SymbolTable.lookup x (Parser.symbol_table st) = Some sym /\
    Parser.compile_expression fuel sa = Ok (tt, sb) /\
    out sa = out st /\ out sb = out sa ++ rhs /\
    out st' =
      out st ++ rhs ++
      [CodeGenerator.pop_cmd (Parser._segment_for (sym_kind sym)) (sym_index sym)].
Proof.
  unfold scalar_let, Parser.compile_let. intros Ha H.
  apply bind_Ok in H as (t1 & s1 & H1 & H).
  apply bind_Ok in H as (tok & s2 & H2 & H).
  apply bind_Ok in H as (symbol & s3 & H3 & H).
  apply bind_Ok in H as (b & s4 & H4 & H).
  apply gets_Ok in H3 as [-> ->]. apply gets_Ok in H4 as [Hb ->].
  unfold Parser.bind in Ha. rewrite H1, H2 in Ha.
  unfold Parser.match_, Parser.gets, Parser.ret in Ha. rewrite <- Hb in Ha.
  destruct b; [discriminate|]. injection Ha as <-.
  assert (Hst : Parser.symbol_table s2 = Parser.symbol_table st).
  { apply expect_Ok in H1 as (_ & _ & p1 & k1 & ->).
    apply expect_Ok in H2 as (_ & _ & p2 & k2 & ->). reflexivity. }
  rewrite Hst in H. clear Hb.
  apply bind_Ok in H as (t3 & sa & H5 & H).
  apply bind_Ok in H as ([] & sb & Hrhs & H).
  apply bind_Ok in H as (t4 & s5 & H6 & H).
  destruct (SymbolTable.lookup (tok_value tok) (Parser.symbol_table st))
    as [sym|] eqn:Hsym; [|discriminate].
  cbn [Parser.pop_symbol] in H.
  pose proof Hrhs as Hrhs'.
  apply sound_compile_expression in Hrhs' as (rhs & _ & Orhs & _).
  exists sym, sa, sb, rhs.
  split; [reflexivity|]. split; [exact Hrhs|].
  prim_facts.
  split; [congruence|]. split; [exact Orhs|].
  repeat match goal with H : out _ = _ |- _ => rewrite H; clear H end.
  rewrite <- !app_assoc. reflexivity.
Qed.

Definition st_let_field : Parser.t :=
  Parser.set_symbol_table
    (SymbolTable.define "y" "int" ARG
       (SymbolTable.define "x" "int" FIELD SymbolTable.init))
    (body_of "let x = y + 1;").

Lemma scalar_let_code_witness :
  scalar_let st_let_field = Some "x" /\
  Parser.compile_let 50 st_let_field =
    Ok (tt, run (Parser.compile_let 50) st_let_field) /\
  out (run (Parser.compile_let 50) st_let_field) =
    ["push argument 0"; "push constant 1"; "add"; "pop this 0"] /\
  exists sym sa sb rhs,
    SymbolTable.lookup "x" (Parser.symbol_table st_let_field) = Some sym /\
    Parser.compile_expression 50 sa = Ok (tt, sb) /\
    out sa = out st_let_field /\ out sb = out sa ++ rhs /\
    out (run (Parser.compile_let 50) st_let_field) =
      out st_let_field ++ rhs ++
      [CodeGenerator.pop_cmd (Parser._segment_for (sym_kind sym)) (sym_index sym)].
Proof.
  split; [vm_compute; reflexivity|]. split; [vm_compute; reflexivity|].
  split; [vm_compute; reflexivity|].
  apply (scalar_let_code 50 st_let_field "x" tt
           (run (Parser.compile_let 50) st_let_field));
    vm_compute; reflexivity.
Defined.

(** X21: [return;] pushes the constant 0 before the [return] command, in
    every kind of subroutine, and [return e;] writes the code of [e] and
    the [return] command. *)
Theorem return_code fuel st u st' :
  Parser.compile_return fuel st = Ok (u, st') ->
  exists tok s1,
    Parser.expect [KEYWORD] (Some "return") st = Ok (tok, s1) /\
    if String.eqb (tok_value (Parser.current_token s1)) ";"
    then out st' = out st ++ ["push constant 0"; "return"]
    else
      exists s2 e,
        Parser.compile_expression fuel s1 = Ok (tt, s2) /\
        out s2 = out st ++ e /\
        out st' = out st ++ e ++ ["return"].
Proof.
  unfold Parser.compile_return. intros H.
  apply bind_Ok in H as (tok & s1 & H1 & H). exists tok, s1.
  split; [exact H1|].
  apply bind_Ok in H as (b & s & Hb & H). apply gets_Ok in Hb as [-> ->].
  cbn [existsb] in H. rewrite orb_false_r in H.
  destruct (String.eqb _ ";"); cbn [negb] in H.
  - inv_binds H. prim_facts.
    repeat match goal with H : out _ = _ |- _ => rewrite H; clear H end.
    rewrite <- !app_assoc. reflexivity.
  - apply bind_Ok in H as ([] & s2 & He & H). inv_binds H.
    pose proof He as He'.
    apply sound_compile_expression in He' as (e & _ & Oe & _).
    prim_facts. exists s2, e. split; [exact He|]. split; [congruence|].
    repeat match goal with H : out _ = _ |- _ => rewrite H; clear H end.
    rewrite <- !app_assoc. reflexivity.
Qed.

Definition st_return : Parser.t := body_of "return;".

Lemma return_code_witness :
  Parser.compile_return 50 st_return =
    Ok (tt, run (Parser.compile_return 50) st_return) /\
  out (run (Parser.compile_return 50) st_return) =
    ["push constant 0"; "return"] /\
  exists tok s1,
    Parser.expect [KEYWORD] (Some "return") st_return = Ok (tok, s1) /\
    if String.eqb (tok_value (Parser.current_token s1)) ";"
    then out (run (Parser.compile_return 50) st_return) =
           out st_return ++ ["push constant 0"; "return"]
    else
      exists s2 e,
        Parser.compile_expression 50 s1 = Ok (tt, s2) /\
        out s2 = out st_return ++ e /\
        out (run (Parser.compile_return 50) st_return) =
          out st_return ++ e ++ ["return"].
Proof.
  split; [vm_compute; reflexivity|]. split; [vm_compute; reflexivity|].
  apply (return_code 50 st_return tt (run (Parser.compile_return 50) st_return)).
  vm_compute. reflexivity.
Defined.

(** ** Calls on a name *)





(** ** Constructors and functions *)

















(** ** Terms *)

Lemma peek_next st s1 :
  wf st -> 0 < rem st -> Parser.advance st = Ok (tt, s1) ->
  Parser.current_token s1 = Parser.peek st.
Proof.
  intros Hwf Hrem Hadv.
  destruct (advance_wf st Hwf) as (st' & Hadv' & _ & _ & _ & _ & Hmove & _).
  rewrite Hadv in Hadv'. injection Hadv' as <-.
  destruct (Hmove Hrem) as [_ Hnext].
  destruct Hwf as (Hpos & _). unfold rem, len in *. unfold Parser.peek.
  destruct (_ <? _)%Z eqn:E; [|apply Z.ltb_ge in E; lia].
  unfold Parser.py_index, Parser.py_norm.
  destruct (0 <=? _)%Z eqn:E0; [|apply Z.leb_gt in E0; lia].
  rewrite E. by rewrite Hnext.
Qed.

(** X24: [peek], which the compiler never calls, returns the token that
    [advance] moves to: on a well-formed cursor that is not on the end
    marker, the current token after [advance] is the token that [peek]
    returned before.  On the end marker [peek] returns a new end marker,
    on line 0. *)
Theorem peek_is_next st :
  wf st ->
  exists st',
    Parser.advance st = Ok (tt, st') /\
    (0 < rem st -> Parser.current_token st' = Parser.peek st) /\
    (rem st = 0 -> Parser.peek st = mkToken EOF "" 0).
Proof.
  intros Hwf.
  destruct (advance_wf st Hwf) as (st' & Hadv & _).
  exists st'. split; [exact Hadv|]. split.
  - intros Hrem. by apply peek_next.
  - intros Hrem. destruct Hwf as (Hpos & _). unfold rem, len in *.
    unfold Parser.peek.
    destruct (_ <? _)%Z eqn:E; [apply Z.ltb_lt in E; lia | done].
Qed.

Lemma peek_is_next_witness :
  wf st_two_tokens /\
  exists st',
    Parser.advance st_two_tokens = Ok (tt, st') /\
    (0 < rem st_two_tokens ->
       Parser.current_token st' = Parser.peek st_two_tokens) /\
    (rem st_two_tokens = 0 -> Parser.peek st_two_tokens = mkToken EOF "" 0).
Proof.
  split; [exact wf_two_tokens|]. exact (peek_is_next st_two_tokens wf_two_tokens).
Defined.

(** The current token starts none of the branches of [compile_term] that
    come before the one for identifiers. *)
Definition plain_identifier (tok : Token) : bool :=
  bool_decide (tok_type tok = IDENTIFIER) &&
  negb (existsb (String.eqb (tok_value tok))
          ["true"; "false"; "null"; "this"; "-"; "~"]).

(** Evaluates the tests of [match] on lexemes that are known to differ. *)
Ltac run_tests :=
  repeat first
    [ progress cbv beta
    | progress cbn [existsb orb]
    | match goal with
      | H : String.eqb _ _ = false |- _ => rewrite H
      end ].

(** X25: a term that is an identifier not followed by [[], [(] or [.] is a
    variable: [compile_term] moves past it and pushes the segment and index
    that the symbol table has for the name.  For a name that is in no
    scope the call raises an [AttributeError]; nothing checks that the name
    is declared before the code generator is asked to push it. *)
Theorem variable_term fuel st g :
  wf st -> Parser.code_gen st = Some g ->
  plain_identifier (Parser.current_token st) = true ->
  existsb (String.eqb (tok_value (Parser.peek st))) ["["; "("; "."] = false ->
  match
    SymbolTable.lookup (tok_value (Parser.current_token st)) (Parser.symbol_table st)
  with
  | Some sym =>
      exists st',
        Parser.compile_term (S fuel) st = Ok (tt, st') /\
        out st' =
          out st ++
          [CodeGenerator.push_cmd (Parser._segment_for (sym_kind sym)) (sym_index sym)] /\
        Parser.current_token st' = Parser.peek st
  | None => Parser.compile_term (S fuel) st = Err AttributeError
  end.
Proof.
  intros Hwf Hg Hid Hnext. unfold plain_identifier in Hid.
  apply andb_true_iff in Hid as [Hty Hkw]. apply bool_decide_eq_true in Hty.
  apply negb_true_iff in Hkw. cbn [existsb] in Hkw.
  repeat (apply orb_false_iff in Hkw as [? Hkw]).
  assert (Hrem : 0 < rem st).
  { destruct (Nat.eq_dec (rem st) 0) as [E|]; [|lia].
    apply (wf_at_end st Hwf) in E as [E _]. rewrite Hty in E. discriminate. }
  destruct (advance_wf st Hwf)
    as (s1 & Hadv & _ & _ & _ & _ & Hmove & _ & Hsym & Hgen).
  pose proof (peek_next st s1 Hwf Hrem Hadv) as Hpeek.
  rewrite <- Hpeek in Hnext.
  cbn [existsb] in Hnext. repeat (apply orb_false_iff in Hnext as [? Hnext]).
  cbn [Parser.compile_term].
  unfold Parser.bind, Parser.current_type, Parser.match_, Parser.current_value,
    Parser.lookup, Parser.gets.
  rewrite Hty.
  destruct (decide (IDENTIFIER = INT_CONST)) as [E|_]; [discriminate|].
  destruct (decide (IDENTIFIER = STRING_CONST)) as [E|_]; [discriminate|].
  destruct (decide (IDENTIFIER = IDENTIFIER)) as [_|E]; [|done].
  run_tests. rewrite Hadv. run_tests. rewrite Hsym.
  destruct (SymbolTable.lookup _ _) as [sym|]; [|reflexivity].
  cbn [Parser.push_symbol]. unfold Parser.emit. rewrite Hgen, Hg.
  eexists. split; [reflexivity|]. unfold out. cbn. rewrite Hg.
  split; [reflexivity | exact Hpeek].
Qed.

Definition st_variable : Parser.t :=
  Parser.set_symbol_table
    (SymbolTable.define "n" "int" STATIC SymbolTable.init)
    (body_of "n + 1").

Lemma wf_variable : wf st_variable.
Proof.
  unfold wf, len. split; [vm_compute; split; [discriminate | reflexivity]|].
  split; [reflexivity|]. exists 1%N. reflexivity.
Defined.

Lemma variable_term_witness :
  wf st_variable /\
  Parser.code_gen st_variable = Some (CodeGenerator.init "A") /\
  plain_identifier (Parser.current_token st_variable) = true /\
  existsb (String.eqb (tok_value (Parser.peek st_variable))) ["["; "("; "."] =
    false /\
  exists st',
    Parser.compile_term 5 st_variable = Ok (tt, st') /\
    out st' = out st_variable ++ ["push static 0"] /\
    Parser.current_token st' = Parser.peek st_variable.
Proof.
  split; [exact wf_variable|]. split; [reflexivity|]. split; [reflexivity|].
  split; [reflexivity|].
  exact (variable_term 4 st_variable (CodeGenerator.init "A") wf_variable
           eq_refl eq_refl eq_refl).
Defined.

(** The lines that append the characters of a string constant. *)
Fixpoint chars_code (s : string) : list string :=
  match s with
  | EmptyString => []
  | String c r =>
      CodeGenerator.push_cmd "constant" (Tokenizer.ord c) ::
      CodeGenerator.call_cmd "String.appendChar" 2 :: chars_code r
  end.

Lemma write_chars_run s st g :
  Parser.code_gen st = Some g ->
  exists g',
    Parser.write_chars s st = Ok (tt, Parser.set_code_gen (Some g') st) /\
    CodeGenerator.output g' = CodeGenerator.output g ++ chars_code s.
Proof.
  revert st g. induction s as [|c r IH]; intros st g Hg; cbn [Parser.write_chars].
  - exists g. split; [|by rewrite app_nil_r].
    unfold Parser.ret. f_equal. f_equal. destruct st. cbn in *. by subst.
  - unfold Parser.bind at 1. unfold Parser.emit at 1. rewrite Hg.
    unfold Parser.bind at 1. unfold Parser.emit at 1. cbn [Parser.code_gen Parser.set_code_gen].
    match goal with
    | |- context [Parser.write_chars r ?s] =>
        destruct (IH s _ eq_refl) as (g' & Hrun & Hout)
    end.
    exists g'. split; [exact Hrun|]. rewrite Hout. cbn.
    rewrite <- !app_assoc. reflexivity.
Qed.

(** X26: a string constant always compiles while the class has a code
    generator: the code is [push constant n] for the number [n] of
    characters of the lexeme, [call String.new 1], and for every character
    in turn the push of its code and [call String.appendChar 2]; the
    cursor moves to the next token. *)
Theorem string_constant_code fuel st g :
  wf st -> Parser.code_gen st = Some g ->
  tok_type (Parser.current_token st) = STRING_CONST ->
  exists st',
    Parser.compile_term (S fuel) st = Ok (tt, st') /\
    out st' =
      out st ++
      [CodeGenerator.push_cmd "constant"
         (N.of_nat (String.length (tok_value (Parser.current_token st))));
       "call String.new 1"] ++
      chars_code (tok_value (Parser.current_token st)) /\
    Parser.current_token st' = Parser.peek st.
Proof.
  intros Hwf Hg Hty.
  assert (Hrem : 0 < rem st).
  { destruct (Nat.eq_dec (rem st) 0) as [E|]; [|lia].
    apply (wf_at_end st Hwf) in E as [E _]. rewrite Hty in E. discriminate. }
  cbn [Parser.compile_term].
  unfold Parser.bind at 1. unfold Parser.current_type at 1. unfold Parser.gets at 1.
  rewrite Hty.
  destruct (decide (STRING_CONST = INT_CONST)) as [E|_]; [discriminate|].
  destruct (decide (STRING_CONST = STRING_CONST)) as [_|E]; [|done].
  unfold Parser.bind at 1. unfold Parser.current_value at 1. unfold Parser.gets at 1.
  unfold Parser.bind at 1. unfold Parser.emit at 1. rewrite Hg.
  unfold Parser.bind at 1. unfold Parser.emit at 1.
  cbn [Parser.code_gen Parser.set_code_gen].
  unfold Parser.bind.
  match goal with
  | |- context [Parser.write_chars ?v ?s] =>
      destruct (write_chars_run v s _ eq_refl) as (g' & Hrun & Hout)
  end.
  rewrite Hrun.
  match goal with
  | |- context [Parser.advance ?s] =>
      assert (Hwf' : wf s) by (by apply wf_set_code_gen);
      destruct (advance_wf s Hwf') as (st' & Hadv & _ & _ & _ & _ & _ & _ & _ & Hgen);
      pose proof (peek_next s st' Hwf' Hrem Hadv) as Hpeek
  end.
  exists st'. split; [exact Hadv|]. split; [|exact Hpeek].
  unfold out. rewrite Hgen, Hg. cbn. rewrite Hout. cbn.
  rewrite <- !app_assoc. reflexivity.
Qed.

Definition st_string : Parser.t :=
  body_of (String Tokenizer.dquote ("Hi" +:+ String Tokenizer.dquote ";")).

Lemma wf_string : wf st_string.
Proof.
  unfold wf, len. split; [vm_compute; split; [discriminate | reflexivity]|].
  split; [reflexivity|]. exists 1%N. reflexivity.
Defined.

Lemma string_constant_code_witness :
  wf st_string /\
  Parser.code_gen st_string = Some (CodeGenerator.init "A") /\
  tok_type (Parser.current_token st_string) = STRING_CONST /\
  exists st',
    Parser.compile_term 1 st_string = Ok (tt, st') /\
    out st' =
      out st_string ++
      ["push constant 2"; "call String.new 1";
       "push constant 72"; "call String.appendChar 2";
       "push constant 105"; "call String.appendChar 2"] /\
    Parser.current_token st' = Parser.peek st_string.
Proof.
  split; [exact wf_string|]. split; [reflexivity|]. split; [reflexivity|].
  exact (string_constant_code 0 st_string (CodeGenerator.init "A") wf_string
           eq_refl eq_refl).
Defined.

(** The current token is the operator of a unary term. *)
Definition unary_operator (tok : Token) : bool :=
  negb (bool_decide (tok_type tok ∈ [INT_CONST; STRING_CONST])) &&
  existsb (String.eqb (tok_value tok)) ["-"; "~"].

(** X27: a term that starts with [-] or [~] is the term that follows with
    one command after it: [neg] for [-], not [sub], and [not] for [~]. *)
Theorem unary_term fuel st u st' :
  unary_operator (Parser.current_token st) = true ->
  Parser.compile_term (S fuel) st = Ok (u, st') ->
  exists s1 s2 code,
    Parser.advance st = Ok (tt, s1) /\
    Parser.compile_term fuel s1 = Ok (tt, s2) /\
    out s2 = out s1 ++ code /\
    out st' =
      out st ++ code ++
      [if String.eqb (tok_value (Parser.current_token st)) "-"
       then "neg" else "not"].
Proof.
  unfold unary_operator. intros Hop H.
  apply andb_true_iff in Hop as [Hty Hv]. apply negb_true_iff in Hty.
  apply bool_decide_eq_false in Hty.
  cbn [Parser.compile_term] in H.
  apply bind_Ok in H as (ty & s & Hg & H). apply gets_Ok in Hg as [-> ->].
  destruct (decide _) as [E|_]; [rewrite E in Hty; set_solver|].
  destruct (decide _) as [E|_]; [rewrite E in Hty; set_solver|].
  apply bind_Ok in H as (b1 & s & Hg & H). apply gets_Ok in Hg as [-> ->].
  assert (Hkw : existsb (String.eqb (tok_value (Parser.current_token st)))
                  ["true"; "false"; "null"; "this"] = false).
  { cbn [existsb] in Hv. rewrite orb_false_r in Hv.
    apply orb_true_iff in Hv as [Hv|Hv]; apply String.eqb_eq in Hv;
      rewrite Hv; reflexivity. }
  rewrite Hkw in H.
  apply bind_Ok in H as (b2 & s & Hg & H). apply gets_Ok in Hg as [-> ->].
  rewrite Hv in H.
  apply bind_Ok in H as (op & s & Hg & H). apply gets_Ok in Hg as [-> ->].
  apply bind_Ok in H as ([] & s1 & Hadv & H).
  apply bind_Ok in H as ([] & s2 & Hterm & H).
  pose proof Hterm as Hterm'.
  apply sound_expressions in Hterm' as (code & _ & Oc & _).
  exists s1, s2, code. split; [exact Hadv|]. split; [exact Hterm|].
  split; [exact Oc|].
  apply (quiet_out _ _ _ _ quiet_advance) in Hadv as (Oa & _).
  destruct (String.eqb _ "-"); apply emit_write_out in H as (O & _);
    rewrite O, Oc, Oa, <- app_assoc; reflexivity.
Qed.

Definition st_negation : Parser.t := body_of "-(~5)".

Lemma unary_term_witness :
  unary_operator (Parser.current_token st_negation) = true /\
  Parser.compile_term 20 st_negation =
    Ok (tt, run (Parser.compile_term 20) st_negation) /\
  out (run (Parser.compile_term 20) st_negation) =
    ["push constant 5"; "not"; "neg"] /\
  exists s1 s2 code,
    Parser.advance st_negation = Ok (tt, s1) /\
    Parser.compile_term 19 s1 = Ok (tt, s2) /\
    out s2 = out s1 ++ code /\
    out (run (Parser.compile_term 20) st_negation) =
      out st_negation ++ code ++
      [if String.eqb (tok_value (Parser.current_token st_negation)) "-"
       then "neg" else "not"].
Proof.
  split; [reflexivity|]. split; [vm_compute; reflexivity|].
  split; [vm_compute; reflexivity|].
  apply (unary_term 19 st_negation tt (run (Parser.compile_term 20) st_negation));
    [reflexivity | vm_compute; reflexivity].
Defined.

(** ** Chains of operators *)

















(** ** Lists of declared names *)









(** ** The driver *)

(** X30: [compile_file] has one outcome on every world: it returns or
    raises, and the files and the printed lines that it leaves do not
    depend on the fuel of the model once there is enough of it.  When
    there is no file at the input path the outcome is a
    [FileNotFoundError] and the world is left as it was. *)
Theorem compile_file_defined input_file output_file w :
  exists w' r,
    r <> Timeout /\
    (exists fuel, forall fuel', fuel <= fuel' ->
       compile_file fuel' input_file output_file w = (w', r)) /\
    (files w !! input_file = None -> w' = w /\ r = Err FileNotFoundError).
Proof.
  destruct (compile_file_total input_file output_file w) as [fuel Hfuel].
  pose proof (Hfuel fuel (le_n _)) as Hne.
  destruct (compile_file fuel input_file output_file w) as [w' r] eqn:E.
  exists w', r. cbn in Hne. split; [exact Hne|]. split.
  - exists fuel. intros fuel' Hle.
    rewrite (compile_file_fuel_mono fuel fuel' input_file output_file w Hle);
      [exact E | by rewrite E].
  - intros Hnone. unfold compile_file in E. rewrite Hnone in E.
    by injection E as <- <-.
Qed.

(** ** Calls on the current object *)














(** ** The parameters of a method *)































